(** * hsk-vocab: the adaptive scheduling core of the HSK vocabulary drill

    A shallow embedding of [hsk-vocab.py]: the progress store
    ([get_default_progress], [load_progress], [save_progress]), the
    selector ([get_next_index]), answer checking ([get_quiz_item_data],
    [check_answer]) and the per-item turn ([run_quiz_for_item]).

    Modelling conventions.
    - A Python [float] is an exact rational ([Q]); rounding is not modelled.
      Numeric statements use [==] on [Q].
    - A Python [int] is a [Z].
    - A Python [str] is a [string] of bytes (its UTF-8 encoding).  [lower]
      and [upper] change the ASCII letters, [strip] and [split] know the
      ASCII white space: that is what Python does on ASCII text and on
      Chinese characters.  Python also changes the case of other letters
      (the capitals of tone-marked pinyin) and takes other characters for
      white space (U+3000); lines that hold such characters are outside
      the model.
    - A progress entry (a dict with fixed keys) is the record
      [ProgressRecord]; the lookup dict of [load_progress] is a
      [gmap string ProgressRecord].
    - The progress file is what reading it gives ([file_content]): bytes
      that cannot be decoded, text that is not JSON, or a JSON document.  A
      stored object that has a ["word"] has the other keys of a progress
      entry, as [save_progress] writes them.
    - The module-level flags [g_chinese_to_english], [g_random_mode] are the
      fields of [Settings]; [g_in_order_index] is threaded as a cursor.
    - [input()] and [time.time()] are replaced by the lines typed and the
      waiting periods measured during a turn ([TurnIO]).
    - An in-place update of [prog_item] that can be cut short by an
      exception is a computation in the state-and-exception monad [M]. *)

From Stdlib Require Import QArith Qminmax Lqa ZArith Lia Ascii String List.
From stdpp Require Import base option list gmap strings.

Local Open Scope Z_scope.
Local Open Scope Q_scope.

(** ** Constants *)

Definition PENALTY_HINT : Q := 3 # 2.
Definition PENALTY_SKIP : Q := 3.
Definition PENALTY_INCORRECT : Q := 4.
Definition REWARD_STREAK : Q := 1 # 4.
Definition REWARD_TIME : Q := 1 # 2.
Definition REWARD_CORRECT : Q := 1.
Definition MAX_WEIGHT : Q := 10.
Definition MIN_WEIGHT : Q := 1 # 100.

(** ** Exceptions and results *)

Inductive exn : Type :=
  | IndexError
  | ValueError
  | AttributeError
  | ZeroDivisionError
  | TypeError
  | UnicodeDecodeError.

Inductive result (A : Type) : Type :=
  | Ok (a : A)
  | Raise (e : exn).
Arguments Ok {A} a.
Arguments Raise {A} e.

(** ** Data model *)

Record ProgressRecord : Type := mkProgress {
  word : string;
  weight : Q;
  streak : Z;
  avg_time : Q;
  total_time : Q;
  attempts : Z;
  correct : Z
}.

(** The [pinyin] field of a vocabulary item is a single string or a list of
    variants. *)
Inductive pinyin_field : Type :=
  | PinyinStr (s : string)
  | PinyinList (l : list string).

(** The fields of a vocabulary item that decide answers and keys; [None] is
    a missing key.  The remaining fields are shown; the two of them whose
    type matters, ["english_descriptive"] and ["measure_word"], are a
    string and an object here, as in the vocabulary files (module
    [Displayed] below takes them as they come). *)
Record VocabularyItem : Type := mkItem {
  simplified : option string;
  pinyin : option pinyin_field;
  english_concise : option string
}.

Record Settings : Type := mkSettings {
  chinese_to_english : bool;
  random_mode : bool
}.

(** ** Python built-ins on [float], [int] and [str] *)

Definition Qltb (a b : Q) : bool := negb (Qle_bool b a).

(** [min(a, b)] and [max(a, b)] keep [a] unless [b] is strictly better. *)
Definition py_min (a b : Q) : Q := if Qltb b a then b else a.
Definition py_max (a b : Q) : Q := if Qltb a b then b else a.

(** [x / n] for a float [x] and an int [n]. *)
Definition py_div (x : Q) (n : Z) : result Q :=
  if Z.eqb n 0 then Raise ZeroDivisionError else Ok (x / inject_Z n).

Definition is_upper (c : ascii) : bool :=
  let n := nat_of_ascii c in (Nat.leb 65 n && Nat.leb n 90)%bool.

Definition lower_char (c : ascii) : ascii :=
  if is_upper c then ascii_of_nat (nat_of_ascii c + 32) else c.

Fixpoint lower (s : string) : string :=
  match s with
  | EmptyString => EmptyString
  | String c s' => String (lower_char c) (lower s')
  end.

(** ASCII characters for which [str.isspace] holds. *)
Definition is_space (c : ascii) : bool :=
  let n := nat_of_ascii c in
  ((Nat.leb 9 n && Nat.leb n 13) || (Nat.leb 28 n && Nat.leb n 32))%bool.

Fixpoint lstrip (s : string) : string :=
  match s with
  | EmptyString => EmptyString
  | String c s' => if is_space c then lstrip s' else s
  end.

(** [rstrip]: a character is dropped when it is a space and everything after
    it has been dropped. *)
Fixpoint rstrip (s : string) : string :=
  match s with
  | EmptyString => EmptyString
  | String c s' =>
      match rstrip s' with
      | EmptyString => if is_space c then EmptyString else String c EmptyString
      | r => String c r
      end
  end.

Definition strip (s : string) : string := rstrip (lstrip s).

(** [s.replace(" ", "")]. *)
Fixpoint remove_spaces (s : string) : string :=
  match s with
  | EmptyString => EmptyString
  | String c s' =>
      if Ascii.eqb c " " then remove_spaces s' else String c (remove_spaces s')
  end.

Fixpoint starts_with (p s : string) : bool :=
  match p, s with
  | EmptyString, _ => true
  | String _ _, EmptyString => false
  | String a p', String b s' => (Ascii.eqb a b && starts_with p' s')%bool
  end.

(** [needle in hay] on two strings: [needle] occurs at some offset. *)
Fixpoint str_contains (needle hay : string) : bool :=
  (starts_with needle hay ||
   match hay with
   | EmptyString => false
   | String _ hay' => str_contains needle hay'
   end)%bool.

(** [x in l] on a list of strings. *)
Definition list_contains (x : string) (l : list string) : bool :=
  existsb (String.eqb x) l.

(** ** Progress store *)

(** An element of the stored JSON list: an object that has a ["word"] key
    (a string, and then the other fields of a progress entry), an object
    that has not, or a JSON [null], boolean or number, on which
    ['word' in item] is a [TypeError].  A string or a list as an element
    behaves as one of the last two: it is passed over, or, when it holds
    ["word"], [item['word']] is a [TypeError] as well. *)
Inductive stored_entry : Type :=
  | WithWord (r : ProgressRecord)
  | WithoutWord
  | Scalar.

(** What opening and reading the progress file gives.
    - [Corrupt]: the file cannot be opened or read ([IOError]), or its text
      is not JSON ([json.JSONDecodeError]); the [try] block catches both.
    - [Undecodable]: its bytes are not UTF-8.  Reading raises
      [UnicodeDecodeError], a [ValueError] that is neither of the two
      exceptions the [except] clause names.
    - [Parsed]: a JSON list, with its elements (a JSON string or object is
      iterated in the same way, over its characters or its keys).
    - [ParsedScalar]: a JSON [null], boolean or number, which the
      comprehension cannot iterate: a [TypeError], not caught either. *)
Inductive file_content : Type :=
  | Corrupt
  | Undecodable
  | Parsed (old_prog : list stored_entry)
  | ParsedScalar.

(** The part of the file system the store sees: the progress file ([None]
    when [os.path.exists] is false) and whether writing succeeds. *)
Record FileSystem : Type := mkFS {
  progress_file : option file_content;
  writable : bool
}.

Definition item_word (w : VocabularyItem) : string :=
  default "N/A"%string (simplified w).

Definition default_record (word_char : string) : ProgressRecord :=
  {| word := word_char; weight := MAX_WEIGHT; streak := 0%Z; avg_time := 0;
     total_time := 0; attempts := 0%Z; correct := 0%Z |}.

Definition get_default_progress (data : list VocabularyItem) : list ProgressRecord :=
  map (fun w => default_record (item_word w)) data.

(** One element of the comprehension below, with the dict built so far. *)
Definition add_entry (acc : result (gmap string ProgressRecord)) (item : stored_entry)
    : result (gmap string ProgressRecord) :=
  match acc, item with
  | Raise e, _ => Raise e
  | Ok m, WithWord r => Ok (<[word r := r]> m)
  | Ok m, WithoutWord => Ok m
  | Ok _, Scalar => Raise TypeError
  end.

(** [{item['word']: item for item in old_prog if 'word' in item}]: entries
    are inserted from left to right, a later one replaces an earlier one;
    the first element that is no container ends it with a [TypeError]. *)
Definition old_prog_map (old_prog : list stored_entry)
    : result (gmap string ProgressRecord) :=
  foldl add_entry (Ok ∅) old_prog.

Definition merge_item (m : gmap string ProgressRecord) (w : VocabularyItem) : ProgressRecord :=
  let word_char := item_word w in
  match m !! word_char with
  | Some r => r
  | None => default_record word_char
  end.

(** The result holds the values of the entries; when two items have the
    same word, Python appends the same dict twice.  The [except] clause
    turns the two exceptions it names into the default entries; any other
    exception of the [try] block leaves the function. *)
Definition load_progress (fs : FileSystem) (data : list VocabularyItem)
    : result (list ProgressRecord) :=
  match progress_file fs with
  | None => Ok (get_default_progress data)
  | Some Corrupt => Ok (get_default_progress data)
  | Some Undecodable => Raise UnicodeDecodeError
  | Some ParsedScalar => Raise TypeError
  | Some (Parsed old_prog) =>
      match old_prog_map old_prog with
      | Ok m => Ok (map (merge_item m) data)
      | Raise e => Raise e
      end
  end.

(** [json.dump] overwrites the file with the list.  [writable] says whether
    [open(..., 'w')] succeeds; when it does not, the [IOError] is printed
    and the file is as it was. *)
Definition save_progress (progress_data : list ProgressRecord) (fs : FileSystem) : FileSystem :=
  if writable fs
  then {| progress_file := Some (Parsed (map WithWord progress_data));
          writable := writable fs |}
  else fs.

(** ** Selection *)

(** [itertools.accumulate]: running sums. *)
Fixpoint accumulate_from (acc : Q) (l : list Q) : list Q :=
  match l with
  | [] => []
  | x :: l' => (acc + x) :: accumulate_from (acc + x) l'
  end.

Definition accumulate (l : list Q) : list Q :=
  match l with
  | [] => []
  | x :: l' => x :: accumulate_from x l'
  end.

(** [bisect.bisect_right(a, x, lo, hi)]; the loop runs at most [hi - lo]
    times, which is the fuel [bisect] gives it. *)
Fixpoint bisect_loop (fuel : nat) (a : list Q) (x : Q) (lo hi : nat) : result nat :=
  match fuel with
  | O => Ok lo
  | S fuel' =>
      if Nat.ltb lo hi then
        let mid := Nat.div (lo + hi) 2 in
        match a !! mid with
        | None => Raise IndexError
        | Some a_mid =>
            if Qltb x a_mid
            then bisect_loop fuel' a x lo mid
            else bisect_loop fuel' a x (mid + 1) hi
        end
      else Ok lo
  end.

Definition bisect (a : list Q) (x : Q) (lo hi : nat) : result nat :=
  bisect_loop (hi - lo) a x lo hi.

(** [random.choices(population, weights=weights, k=1)[0]], with [u] the
    value of [random()], as CPython's [Lib/random.py] computes it; its test
    that the total is finite always passes on rationals. *)
Definition choices (population : list Z) (weights : list Q) (u : Q) : result Z :=
  let n := length population in
  let cum_weights := accumulate weights in
  if negb (Nat.eqb (length cum_weights) n) then Raise ValueError
  else
    match last cum_weights with
    | None => Raise IndexError
    | Some total =>
        if Qle_bool total 0 then Raise ValueError
        else
          match bisect cum_weights (u * total) 0 (n - 1) with
          | Raise e => Raise e
          | Ok i =>
              match population !! i with
              | Some x => Ok x
              | None => Raise IndexError
              end
          end
    end.

(** [list(range(n))]. *)
Definition range (n : Z) : list Z := map Z.of_nat (seq 0 (Z.to_nat n)).

(** Returns the selected index (or the exception) and the new value of
    [g_in_order_index]. *)
Definition get_next_index (cfg : Settings) (data_len : Z)
    (progress : list ProgressRecord) (u : Q) (g_in_order_index : Z) : result Z * Z :=
  if random_mode cfg then
    let weights := map weight progress in
    let indices := range data_len in
    (choices indices weights u, g_in_order_index)
  else
    let selected_index := g_in_order_index in
    if Z.eqb data_len 0 then (Raise ZeroDivisionError, g_in_order_index)
    else (Ok selected_index, ((g_in_order_index + 1) mod data_len)%Z).

(** ** Answers *)

(** The answer list of [get_quiz_item_data]; the prompt and the hint it
    also builds are only printed.  [.replace] on a [pinyin] list of fewer
    than two variants is an [AttributeError]. *)
Definition get_quiz_item_data (cfg : Settings) (item : VocabularyItem) : result (list string) :=
  if chinese_to_english cfg then
    let a_simplified := lower (default ""%string (simplified item)) in
    match pinyin item with
    | Some (PinyinList l) =>
        match l !! 1%nat with
        | Some p => Ok [a_simplified; lower (remove_spaces p)]
        | None => Raise AttributeError
        end
    | Some (PinyinStr p) => Ok [a_simplified; lower (remove_spaces p)]
    | None => Ok [a_simplified; lower (remove_spaces "")]
    end
  else
    Ok [lower (default "N/A"%string (english_concise item))].

Definition check_answer (cfg : Settings) (user_input : string)
    (answer_list : list string) : result bool :=
  if chinese_to_english cfg then
    Ok (list_contains user_input answer_list)
  else
    match answer_list with
    | [] => Raise IndexError
    | a0 :: _ => Ok (str_contains user_input a0)
    end.

(** ** The turn *)

(** The status string [run_quiz_for_item] returns. *)
Inductive status : Type := Correct | Incorrect | Skipped | Quit.

Definition status_string (s : status) : string :=
  match s with
  | Correct => "correct"
  | Incorrect => "incorrect"
  | Skipped => "skipped"
  | Quit => "quit"
  end.

(** What the learner does during one turn: the line typed at the prompt and
    the time it took, and the line typed and the time taken at the second
    prompt, which is only shown after a hint. *)
Record TurnIO : Type := mkIO {
  first_input : string;
  first_elapsed : Q;
  hint_input : string;
  hint_elapsed : Q
}.

(** Computations on the entry being quizzed: they read and update
    [prog_item] and either return or raise; the updates made before an
    exception stay. *)
Definition M (A : Type) : Type := ProgressRecord -> result A * ProgressRecord.

Definition ret {A} (a : A) : M A := fun p => (Ok a, p).

Definition bind {A B} (c : M A) (k : A -> M B) : M B :=
  fun p =>
    match c p with
    | (Ok a, p') => k a p'
    | (Raise e, p') => (Raise e, p')
    end.

Definition lift {A} (r : result A) : M A := fun p => (r, p).

Definition read {A} (f : ProgressRecord -> A) : M A := fun p => (Ok (f p), p).

Definition update (f : ProgressRecord -> ProgressRecord) : M unit :=
  fun p => (Ok tt, f p).

#[export] Instance turn_ret : MRet M := @ret.
#[export] Instance turn_bind : MBind M := fun A B k c => bind c k.

Definition set_weight (v : Q) (p : ProgressRecord) : ProgressRecord :=
  {| word := word p; weight := v; streak := streak p; avg_time := avg_time p;
     total_time := total_time p; attempts := attempts p; correct := correct p |}.
Definition set_streak (v : Z) (p : ProgressRecord) : ProgressRecord :=
  {| word := word p; weight := weight p; streak := v; avg_time := avg_time p;
     total_time := total_time p; attempts := attempts p; correct := correct p |}.
Definition set_avg_time (v : Q) (p : ProgressRecord) : ProgressRecord :=
  {| word := word p; weight := weight p; streak := streak p; avg_time := v;
     total_time := total_time p; attempts := attempts p; correct := correct p |}.
Definition set_total_time (v : Q) (p : ProgressRecord) : ProgressRecord :=
  {| word := word p; weight := weight p; streak := streak p; avg_time := avg_time p;
     total_time := v; attempts := attempts p; correct := correct p |}.
Definition set_attempts (v : Z) (p : ProgressRecord) : ProgressRecord :=
  {| word := word p; weight := weight p; streak := streak p; avg_time := avg_time p;
     total_time := total_time p; attempts := v; correct := correct p |}.
Definition set_correct (v : Z) (p : ProgressRecord) : ProgressRecord :=
  {| word := word p; weight := weight p; streak := streak p; avg_time := avg_time p;
     total_time := total_time p; attempts := attempts p; correct := v |}.

(** [inpt = input(...).strip().lower()]. *)
Definition normalize (line : string) : string := lower (strip line).

(** The reward of a correct answer: [prog_item['streak']] has been
    incremented, [prog_item['avg_time']] has not been recomputed yet. *)
Definition reward_of (p : ProgressRecord) (elapsed_time : Q) : Q :=
  let reward := REWARD_CORRECT + REWARD_STREAK * inject_Z (streak p) in
  if (Qltb 0 (avg_time p) && Qltb elapsed_time (avg_time p))%bool
  then reward + REWARD_TIME
  else reward.

(** Lines 400-430: the answer [inpt], given after [elapsed_time], is
    graded against [answer]. *)
Definition grade_answer (cfg : Settings) (answer : list string)
    (inpt : string) (elapsed_time : Q) : M status :=
  update (fun p => set_attempts (attempts p + 1)%Z p) ;;
  update (fun p => set_total_time (total_time p + elapsed_time) p) ;;
  is_correct ← lift (check_answer cfg inpt answer) ;
  result ←
    (if is_correct : bool then
       update (fun p => set_correct (correct p + 1)%Z p) ;;
       update (fun p => set_streak (streak p + 1)%Z p) ;;
       update (fun p => set_weight (py_max MIN_WEIGHT (weight p - reward_of p elapsed_time)) p) ;;
       ret Correct
     else
       update (set_streak 0%Z) ;;
       update (fun p => set_weight (py_min MAX_WEIGHT (weight p + PENALTY_INCORRECT)) p) ;;
       ret Incorrect) ;
  total ← read total_time ;
  n ← read attempts ;
  avg ← lift (py_div total n) ;
  update (set_avg_time avg) ;;
  ret result.

Definition run_quiz_for_item (cfg : Settings) (item : VocabularyItem)
    (io : TurnIO) : M status :=
  answer ← lift (get_quiz_item_data cfg item) ;
  let inpt := normalize (first_input io) in
  let elapsed_time := first_elapsed io in
  if String.eqb inpt "-q" then
    ret Quit
  else if String.eqb inpt "-s" then
    lift (match answer with [] => Raise IndexError | a0 :: _ => Ok a0 end) ;;
    update (fun p => set_weight (py_min MAX_WEIGHT (weight p + PENALTY_SKIP)) p) ;;
    update (set_streak 0%Z) ;;
    update (fun p => set_attempts (attempts p + 1)%Z p) ;;
    ret Skipped
  else if String.eqb inpt "-h" then
    update (fun p => set_weight (py_min MAX_WEIGHT (weight p + PENALTY_HINT)) p) ;;
    let inpt := normalize (hint_input io) in
    let elapsed_time := elapsed_time + hint_elapsed io in
    grade_answer cfg answer inpt elapsed_time
  else
    grade_answer cfg answer inpt elapsed_time.

(** A run of turns on one entry, each with its item and what the learner
    does; the entry is carried on whatever a turn returns or raises. *)
Fixpoint run_turns (cfg : Settings) (turns : list (VocabularyItem * TurnIO))
    (p : ProgressRecord) : ProgressRecord :=
  match turns with
  | [] => p
  | (item, io) :: rest => run_turns cfg rest (snd (run_quiz_for_item cfg item io p))
  end.

(** ** Statements of the specification *)

(** The bounds of the data model on a weight. *)
Definition weight_in_range (p : ProgressRecord) : Prop :=
  MIN_WEIGHT <= weight p /\ weight p <= MAX_WEIGHT.

(** The line is a command of the first prompt. *)
Definition is_command (inpt : string) : bool :=
  (String.eqb inpt "-q" || String.eqb inpt "-s" || String.eqb inpt "-h")%bool.

(** The line holds nothing but white space. *)
Fixpoint all_space (s : string) : bool :=
  match s with
  | EmptyString => true
  | String c s' => (is_space c && all_space s')%bool
  end.

(** The reward as the specification words it: the base reward, the streak
    bonus on the incremented streak, and the time bonus when the old average
    is positive and the answer was faster than it. *)
Definition spec_reward (old_streak : Z) (old_avg_time elapsed : Q) : Q :=
  REWARD_CORRECT + REWARD_STREAK * inject_Z (old_streak + 1)
  + (if Qlt_le_dec 0 old_avg_time
     then if Qlt_le_dec elapsed old_avg_time then REWARD_TIME else 0
     else 0).

(** [avg_time] is [total_time / attempts] when there are attempts, else 0. *)
Definition avg_time_consistent (p : ProgressRecord) : Prop :=
  ((0 < attempts p)%Z -> avg_time p == total_time p / inject_Z (attempts p)) /\
  (attempts p = 0%Z -> avg_time p == 0).

(** A progress set is valid for a vocabulary list when it is aligned with
    it, entry by entry, and no word occurs twice. *)
Definition valid_progress_set (data : list VocabularyItem)
    (progress : list ProgressRecord) : Prop :=
  map word progress = map item_word data /\ NoDup (map word progress).

(** The words of the stored entries that have one. *)
Definition stored_words (old_prog : list stored_entry) : list string :=
  omap (fun e => match e with WithWord r => Some (word r) | _ => None end)
       old_prog.

(** The stored entry a word resolves to: the last one that carries it. *)
Fixpoint last_with_word (k : string) (old_prog : list stored_entry) : option ProgressRecord :=
  match old_prog with
  | [] => None
  | item :: rest =>
      match last_with_word k rest with
      | Some r => Some r
      | None =>
          match item with
          | WithWord r => if decide (word r = k) then Some r else None
          | _ => None
          end
      end
  end.


(** [needle] occurs in [hay]. *)
Definition occurs_in (needle hay : string) : Prop :=
  exists pre post, hay = pre +:+ needle +:+ post.

(** The entries a turn can leave, by outcome. *)

(** The entry after a graded answer, before [avg_time] is recomputed. *)
Definition counted (e : Q) (p : ProgressRecord) : ProgressRecord :=
  set_total_time (total_time p + e) (set_attempts (attempts p + 1)%Z p).

Definition after_correct (e : Q) (p : ProgressRecord) : ProgressRecord :=
  let p1 := set_streak (streak p + 1)%Z (set_correct (correct p + 1)%Z (counted e p)) in
  set_weight (py_max MIN_WEIGHT (weight p1 - reward_of p1 e)) p1.

Definition after_incorrect (e : Q) (p : ProgressRecord) : ProgressRecord :=
  let p1 := set_streak 0%Z (counted e p) in
  set_weight (py_min MAX_WEIGHT (weight p1 + PENALTY_INCORRECT)) p1.

Definition with_avg (p : ProgressRecord) : ProgressRecord :=
  set_avg_time (total_time p / inject_Z (attempts p)) p.

Definition after_skip (p : ProgressRecord) : ProgressRecord :=
  set_attempts (attempts p + 1)%Z
    (set_streak 0%Z (set_weight (py_min MAX_WEIGHT (weight p + PENALTY_SKIP)) p)).

Definition after_hint (p : ProgressRecord) : ProgressRecord :=
  set_weight (py_min MAX_WEIGHT (weight p + PENALTY_HINT)) p.

(** The computation [c] keeps [I], whether it returns or raises. *)
Definition preserves {A} (I : ProgressRecord -> Prop) (c : M A) : Prop :=
  forall p, I p -> I (snd (c p)).

(** The invariant behind the weight bounds: the streak is never negative,
    so a reward never is. *)
Definition bounded (p : ProgressRecord) : Prop :=
  weight_in_range p /\ (0 <= streak p)%Z.

(** Unfolds the monad of a turn down to pairs. *)
Ltac turn_unfold :=
  unfold mbind, mret, turn_bind, turn_ret, bind, ret, lift, read, update.

(** ** Further statements about a turn *)

(** The counters of an entry are ordered: a streak is made of correct
    answers and a correct answer is an attempt. *)
Definition counters_ordered (p : ProgressRecord) : Prop :=
  (0 <= streak p)%Z /\ (streak p <= correct p)%Z /\ (correct p <= attempts p)%Z.

(** The waiting periods of a turn are not negative. *)
Definition waits_nonneg (turn : VocabularyItem * TurnIO) : Prop :=
  0 <= first_elapsed (snd turn) /\ 0 <= hint_elapsed (snd turn).

(** The line graded in a turn and the time counted for it: the first line,
    or after [-h] the second line and both waiting periods. *)
Definition graded_line (io : TurnIO) : string :=
  if String.eqb (normalize (first_input io)) "-h"
  then normalize (hint_input io) else normalize (first_input io).

Definition graded_time (io : TurnIO) : Q :=
  if String.eqb (normalize (first_input io)) "-h"
  then first_elapsed io + hint_elapsed io else first_elapsed io.

(** The entry the grading starts from. *)
Definition graded_entry (io : TurnIO) (p : ProgressRecord) : ProgressRecord :=
  if String.eqb (normalize (first_input io)) "-h" then after_hint p else p.

(** The turn is a line typed at the first prompt that is not a command,
    on an item that gives its answers, and [check_answer] returns [b]. *)
Definition answered (cfg : Settings) (turn : VocabularyItem * TurnIO) (b : bool) : Prop :=
  exists answer,
    get_quiz_item_data cfg (fst turn) = Ok answer /\
    is_command (normalize (first_input (snd turn))) = false /\
    check_answer cfg (normalize (first_input (snd turn))) answer = Ok b.

(** The same turn with other lines typed. *)
Definition with_lines (io : TurnIO) (first second : string) : TurnIO :=
  {| first_input := first; first_elapsed := first_elapsed io;
     hint_input := second; hint_elapsed := hint_elapsed io |}.

(** ** Further statements about the selection *)

(** Successive calls of [get_next_index], one per draw, with the cursor
    passed from one call to the next. *)
Fixpoint next_indices (cfg : Settings) (data_len : Z) (progress : list ProgressRecord)
    (draws : list Q) (g_in_order_index : Z) : list (result Z) * Z :=
  match draws with
  | [] => ([], g_in_order_index)
  | u :: rest =>
      let '(r, cursor) := get_next_index cfg data_len progress u g_in_order_index in
      let '(rs, cursor') := next_indices cfg data_len progress rest cursor in
      (r :: rs, cursor')
  end.

(** The sum of a list of rationals. *)
Fixpoint sum_list (l : list Q) : Q :=
  match l with
  | [] => 0
  | x :: l' => x + sum_list l'
  end.

(** The weight of the first [k] entries. *)
Definition prefix_weight (progress : list ProgressRecord) (k : nat) : Q :=
  sum_list (map weight (take k progress)).

Definition weight_sum (progress : list ProgressRecord) : Q :=
  sum_list (map weight progress).

(** ** Statistics *)

(** [sum(...)] of floats: from 0, left to right. *)
Definition py_sum (l : list Q) : Q := foldl Qplus 0 l.

(** [sum(...)] of ints. *)
Definition py_sum_int (l : list Z) : Z := foldl Z.add 0%Z l.

(** Returns [(proficiency_percent, total_time)]; the division is by a
    length that is not 0. *)
Definition get_session_metadata (progress : list ProgressRecord) : Q * Q :=
  match progress with
  | [] => (0, 0)
  | _ :: _ =>
      let total_weight := py_sum (map weight progress) in
      let total := py_sum (map total_time progress) in
      let avg_weight := total_weight / inject_Z (Z.of_nat (length progress)) in
      let weight_range := MAX_WEIGHT - MIN_WEIGHT in
      let normalized_avg_difficulty := (avg_weight - MIN_WEIGHT) / weight_range in
      let proficiency_percent := (1 - normalized_avg_difficulty) * 100 in
      let proficiency_percent := py_max 0 (py_min 100 proficiency_percent) in
      (proficiency_percent, total)
  end.

(** The numbers [display_item_metadata] prints for an entry (it prints
    them when [g_show_meta_data] is set). *)
Record ItemMetadata : Type := mkItemMetadata {
  new_proficiency : Q;
  old_proficiency : Q;
  item_proficiency_change : Q;
  accuracy : Q
}.

Definition display_item_metadata (prog_item : ProgressRecord) (orig_weight : Q) : ItemMetadata :=
  let weight_range := MAX_WEIGHT - MIN_WEIGHT in
  let new_prof := ((MAX_WEIGHT - weight prog_item) / weight_range) * 100 in
  let old_prof := ((MAX_WEIGHT - orig_weight) / weight_range) * 100 in
  {| new_proficiency := new_prof;
     old_proficiency := old_prof;
     item_proficiency_change := new_prof - old_prof;
     accuracy :=
       if (0 <? attempts prog_item)%Z
       then (inject_Z (correct prog_item) / inject_Z (attempts prog_item)) * 100
       else 0 |}.

(** The numbers [display_session_summary] prints. *)
Record SessionSummary : Type := mkSummary {
  shown_correct : Z;
  shown_attempts : Z;
  session_accuracy : Q;
  end_proficiency : Q;
  proficiency_change : Q;
  total_words : nat;
  words_seen : nat;
  overall_total_correct : Z;
  overall_total_attempts : Z;
  overall_accuracy : Q;
  mastery_threshold : Q;
  words_mastered : nat;
  total_hours : Q;
  session_minutes : Q
}.

Definition display_session_summary (progress : list ProgressRecord)
    (session_correct session_attempts : Z) (time_change_minutes : Q)
    (start_proficiency : Q) : SessionSummary :=
  let session_acc :=
    if (0 <? session_attempts)%Z
    then inject_Z session_correct / inject_Z session_attempts * 100 else 0 in
  let '(end_prof, end_total_time) := get_session_metadata progress in
  let total_correct := py_sum_int (map correct progress) in
  let total_attempts := py_sum_int (map attempts progress) in
  let threshold := MIN_WEIGHT + (MAX_WEIGHT - MIN_WEIGHT) * (5 # 100) in
  {| shown_correct := session_correct;
     shown_attempts := session_attempts;
     session_accuracy := session_acc;
     end_proficiency := end_prof;
     proficiency_change := end_prof - start_proficiency;
     total_words := length progress;
     words_seen := length (filter (fun p => (0 < attempts p)%Z) progress);
     overall_total_correct := total_correct;
     overall_total_attempts := total_attempts;
     overall_accuracy :=
       if (0 <? total_attempts)%Z
       then inject_Z total_correct / inject_Z total_attempts * 100 else 0;
     mastery_threshold := threshold;
     words_mastered := length (filter (fun p => Qle_bool (weight p) threshold = true) progress);
     total_hours := end_total_time / 3600;
     session_minutes := time_change_minutes |}.

(** The proficiency of one entry, as [display_item_metadata] computes it. *)
Definition item_proficiency (w : Q) : Q :=
  ((MAX_WEIGHT - w) / (MAX_WEIGHT - MIN_WEIGHT)) * 100.

(** ** Session settings *)

(** The five module-level flags the settings prompt toggles. *)
Record Flags : Type := mkFlags {
  g_chinese_to_english : bool;
  g_random_mode : bool;
  g_show_pinyin : bool;
  g_show_simplified : bool;
  g_show_meta_data : bool
}.

(** The values the module starts with. *)
Definition initial_flags : Flags :=
  {| g_chinese_to_english := true; g_random_mode := true; g_show_pinyin := true;
     g_show_simplified := true; g_show_meta_data := true |}.

(** The two flags the selection and the turn read. *)
Definition settings_of (f : Flags) : Settings :=
  {| chinese_to_english := g_chinese_to_english f; random_mode := g_random_mode f |}.

Definition is_lower (c : ascii) : bool :=
  let n := nat_of_ascii c in (Nat.leb 97 n && Nat.leb n 122)%bool.

Definition upper_char (c : ascii) : ascii :=
  if is_lower c then ascii_of_nat (nat_of_ascii c - 32) else c.

Fixpoint upper (s : string) : string :=
  match s with
  | EmptyString => EmptyString
  | String c s' => String (upper_char c) (upper s')
  end.

(** [s.replace("-", " ")]. *)
Fixpoint replace_dashes (s : string) : string :=
  match s with
  | EmptyString => EmptyString
  | String c s' => String (if Ascii.eqb c "-" then " "%char else c) (replace_dashes s')
  end.

(** [s.split()]: the maximal runs of characters that are not white space. *)
Fixpoint split (s : string) : list string :=
  match s with
  | EmptyString => []
  | String c s' =>
      if is_space c then split s'
      else
        match s' with
        | EmptyString => [String c EmptyString]
        | String c' _ =>
            if is_space c' then String c EmptyString :: split s'
            else
              match split s' with
              | t :: ts => String c t :: ts
              | [] => [String c EmptyString]
              end
        end
  end.

Definition tokenize_input (user_input : string) : list string :=
  map upper
    (filter (fun token => strip token <> EmptyString)
            (split (replace_dashes user_input))).

(** How [validate_tokens] ends: it returns a boolean, or [sys.exit(0)]
    raises [SystemExit]. *)
Inductive validation : Type :=
  | Validated (ok : bool)
  | Exits.

Definition toggle (token : string) (f : Flags) : option Flags :=
  if String.eqb token "EC" then
    Some {| g_chinese_to_english := negb (g_chinese_to_english f);
            g_random_mode := g_random_mode f; g_show_pinyin := g_show_pinyin f;
            g_show_simplified := g_show_simplified f;
            g_show_meta_data := g_show_meta_data f |}
  else if String.eqb token "R" then
    Some {| g_chinese_to_english := g_chinese_to_english f;
            g_random_mode := negb (g_random_mode f); g_show_pinyin := g_show_pinyin f;
            g_show_simplified := g_show_simplified f;
            g_show_meta_data := g_show_meta_data f |}
  else if String.eqb token "P" then
    Some {| g_chinese_to_english := g_chinese_to_english f;
            g_random_mode := g_random_mode f; g_show_pinyin := negb (g_show_pinyin f);
            g_show_simplified := g_show_simplified f;
            g_show_meta_data := g_show_meta_data f |}
  else if String.eqb token "S" then
    Some {| g_chinese_to_english := g_chinese_to_english f;
            g_random_mode := g_random_mode f; g_show_pinyin := g_show_pinyin f;
            g_show_simplified := negb (g_show_simplified f);
            g_show_meta_data := g_show_meta_data f |}
  else if String.eqb token "M" then
    Some {| g_chinese_to_english := g_chinese_to_english f;
            g_random_mode := g_random_mode f; g_show_pinyin := g_show_pinyin f;
            g_show_simplified := g_show_simplified f;
            g_show_meta_data := negb (g_show_meta_data f) |}
  else None.

(** The [for] loop of [validate_tokens]: the flags as toggled so far and
    the tokens rejected so far. *)
Fixpoint validate_loop (tokens : list string) (f : Flags) (errs : list string)
    : option (list string) * Flags :=
  match tokens with
  | [] => (Some errs, f)
  | token :: rest =>
      if String.eqb token "Q" then (None, f)
      else
        match toggle token f with
        | Some f' => validate_loop rest f' errs
        | None => validate_loop rest f (errs ++ [token])
        end
  end.

Definition validate_tokens (tokens : list string) (f : Flags) : validation * Flags :=
  match validate_loop tokens f [] with
  | (None, f') => (Exits, f')
  | (Some [], f') => (Validated true, f')
  | (Some (_ :: _), f') => (Validated false, f')
  end.

(** How the settings prompt ends: a line was accepted, [Q] was typed, or
    the learner stopped answering (the lines ran out). *)
Inductive settings_end : Type :=
  | Configured
  | SettingsExit
  | SettingsInterrupted.

(** [set_session_settings] on the lines the learner types; returns how it
    ends, the flags, and the lines not read. *)
Fixpoint set_session_settings (lines : list string) (f : Flags)
    : settings_end * Flags * list string :=
  match lines with
  | [] => (SettingsInterrupted, f, [])
  | line :: rest =>
      match validate_tokens (tokenize_input (strip line)) f with
      | (Exits, f') => (SettingsExit, f', rest)
      | (Validated true, f') => (Configured, f', rest)
      | (Validated false, f') => set_session_settings rest f'
      end
  end.

(** The flags after the tokens, each known token toggling its flag. *)
Definition toggled (tokens : list string) (f : Flags) : Flags :=
  foldl (fun f token => default f (toggle token f)) f tokens.

Definition known_token (token : string) : bool :=
  (String.eqb token "EC" || String.eqb token "R" || String.eqb token "P" ||
   String.eqb token "S" || String.eqb token "M")%bool.

(** ** The session *)

(** The place [l[i]] refers to in a Python list: negative indices count
    from the end, anything else out of range is an [IndexError]. *)
Definition py_position {A} (l : list A) (i : Z) : option nat :=
  let n := Z.of_nat (length l) in
  if ((0 <=? i) && (i <? n))%Z then Some (Z.to_nat i)
  else if ((- n <=? i) && (i <? 0))%Z then Some (Z.to_nat (n + i))
  else None.

Definition py_getitem {A} (l : list A) (i : Z) : result A :=
  match py_position l i with
  | Some k => match l !! k with Some x => Ok x | None => Raise IndexError end
  | None => Raise IndexError
  end.

(** The variables of [main] that the loop changes, with [g_in_order_index].
    The entries of [s_progress] are separate objects, as they are when no
    two items of the vocabulary share a word: an update of one entry is an
    update at its place in the list. *)
Record Session : Type := mkSession {
  s_progress : list ProgressRecord;
  s_cursor : Z;
  s_correct : Z;
  s_attempts : Z
}.

(** How the [while True] loop is left: by [break] after ["quit"], by an
    exception, or by the learner's interrupt at the next prompt. *)
Inductive loop_end : Type :=
  | Quitted
  | Crashed (e : exn)
  | Interrupted.

(** One pass through the body of the loop, with the draw of [random()] and
    what the learner does; [None] when the loop goes on. *)
Definition quiz_step (cfg : Settings) (data : list VocabularyItem)
    (u : Q) (io : TurnIO) (s : Session) : option loop_end * Session :=
  let '(r, cursor) :=
    get_next_index cfg (Z.of_nat (length data)) (s_progress s) u (s_cursor s) in
  let s1 := {| s_progress := s_progress s; s_cursor := cursor;
               s_correct := s_correct s; s_attempts := s_attempts s |} in
  match r with
  | Raise e => (Some (Crashed e), s1)
  | Ok index =>
      match py_getitem data index, py_getitem (s_progress s) index,
            py_position (s_progress s) index with
      | Ok item_data, Ok item_progress, Some k =>
          let '(result, item_progress') :=
            run_quiz_for_item cfg item_data io item_progress in
          let progress' := <[k := item_progress']> (s_progress s) in
          match result with
          | Ok Correct =>
              (None, {| s_progress := progress'; s_cursor := cursor;
                        s_correct := (s_correct s + 1)%Z;
                        s_attempts := (s_attempts s + 1)%Z |})
          | Ok Incorrect | Ok Skipped =>
              (None, {| s_progress := progress'; s_cursor := cursor;
                        s_correct := s_correct s;
                        s_attempts := (s_attempts s + 1)%Z |})
          | Ok Quit =>
              (Some Quitted, {| s_progress := progress'; s_cursor := cursor;
                                s_correct := s_correct s; s_attempts := s_attempts s |})
          | Raise e =>
              (Some (Crashed e), {| s_progress := progress'; s_cursor := cursor;
                                    s_correct := s_correct s;
                                    s_attempts := s_attempts s |})
          end
      | Raise e, _, _ => (Some (Crashed e), s1)
      | _, Raise e, _ => (Some (Crashed e), s1)
      | _, _, None => (Some (Crashed IndexError), s1)
      end
  end.

(** The loop on the turns the learner plays; after them the learner
    interrupts at the first prompt of the next turn, for which the index
    has been selected with [last_draw]. *)
Fixpoint quiz_loop (cfg : Settings) (data : list VocabularyItem)
    (events : list (Q * TurnIO)) (last_draw : Q) (s : Session) : loop_end * Session :=
  match events with
  | [] =>
      let '(r, cursor) :=
        get_next_index cfg (Z.of_nat (length data)) (s_progress s) last_draw (s_cursor s) in
      let s1 := {| s_progress := s_progress s; s_cursor := cursor;
                   s_correct := s_correct s; s_attempts := s_attempts s |} in
      match r with
      | Raise e => (Crashed e, s1)
      | Ok index =>
          match py_getitem data index, py_getitem (s_progress s) index with
          | Ok _, Ok _ => (Interrupted, s1)
          | Raise e, _ => (Crashed e, s1)
          | _, Raise e => (Crashed e, s1)
          end
      end
  | (u, io) :: rest =>
      match quiz_step cfg data u io s with
      | (Some e, s') => (e, s')
      | (None, s') => quiz_loop cfg data rest last_draw s'
      end
  end.

(** What can leave [main] uncaught: an exception of the program's own
    code, or the [UnboundLocalError] of the [finally] block. *)
Inductive main_exn : Type :=
  | QuizError (e : exn)
  | UnboundLocalError.

Inductive ending : Type :=
  | Returns
  | Uncaught (e : main_exn).

(** What a run of [main] leaves: the file system, how it ends, the progress
    list as it was at the end (when it was loaded), and the summary shown. *)
Record MainResult : Type := mkMainResult {
  final_fs : FileSystem;
  ending_of : ending;
  last_progress : option (list ProgressRecord);
  shown : option SessionSummary
}.

(** [main], given what [get_hsk_file] returns ([None] when the learner
    interrupts it), the lines typed at the settings prompt, and the turns
    played.  An exception of [load_progress] leaves [progress] unassigned:
    the [finally] block saves nothing and the exception goes on.  When the
    settings prompt is left by [Q] ([SystemExit]) or by an interrupt, the
    [finally] block saves and then reads [start_total_time], which has not
    been assigned. *)
Definition main (fs : FileSystem) (hsk : option (list VocabularyItem))
    (settings_lines : list string) (events : list (Q * TurnIO)) (last_draw : Q)
    : MainResult :=
  match hsk with
  | None =>
      {| final_fs := fs; ending_of := Returns; last_progress := None; shown := None |}
  | Some data =>
      match load_progress fs data with
      | Raise ex =>
          {| final_fs := fs; ending_of := Uncaught (QuizError ex);
             last_progress := None; shown := None |}
      | Ok progress =>
          match set_session_settings settings_lines initial_flags with
          | (Configured, flags, _) =>
              let '(start_proficiency, start_total_time) :=
                get_session_metadata progress in
              let '(e, s) :=
                quiz_loop (settings_of flags) data events last_draw
                  {| s_progress := progress; s_cursor := 0%Z;
                     s_correct := 0%Z; s_attempts := 0%Z |} in
              let fs' := save_progress (s_progress s) fs in
              let '(_, end_total_time) := get_session_metadata (s_progress s) in
              let time_change_minutes := (end_total_time - start_total_time) / 60 in
              {| final_fs := fs';
                 ending_of := match e with
                              | Crashed ex => Uncaught (QuizError ex)
                              | _ => Returns
                              end;
                 last_progress := Some (s_progress s);
                 shown := Some (display_session_summary (s_progress s) (s_correct s)
                                  (s_attempts s) time_change_minutes start_proficiency) |}
          | (_, _, _) =>
              {| final_fs := save_progress progress fs;
                 ending_of := Uncaught UnboundLocalError;
                 last_progress := Some progress;
                 shown := None |}
          end
      end
  end.

(** Every character of the string passes the test. *)
Fixpoint string_forall (test : ascii -> bool) (s : string) : bool :=
  match s with
  | EmptyString => true
  | String c s' => (test c && string_forall test s')%bool
  end.

(** A character a token can hold: no white space, no dash, no small
    letter. *)
Definition token_char (c : ascii) : bool :=
  (negb (is_space c) && negb (Ascii.eqb c "-") && negb (is_lower c))%bool.

(** ** The turn with the fields it shows *)

(** [VocabularyItem] holds the fields the answers are made of.  Two more
    fields take no part in an answer and can still end a turn:
    ["english_descriptive"] is concatenated to the prompt in the
    Chinese-to-English direction, a [TypeError] unless it is a string, and
    [reveal_answer] calls [.get] on ["measure_word"], an [AttributeError]
    unless it is an object.  The other fields a turn shows are formatted,
    which no value prevents.  [run_quiz_for_item] above is the turn of an
    item in which the two fields are of these types, as they are in the
    vocabulary files; the definitions of this module take the two fields as
    the JSON file may have them. *)
Module Displayed.

(** The JSON type of a value, as far as a turn can tell: a string, an
    object, or anything else ([null], a boolean, a number, a list). *)
Inductive json_kind : Type :=
  | JsonString
  | JsonObject
  | JsonOther.

(** [None] is a missing key, for which [.get] supplies a default of the
    right type (['N/A'], [{}]). *)
Record DisplayFields : Type := mkDisplay {
  english_descriptive : option json_kind;
  measure_word : option json_kind
}.

Definition is_string (v : option json_kind) : bool :=
  match v with
  | None | Some JsonString => true
  | Some _ => false
  end.

Definition is_object (v : option json_kind) : bool :=
  match v with
  | None | Some JsonObject => true
  | Some _ => false
  end.

(** [measure_word.get('character', '')]; the rest is printed. *)
Definition reveal_answer (d : DisplayFields) : result unit :=
  if is_object (measure_word d) then Ok tt else Raise AttributeError.

(** The prompt is built before the answers. *)
Definition get_quiz_item_data (cfg : Settings) (item : VocabularyItem)
    (d : DisplayFields) : result (list string) :=
  if chinese_to_english cfg then
    if is_string (english_descriptive d)
    then get_quiz_item_data cfg item
    else Raise TypeError
  else get_quiz_item_data cfg item.

(** Lines 400-430, with [reveal_answer] after a rejected answer. *)
Definition grade_answer (cfg : Settings) (d : DisplayFields) (answer : list string)
    (inpt : string) (elapsed_time : Q) : M status :=
  update (fun p => set_attempts (attempts p + 1)%Z p) ;;
  update (fun p => set_total_time (total_time p + elapsed_time) p) ;;
  is_correct ← lift (check_answer cfg inpt answer) ;
  result ←
    (if is_correct : bool then
       update (fun p => set_correct (correct p + 1)%Z p) ;;
       update (fun p => set_streak (streak p + 1)%Z p) ;;
       update (fun p => set_weight (py_max MIN_WEIGHT (weight p - reward_of p elapsed_time)) p) ;;
       ret Correct
     else
       lift (reveal_answer d) ;;
       update (set_streak 0%Z) ;;
       update (fun p => set_weight (py_min MAX_WEIGHT (weight p + PENALTY_INCORRECT)) p) ;;
       ret Incorrect) ;
  total ← read total_time ;
  n ← read attempts ;
  avg ← lift (py_div total n) ;
  update (set_avg_time avg) ;;
  ret result.

Definition run_quiz_for_item (cfg : Settings) (item : VocabularyItem)
    (d : DisplayFields) (io : TurnIO) : M status :=
  answer ← lift (get_quiz_item_data cfg item d) ;
  let inpt := normalize (first_input io) in
  let elapsed_time := first_elapsed io in
  if String.eqb inpt "-q" then
    ret Quit
  else if String.eqb inpt "-s" then
    lift (match answer with [] => Raise IndexError | a0 :: _ => Ok a0 end) ;;
    update (fun p => set_weight (py_min MAX_WEIGHT (weight p + PENALTY_SKIP)) p) ;;
    update (set_streak 0%Z) ;;
    update (fun p => set_attempts (attempts p + 1)%Z p) ;;
    ret Skipped
  else if String.eqb inpt "-h" then
    update (fun p => set_weight (py_min MAX_WEIGHT (weight p + PENALTY_HINT)) p) ;;
    let inpt := normalize (hint_input io) in
    let elapsed_time := elapsed_time + hint_elapsed io in
    grade_answer cfg d answer inpt elapsed_time
  else
    grade_answer cfg d answer inpt elapsed_time.

End Displayed.

(** ** Comparisons and clamps *)

Lemma Qltb_lt (a b : Q) : Qltb a b = true <-> a < b.
Proof.
  unfold Qltb. rewrite negb_true_iff.
  destruct (Qle_bool b a) eqn:E.
  - apply Qle_bool_iff in E. split; [discriminate | lra].
  - split; [intros _ | reflexivity].
    destruct (Qlt_le_dec a b) as [H | H]; [exact H |].
    apply Qle_bool_iff in H. congruence.
Qed.

Lemma Qltb_ge (a b : Q) : Qltb a b = false <-> b <= a.
Proof.
  destruct (Qltb a b) eqn:E.
  - apply Qltb_lt in E. split; [discriminate | lra].
  - split; [intros _ | reflexivity].
    destruct (Qlt_le_dec a b) as [H | H]; [| exact H].
    apply Qltb_lt in H. congruence.
Qed.

Lemma py_min_spec (a b : Q) : py_min a b == Qmin a b.
Proof.
  unfold py_min. destruct (Qltb b a) eqn:E.
  - apply Qltb_lt in E. rewrite Q.min_r; lra.
  - apply Qltb_ge in E. rewrite Q.min_l; lra.
Qed.

Lemma py_max_spec (a b : Q) : py_max a b == Qmax a b.
Proof.
  unfold py_max. destruct (Qltb a b) eqn:E.
  - apply Qltb_lt in E. rewrite Q.max_r; lra.
  - apply Qltb_ge in E. rewrite Q.max_l; lra.
Qed.

Lemma py_min_cases (a b : Q) :
  (b < a /\ py_min a b = b) \/ (a <= b /\ py_min a b = a).
Proof.
  unfold py_min. destruct (Qltb b a) eqn:E.
  - left. apply Qltb_lt in E. auto.
  - right. apply Qltb_ge in E. auto.
Qed.

Lemma py_max_cases (a b : Q) :
  (a < b /\ py_max a b = b) \/ (b <= a /\ py_max a b = a).
Proof.
  unfold py_max. destruct (Qltb a b) eqn:E.
  - left. apply Qltb_lt in E. auto.
  - right. apply Qltb_ge in E. auto.
Qed.

(** A penalty keeps a weight within the bounds. *)
Lemma penalty_in_range (w pen : Q) :
  MIN_WEIGHT <= w -> 0 <= pen ->
  MIN_WEIGHT <= py_min MAX_WEIGHT (w + pen) /\ py_min MAX_WEIGHT (w + pen) <= MAX_WEIGHT.
Proof.
  intros Hw Hp. unfold MIN_WEIGHT, MAX_WEIGHT in *.
  destruct (py_min_cases 10 (w + pen)) as [[H ->] | [H ->]]; lra.
Qed.

(** A reward that is not negative keeps a weight within the bounds. *)
Lemma reward_in_range (w rew : Q) :
  w <= MAX_WEIGHT -> 0 <= rew ->
  MIN_WEIGHT <= py_max MIN_WEIGHT (w - rew) /\ py_max MIN_WEIGHT (w - rew) <= MAX_WEIGHT.
Proof.
  intros Hw Hr. unfold MIN_WEIGHT, MAX_WEIGHT in *.
  destruct (py_max_cases (1 # 100) (w - rew)) as [[H ->] | [H ->]]; lra.
Qed.

Lemma reward_of_pos (p : ProgressRecord) (e : Q) :
  (0 <= streak p)%Z -> 0 <= reward_of p e.
Proof.
  intros Hs. unfold reward_of, REWARD_CORRECT, REWARD_STREAK, REWARD_TIME.
  assert (0 <= inject_Z (streak p)) by (change 0 with (inject_Z 0); now rewrite <- Zle_Qle).
  destruct (Qltb 0 (avg_time p) && Qltb e (avg_time p))%bool; nra.
Qed.

(** ** Invariants of computations on an entry *)

Section Preservation.
Variable I : ProgressRecord -> Prop.

Lemma preserves_ret {A} (a : A) : preserves I (mret a).
Proof. intros p Hp. exact Hp. Qed.

Lemma preserves_lift {A} (r : result A) : preserves I (lift r).
Proof. intros p Hp. exact Hp. Qed.

Lemma preserves_read {A} (f : ProgressRecord -> A) : preserves I (read f).
Proof. intros p Hp. exact Hp. Qed.

Lemma preserves_update (f : ProgressRecord -> ProgressRecord) :
  (forall p, I p -> I (f p)) -> preserves I (update f).
Proof. intros Hf p Hp. simpl. auto. Qed.

Lemma preserves_bind {A B} (c : M A) (k : A -> M B) :
  preserves I c -> (forall a, preserves I (k a)) -> preserves I (c ≫= k).
Proof.
  intros Hc Hk p Hp. unfold mbind, turn_bind, bind.
  specialize (Hc p Hp). destruct (c p) as [[a | e] p']; simpl in *.
  - now apply Hk.
  - exact Hc.
Qed.
End Preservation.

Lemma bounded_penalty (pen : Q) (p : ProgressRecord) :
  0 <= pen -> bounded p -> bounded (set_weight (py_min MAX_WEIGHT (weight p + pen)) p).
Proof.
  intros Hpen [[Hlo Hhi] Hs]. split; [| exact Hs].
  unfold weight_in_range. simpl. now apply penalty_in_range.
Qed.

Lemma bounded_reward (e : Q) (p : ProgressRecord) :
  bounded p -> bounded (set_weight (py_max MIN_WEIGHT (weight p - reward_of p e)) p).
Proof.
  intros [[Hlo Hhi] Hs]. split; [| exact Hs].
  unfold weight_in_range. simpl. apply reward_in_range; [exact Hhi |].
  now apply reward_of_pos.
Qed.

Lemma grade_answer_bounded cfg answer inpt e :
  preserves bounded (grade_answer cfg answer inpt e).
Proof.
  unfold grade_answer.
  repeat first
    [ apply preserves_bind; [| intros ?]
    | apply preserves_ret | apply preserves_lift | apply preserves_read
    | match goal with |- preserves _ (if ?b then _ else _) => destruct b end
    | apply preserves_update; intros p Hp ];
    try (destruct Hp as [[? ?] ?]; split; [split |]; simpl; (assumption || lia)).
  - now apply bounded_reward.
  - apply bounded_penalty; [unfold PENALTY_INCORRECT; lra | exact Hp].
Qed.

Lemma run_quiz_for_item_bounded cfg item io :
  preserves bounded (run_quiz_for_item cfg item io).
Proof.
  unfold run_quiz_for_item.
  apply preserves_bind; [apply preserves_lift | intros answer].
  destruct (String.eqb _ "-q"); [apply preserves_ret |].
  destruct (String.eqb _ "-s").
  - repeat first
      [ apply preserves_bind; [| intros ?]
      | apply preserves_ret | apply preserves_lift
      | apply preserves_update; intros p Hp ].
    + apply bounded_penalty; [unfold PENALTY_SKIP; lra | exact Hp].
    + destruct Hp as [[? ?] ?]. split; [split |]; simpl; (assumption || lia).
    + destruct Hp as [[? ?] ?]. split; [split |]; simpl; (assumption || lia).
  - destruct (String.eqb _ "-h"); [| apply grade_answer_bounded].
    apply preserves_bind; [| intros ?; apply grade_answer_bounded].
    apply preserves_update; intros p Hp.
    apply bounded_penalty; [unfold PENALTY_HINT; lra | exact Hp].
Qed.

Lemma run_turns_bounded cfg turns p :
  bounded p -> bounded (run_turns cfg turns p).
Proof.
  revert p. induction turns as [| [item io] rest IH]; intros p Hp; simpl.
  - exact Hp.
  - apply IH. now apply run_quiz_for_item_bounded.
Qed.

(** ** What a turn computes *)

Lemma grade_answer_true cfg answer inpt e p :
  check_answer cfg inpt answer = Ok true ->
  attempts p <> (-1)%Z ->
  grade_answer cfg answer inpt e p = (Ok Correct, with_avg (after_correct e p)).
Proof.
  intros Hc Ha. unfold grade_answer. turn_unfold. rewrite Hc. simpl.
  unfold py_div. destruct (Z.eqb_spec (attempts p + 1) 0) as [E | E]; [lia |].
  reflexivity.
Qed.

Lemma grade_answer_false cfg answer inpt e p :
  check_answer cfg inpt answer = Ok false ->
  attempts p <> (-1)%Z ->
  grade_answer cfg answer inpt e p = (Ok Incorrect, with_avg (after_incorrect e p)).
Proof.
  intros Hc Ha. unfold grade_answer. turn_unfold. rewrite Hc. simpl.
  unfold py_div. destruct (Z.eqb_spec (attempts p + 1) 0) as [E | E]; [lia |].
  reflexivity.
Qed.

(** With [attempts = -1] the division raises after the entry was updated. *)
Lemma grade_answer_zero_division cfg answer inpt e p b :
  check_answer cfg inpt answer = Ok b ->
  attempts p = (-1)%Z ->
  grade_answer cfg answer inpt e p =
    (Raise ZeroDivisionError, if b then after_correct e p else after_incorrect e p).
Proof.
  intros Hc Ha. unfold grade_answer. turn_unfold. rewrite Hc.
  destruct b; simpl; unfold py_div;
    (destruct (Z.eqb_spec (attempts p + 1) 0); [reflexivity | lia]).
Qed.

Lemma is_command_false inpt :
  is_command inpt = false ->
  String.eqb inpt "-q" = false /\ String.eqb inpt "-s" = false /\
  String.eqb inpt "-h" = false.
Proof.
  unfold is_command. intros H.
  apply orb_false_iff in H as [H Hh]. apply orb_false_iff in H as [Hq Hs]. auto.
Qed.

(** An answer at the first prompt goes to the grading. *)
Lemma run_quiz_answer cfg item io answer p :
  get_quiz_item_data cfg item = Ok answer ->
  is_command (normalize (first_input io)) = false ->
  run_quiz_for_item cfg item io p =
    grade_answer cfg answer (normalize (first_input io)) (first_elapsed io) p.
Proof.
  intros Hd Hc. apply is_command_false in Hc as (Hq & Hs & Hh).
  unfold run_quiz_for_item. turn_unfold. rewrite Hd, Hq, Hs, Hh. reflexivity.
Qed.

(** After [-h] the second line goes to the grading, whatever it is. *)
Lemma run_quiz_hint cfg item io answer p :
  get_quiz_item_data cfg item = Ok answer ->
  normalize (first_input io) = "-h"%string ->
  run_quiz_for_item cfg item io p =
    grade_answer cfg answer (normalize (hint_input io))
      (first_elapsed io + hint_elapsed io) (after_hint p).
Proof.
  intros Hd Hh. unfold run_quiz_for_item. turn_unfold. rewrite Hd, Hh. reflexivity.
Qed.

Lemma answer_nonempty cfg item answer :
  get_quiz_item_data cfg item = Ok answer -> exists a0 rest, answer = a0 :: rest.
Proof.
  unfold get_quiz_item_data. intros H.
  destruct (chinese_to_english cfg).
  - destruct (pinyin item) as [[s | l] |]; [| destruct (l !! 1%nat) |];
      inversion H; eauto.
  - inversion H; eauto.
Qed.

Lemma run_quiz_skip cfg item io answer p :
  get_quiz_item_data cfg item = Ok answer ->
  normalize (first_input io) = "-s"%string ->
  run_quiz_for_item cfg item io p = (Ok Skipped, after_skip p).
Proof.
  intros Hd Hs. destruct (answer_nonempty _ _ _ Hd) as (a0 & rest & ->).
  unfold run_quiz_for_item. turn_unfold. rewrite Hd, Hs. reflexivity.
Qed.

Lemma run_quiz_quit cfg item io answer p :
  get_quiz_item_data cfg item = Ok answer ->
  normalize (first_input io) = "-q"%string ->
  run_quiz_for_item cfg item io p = (Ok Quit, p).
Proof.
  intros Hd Hq. unfold run_quiz_for_item. turn_unfold. rewrite Hd, Hq. reflexivity.
Qed.

Lemma check_answer_total cfg item answer inpt :
  get_quiz_item_data cfg item = Ok answer ->
  exists b, check_answer cfg inpt answer = Ok b.
Proof.
  intros Hd. destruct (answer_nonempty _ _ _ Hd) as (a0 & rest & ->).
  unfold check_answer. destruct (chinese_to_english cfg); eauto.
Qed.

Lemma reward_of_spec (p : ProgressRecord) (e : Q) (s : Z) :
  streak p = (s + 1)%Z -> reward_of p e == spec_reward s (avg_time p) e.
Proof.
  intros Hs. unfold reward_of, spec_reward. rewrite Hs.
  destruct (Qltb 0 (avg_time p)) eqn:E1; destruct (Qltb e (avg_time p)) eqn:E2; simpl;
    repeat match goal with
    | H : Qltb _ _ = true |- _ => apply Qltb_lt in H
    | H : Qltb _ _ = false |- _ => apply Qltb_ge in H
    end;
    destruct (Qlt_le_dec 0 (avg_time p)); try destruct (Qlt_le_dec e (avg_time p));
    lra.
Qed.

(** ** Outcome rules *)

(** What the skip path does to any entry: the penalty, the streak reset and
    the attempt; the time fields keep their values. *)
Lemma skip_outcome cfg item io answer p :
  get_quiz_item_data cfg item = Ok answer ->
  normalize (first_input io) = "-s"%string ->
  exists p',
    run_quiz_for_item cfg item io p = (Ok Skipped, p') /\
    weight p' == Qmin MAX_WEIGHT (weight p + PENALTY_SKIP) /\
    streak p' = 0%Z /\ attempts p' = (attempts p + 1)%Z /\
    correct p' = correct p /\
    total_time p' = total_time p /\ avg_time p' = avg_time p.
Proof.
  intros Hd Hs. exists (after_skip p). split; [now apply run_quiz_skip with answer |].
  simpl. split; [apply py_min_spec | auto].
Qed.

(** C1 (where the code departs from the specification): on the entry
    [{weight=5.0, streak=3, attempts=3, correct=3, total_time=6.0,
    avg_time=2.0}], [-s] typed after 1.5 s gives the status ["skipped"],
    weight 8.0, streak 0, attempts 4 and correct 3, but [total_time] stays
    6.0 instead of becoming 7.5, and [avg_time] stays 2.0, which is not
    [total_time / attempts]. *)
Theorem skip_keeps_time_stats :
  let cfg := {| chinese_to_english := true; random_mode := true |} in
  let item := {| simplified := Some "ma"%string; pinyin := Some (PinyinStr "ma3");
                 english_concise := Some "horse"%string |} in
  let io := {| first_input := "-s"; first_elapsed := 3 # 2;
               hint_input := ""; hint_elapsed := 0 |} in
  let p := {| word := "ma"; weight := 5; streak := 3%Z; avg_time := 2;
              total_time := 6; attempts := 3%Z; correct := 3%Z |} in
  let r := run_quiz_for_item cfg item io p in
  fst r = Ok Skipped /\
  weight (snd r) == 8 /\ streak (snd r) = 0%Z /\
  attempts (snd r) = 4%Z /\ correct (snd r) = 3%Z /\
  total_time (snd r) == 6 /\
  ~ total_time (snd r) == total_time p + first_elapsed io /\
  avg_time (snd r) == 2 /\
  ~ avg_time (snd r) == total_time (snd r) / inject_Z (attempts (snd r)).
Proof.
  vm_compute. repeat split; try reflexivity; discriminate.
Qed.

(** A graded answer leaves [avg_time = total_time / attempts]. *)
Lemma graded_turn_consistent cfg answer inpt e p st p' :
  grade_answer cfg answer inpt e p = (Ok st, p') ->
  avg_time p' == total_time p' / inject_Z (attempts p') /\ attempts p' <> 0%Z.
Proof.
  unfold grade_answer. turn_unfold.
  destruct (check_answer cfg inpt answer) as [[|] | ex]; simpl; unfold py_div;
    try discriminate;
    (destruct (Z.eqb_spec (attempts p + 1) 0) as [E | E]; [discriminate |]);
    intros H; inversion H; subst; simpl; split; (reflexivity || exact E).
Qed.

(** A turn that is not a skip keeps [avg_time] consistent with
    [total_time] and [attempts]. *)
Lemma turn_consistent_unless_skipped cfg item io p :
  normalize (first_input io) <> "-s"%string ->
  (0 <= attempts p)%Z -> avg_time_consistent p ->
  (0 <= attempts (snd (run_quiz_for_item cfg item io p)))%Z /\
  avg_time_consistent (snd (run_quiz_for_item cfg item io p)).
Proof.
  intros Hs Ha Hc.
  assert (Hg : forall inpt e q answer,
            get_quiz_item_data cfg item = Ok answer -> attempts q = attempts p ->
            (0 <= attempts (snd (grade_answer cfg answer inpt e q)))%Z /\
            avg_time_consistent (snd (grade_answer cfg answer inpt e q))).
  { intros inpt e q answer Hd Hq.
    destruct (check_answer_total _ _ _ inpt Hd) as [b Hb].
    assert (Hq1 : attempts q <> (-1)%Z) by lia.
    destruct b;
      [rewrite (grade_answer_true _ _ _ _ _ Hb Hq1)
      | rewrite (grade_answer_false _ _ _ _ _ Hb Hq1)];
      simpl; (split; [lia |]); split; simpl; intros; (reflexivity || lia). }
  destruct (get_quiz_item_data cfg item) as [answer | ex] eqn:Hd.
  - destruct (String.eqb_spec (normalize (first_input io)) "-q") as [Eq | Eq].
    { rewrite (run_quiz_quit _ _ _ _ _ Hd Eq). auto. }
    destruct (String.eqb_spec (normalize (first_input io)) "-h") as [Eh | Eh].
    { rewrite (run_quiz_hint _ _ _ _ _ Hd Eh). now apply Hg. }
    rewrite (run_quiz_answer _ _ _ _ _ Hd); [now apply Hg |].
    unfold is_command.
    apply String.eqb_neq in Eq, Eh, Hs. now rewrite Eq, Eh, Hs.
  - unfold run_quiz_for_item. turn_unfold. rewrite Hd. auto.
Qed.

(** C2 (where the code departs from the specification): from the default entry, a correct
    answer after 2.0 s followed by [-s] after 1.5 s leaves attempts 2,
    [total_time] 2.0 and [avg_time] 2.0, so [avg_time] is not
    [total_time / attempts] although there are attempts. *)
Theorem skip_breaks_avg_time :
  let cfg := {| chinese_to_english := true; random_mode := true |} in
  let item := {| simplified := Some "ma"%string; pinyin := Some (PinyinStr "ma3");
                 english_concise := Some "horse"%string |} in
  let answered := {| first_input := "ma3"; first_elapsed := 2;
                     hint_input := ""; hint_elapsed := 0 |} in
  let skipped := {| first_input := "-s"; first_elapsed := 3 # 2;
                    hint_input := ""; hint_elapsed := 0 |} in
  let p := run_turns cfg [(item, answered); (item, skipped)] (default_record "ma") in
  avg_time_consistent (default_record "ma") /\
  fst (run_quiz_for_item cfg item answered (default_record "ma")) = Ok Correct /\
  attempts p = 2%Z /\ total_time p == 2 /\ avg_time p == 2 /\
  ~ avg_time_consistent p.
Proof.
  cbv zeta. split; [| split; [| split; [| split; [| split]]]].
  - split; intros _; reflexivity.
  - vm_compute. reflexivity.
  - vm_compute. reflexivity.
  - vm_compute. reflexivity.
  - vm_compute. reflexivity.
  - intros [H _]. vm_compute in H. specialize (H eq_refl). discriminate.
Qed.

(** C3: from an entry whose weight lies between [MIN_WEIGHT] and
    [MAX_WEIGHT] (and whose streak is not negative, as the data model has
    it), any run of turns, whatever their outcomes (correct, incorrect,
    skipped, quit, with or without a hint), leaves the weight between
    [MIN_WEIGHT] and [MAX_WEIGHT]. *)
Theorem weight_stays_in_range cfg turns p :
  MIN_WEIGHT <= weight p -> weight p <= MAX_WEIGHT -> (0 <= streak p)%Z ->
  MIN_WEIGHT <= weight (run_turns cfg turns p) /\
  weight (run_turns cfg turns p) <= MAX_WEIGHT.
Proof.
  intros Hlo Hhi Hs.
  assert (Hb : bounded p) by (split; [split |]; assumption).
  apply (run_turns_bounded cfg turns) in Hb. exact (proj1 Hb).
Qed.

Lemma weight_stays_in_range_witness :
  let cfg := {| chinese_to_english := false; random_mode := true |} in
  let item := {| simplified := Some "ma"%string; pinyin := None;
                 english_concise := Some "horse"%string |} in
  let turn line := (item, {| first_input := line; first_elapsed := 1;
                             hint_input := "hors"; hint_elapsed := 1 |}) in
  let turns := [turn "-h"; turn "horse"; turn "cow"; turn "-s"; turn "-q"]%string in
  let p := {| word := "ma"; weight := 1 # 100; streak := 0%Z; avg_time := 0;
              total_time := 0; attempts := 0%Z; correct := 0%Z |} in
  (MIN_WEIGHT <= weight p /\ weight p <= MAX_WEIGHT /\ (0 <= streak p)%Z) /\
  MIN_WEIGHT <= weight (run_turns cfg turns p) /\
  weight (run_turns cfg turns p) <= MAX_WEIGHT.
Proof.
  cbv zeta.
  assert (H : MIN_WEIGHT <= 1 # 100 /\ 1 # 100 <= MAX_WEIGHT /\ (0 <= 0)%Z).
  { unfold MIN_WEIGHT, MAX_WEIGHT. repeat split; (lra || lia). }
  split; [exact H |].
  destruct H as (Hlo & Hhi & Hs).
  apply weight_stays_in_range; assumption.
Defined.

(** The bound on the streak is needed: a stored entry with a negative
    streak turns the reward into a penalty that is not clamped above. *)
Remark negative_streak_leaves_range :
  let cfg := {| chinese_to_english := false; random_mode := true |} in
  let item := {| simplified := Some "ma"%string; pinyin := None;
                 english_concise := Some "horse"%string |} in
  let io := {| first_input := "horse"; first_elapsed := 1;
               hint_input := ""; hint_elapsed := 0 |} in
  let p := {| word := "ma"; weight := 10; streak := (-101)%Z; avg_time := 0;
              total_time := 0; attempts := 0%Z; correct := 0%Z |} in
  MAX_WEIGHT < weight (run_turns cfg [(item, io)] p).
Proof. vm_compute. reflexivity. Qed.

(** The update of a correct answer, for the grading of any line: the one
    typed at the first prompt or the one typed after a hint. *)
Lemma grade_correct_fields cfg answer inpt e p :
  check_answer cfg inpt answer = Ok true ->
  attempts p <> (-1)%Z ->
  exists p',
    grade_answer cfg answer inpt e p = (Ok Correct, p') /\
    word p' = word p /\
    streak p' = (streak p + 1)%Z /\
    attempts p' = (attempts p + 1)%Z /\
    correct p' = (correct p + 1)%Z /\
    total_time p' == total_time p + e /\
    weight p' == Qmax MIN_WEIGHT (weight p - spec_reward (streak p) (avg_time p) e) /\
    avg_time p' == total_time p' / inject_Z (attempts p').
Proof.
  intros Hchk Ha. exists (with_avg (after_correct e p)).
  split; [now apply grade_answer_true |].
  repeat split; try reflexivity.
  simpl. rewrite py_max_spec.
  rewrite (reward_of_spec _ e (streak p)) by reflexivity. reflexivity.
Qed.

(** A correct answer after a hint: the hint penalty first, then the same
    update with the two waiting periods added. *)
Lemma correct_after_hint cfg item io answer p :
  get_quiz_item_data cfg item = Ok answer ->
  normalize (first_input io) = "-h"%string ->
  check_answer cfg (normalize (hint_input io)) answer = Ok true ->
  attempts p <> (-1)%Z ->
  let e := first_elapsed io + hint_elapsed io in
  let hinted := Qmin MAX_WEIGHT (weight p + PENALTY_HINT) in
  exists p',
    run_quiz_for_item cfg item io p = (Ok Correct, p') /\
    streak p' = (streak p + 1)%Z /\
    attempts p' = (attempts p + 1)%Z /\
    correct p' = (correct p + 1)%Z /\
    total_time p' == total_time p + e /\
    weight p' == Qmax MIN_WEIGHT (hinted - spec_reward (streak p) (avg_time p) e) /\
    avg_time p' == total_time p' / inject_Z (attempts p').
Proof.
  intros Hd Hh Hchk Ha e hinted.
  destruct (grade_correct_fields cfg answer (normalize (hint_input io)) e
              (after_hint p) Hchk Ha)
    as (p' & Hrun & _ & Hs & Hat & Hc & Ht & Hw & Hav).
  exists p'. rewrite (run_quiz_hint _ _ _ _ _ Hd Hh).
  repeat split; try assumption.
  rewrite Hw. simpl. unfold hinted. now rewrite py_min_spec.
Qed.

(** C4: a correct answer at the first prompt increments streak, attempts
    and correct, adds the elapsed time to [total_time], lowers the weight
    (not below [MIN_WEIGHT]) by the base reward plus the streak bonus on the
    incremented streak, plus the time bonus exactly when the old [avg_time]
    is positive and the answer was faster than it, and then sets [avg_time]
    to the new [total_time / attempts].  On the default entry with 2.0 s
    elapsed this gives streak 1, reward 1.25, weight 8.75, attempts 1,
    correct 1, [total_time] 2.0 and [avg_time] 2.0. *)
Theorem correct_outcome cfg item io answer p :
  get_quiz_item_data cfg item = Ok answer ->
  is_command (normalize (first_input io)) = false ->
  check_answer cfg (normalize (first_input io)) answer = Ok true ->
  attempts p <> (-1)%Z ->
  let e := first_elapsed io in
  let reward := spec_reward (streak p) (avg_time p) e in
  exists p',
    run_quiz_for_item cfg item io p = (Ok Correct, p') /\
    streak p' = (streak p + 1)%Z /\
    attempts p' = (attempts p + 1)%Z /\
    correct p' = (correct p + 1)%Z /\
    total_time p' == total_time p + e /\
    weight p' == Qmax MIN_WEIGHT (weight p - reward) /\
    avg_time p' == total_time p' / inject_Z (attempts p') /\
    (weight p == 10 -> streak p = 0%Z -> attempts p = 0%Z -> correct p = 0%Z ->
     total_time p == 0 -> avg_time p == 0 -> e == 2 ->
     streak p' = 1%Z /\ reward == 5 # 4 /\ weight p' == 35 # 4 /\
     attempts p' = 1%Z /\ correct p' = 1%Z /\
     total_time p' == 2 /\ avg_time p' == 2).
Proof.
  intros Hd Hcmd Hchk Ha e reward.
  destruct (grade_correct_fields cfg answer (normalize (first_input io)) e p Hchk Ha)
    as (p' & Hrun & _ & Hs & Hat & Hc & Ht & Hw & Hav).
  exists p'. rewrite (run_quiz_answer _ _ _ _ _ Hd Hcmd).
  repeat (split; [assumption |]).
  intros Hw10 Hs0 Ha0 Hc0 Ht0 Havg0 He2.
  assert (Hr : reward == 5 # 4).
  { unfold reward, spec_reward, REWARD_CORRECT, REWARD_STREAK, REWARD_TIME.
    rewrite Hs0. change (inject_Z (0 + 1)) with 1.
    destruct (Qlt_le_dec 0 (avg_time p)); [exfalso; lra |]. lra. }
  assert (Ht2 : total_time p' == 2) by (rewrite Ht, Ht0, He2; reflexivity).
  repeat split.
  - lia.
  - exact Hr.
  - rewrite Hw. fold reward. rewrite Hr, Hw10. reflexivity.
  - lia.
  - lia.
  - exact Ht2.
  - rewrite Hav, Ht2, Hat, Ha0. reflexivity.
Qed.

Lemma correct_outcome_witness :
  let cfg := {| chinese_to_english := true; random_mode := true |} in
  let item := {| simplified := Some "ma"%string; pinyin := Some (PinyinStr "ma3");
                 english_concise := Some "horse"%string |} in
  let io := {| first_input := " MA3 "; first_elapsed := 2;
               hint_input := ""; hint_elapsed := 0 |} in
  let p := default_record "ma" in
  exists p',
    run_quiz_for_item cfg item io p = (Ok Correct, p') /\
    streak p' = 1%Z /\ weight p' == 35 # 4 /\ attempts p' = 1%Z /\
    correct p' = 1%Z /\ total_time p' == 2 /\ avg_time p' == 2.
Proof.
  cbv zeta.
  destruct (correct_outcome
              {| chinese_to_english := true; random_mode := true |}
              {| simplified := Some "ma"%string; pinyin := Some (PinyinStr "ma3");
                 english_concise := Some "horse"%string |}
              {| first_input := " MA3 "; first_elapsed := 2;
                 hint_input := ""; hint_elapsed := 0 |}
              ["ma"; "ma3"]%string (default_record "ma")
              eq_refl eq_refl eq_refl)
    as (p' & Hrun & _ & _ & _ & _ & _ & _ & Hscen).
  { simpl. lia. }
  exists p'. split; [exact Hrun |].
  destruct Hscen as (Hs & _ & Hw & Ha & Hc & Ht & Hav);
    try reflexivity.
  repeat split; assumption.
Defined.

(** ** Lines and commands *)

Lemma lstrip_all_space s : all_space s = true -> lstrip s = EmptyString.
Proof.
  induction s as [| c s IH]; simpl; [reflexivity |].
  intros H. apply andb_true_iff in H as [Hc Hs]. rewrite Hc. auto.
Qed.

Lemma normalize_all_space s : all_space s = true -> normalize s = EmptyString.
Proof.
  intros H. unfold normalize, strip. rewrite (lstrip_all_space s H). reflexivity.
Qed.

Lemma starts_with_empty s : starts_with "" s = true.
Proof. destruct s; reflexivity. Qed.

Lemma str_contains_empty s : str_contains "" s = true.
Proof. destruct s; reflexivity. Qed.

(** C9: in the English-to-Chinese direction a line of white space only (or
    an empty line) is the empty answer, [check_answer] accepts it for every
    item, and the turn ends with the status ["correct"]. *)
Theorem empty_answer_is_correct cfg item raw :
  chinese_to_english cfg = false ->
  all_space raw = true ->
  normalize raw = ""%string /\
  exists answer,
    get_quiz_item_data cfg item = Ok answer /\
    check_answer cfg (normalize raw) answer = Ok true /\
    forall io p,
      first_input io = raw -> attempts p <> (-1)%Z ->
      fst (run_quiz_for_item cfg item io p) = Ok Correct.
Proof.
  intros Hdir Hraw. pose proof (normalize_all_space raw Hraw) as Hn.
  split; [exact Hn |].
  exists [lower (default "N/A"%string (english_concise item))].
  assert (Hd : get_quiz_item_data cfg item
               = Ok [lower (default "N/A"%string (english_concise item))]).
  { unfold get_quiz_item_data. now rewrite Hdir. }
  assert (Hc : check_answer cfg (normalize raw)
                 [lower (default "N/A"%string (english_concise item))] = Ok true).
  { unfold check_answer. rewrite Hdir, Hn. now rewrite str_contains_empty. }
  repeat split; [exact Hd | exact Hc |].
  intros io p Hio Ha. subst raw.
  rewrite (run_quiz_answer _ _ _ _ _ Hd) by (rewrite Hn; reflexivity).
  now rewrite (grade_answer_true _ _ _ _ _ Hc Ha).
Qed.

Lemma empty_answer_is_correct_witness :
  let cfg := {| chinese_to_english := false; random_mode := true |} in
  let item := {| simplified := Some "ma"%string; pinyin := None;
                 english_concise := Some "Horse"%string |} in
  let io := {| first_input := "   "; first_elapsed := 1;
               hint_input := ""; hint_elapsed := 0 |} in
  (chinese_to_english cfg = false /\ all_space (first_input io) = true) /\
  fst (run_quiz_for_item cfg item io (default_record "ma")) = Ok Correct.
Proof.
  cbv zeta. split; [split; reflexivity |].
  destruct (empty_answer_is_correct
              {| chinese_to_english := false; random_mode := true |}
              {| simplified := Some "ma"%string; pinyin := None;
                 english_concise := Some "Horse"%string |}
              "   "%string eq_refl eq_refl) as (_ & answer & _ & _ & Hrun).
  apply Hrun; [reflexivity | simpl; lia].
Defined.

(** C10: when the first line is [-h], the turn never ends as ["skipped"] or
    ["quit"]: whatever is typed at the second prompt, [-s] and [-q]
    included, is graded as an answer, and the status is ["correct"] or
    ["incorrect"] as [check_answer] decides. *)
Theorem hinted_turn_is_graded cfg item io p :
  normalize (first_input io) = "-h"%string ->
  (forall st, fst (run_quiz_for_item cfg item io p) = Ok st ->
              st = Correct \/ st = Incorrect) /\
  (forall answer,
     get_quiz_item_data cfg item = Ok answer -> attempts p <> (-1)%Z ->
     exists b,
       check_answer cfg (normalize (hint_input io)) answer = Ok b /\
       fst (run_quiz_for_item cfg item io p) = Ok (if b then Correct else Incorrect)).
Proof.
  intros Hh.
  assert (Hgraded : forall answer,
     get_quiz_item_data cfg item = Ok answer ->
     forall st, fst (run_quiz_for_item cfg item io p) = Ok st ->
     st = Correct \/ st = Incorrect).
  { intros answer Hd st. rewrite (run_quiz_hint _ _ _ _ _ Hd Hh).
    destruct (check_answer_total _ _ _ (normalize (hint_input io)) Hd) as [b Hb].
    destruct (Z.eq_dec (attempts (after_hint p)) (-1)%Z) as [E | E].
    - rewrite (grade_answer_zero_division _ _ _ _ _ b Hb E). discriminate.
    - destruct b.
      + rewrite (grade_answer_true _ _ _ _ _ Hb E). simpl. intros [= <-]. now left.
      + rewrite (grade_answer_false _ _ _ _ _ Hb E). simpl. intros [= <-]. now right. }
  split.
  - intros st. destruct (get_quiz_item_data cfg item) as [answer | ex] eqn:Hd.
    + now apply (Hgraded answer).
    + unfold run_quiz_for_item. turn_unfold. rewrite Hd. discriminate.
  - intros answer Hd Ha.
    destruct (check_answer_total _ _ _ (normalize (hint_input io)) Hd) as [b Hb].
    exists b. split; [exact Hb |].
    rewrite (run_quiz_hint _ _ _ _ _ Hd Hh).
    destruct b.
    + now rewrite (grade_answer_true _ _ _ _ (after_hint p) Hb Ha).
    + now rewrite (grade_answer_false _ _ _ _ (after_hint p) Hb Ha).
Qed.

Lemma hinted_turn_is_graded_witness :
  let cfg := {| chinese_to_english := true; random_mode := true |} in
  let item := {| simplified := Some "ma"%string; pinyin := Some (PinyinStr "ma3");
                 english_concise := Some "horse"%string |} in
  let io := {| first_input := "-h"; first_elapsed := 1;
               hint_input := "-s"; hint_elapsed := 1 |} in
  normalize (first_input io) = "-h"%string /\
  fst (run_quiz_for_item cfg item io (default_record "ma")) = Ok Incorrect.
Proof.
  cbv zeta. split; [reflexivity |].
  destruct (hinted_turn_is_graded
              {| chinese_to_english := true; random_mode := true |}
              {| simplified := Some "ma"%string; pinyin := Some (PinyinStr "ma3");
                 english_concise := Some "horse"%string |}
              {| first_input := "-h"; first_elapsed := 1;
                 hint_input := "-s"; hint_elapsed := 1 |}
              (default_record "ma") eq_refl) as [_ H].
  destruct (H ["ma"; "ma3"]%string eq_refl) as (b & Hb & Hrun).
  { simpl. lia. }
  vm_compute in Hb. injection Hb as <-. exact Hrun.
Defined.

(** ** Answer checking *)

Lemma starts_with_spec p s : starts_with p s = true <-> exists post, s = p +:+ post.
Proof.
  revert s. induction p as [| a p IH]; intros s; simpl.
  - split; [intros _; now exists s | reflexivity].
  - destruct s as [| b s]; simpl.
    + split; [discriminate | intros [post H]; discriminate].
    + rewrite andb_true_iff, Ascii.eqb_eq, IH. split.
      * intros [-> [post ->]]. now exists post.
      * intros [post H]. injection H as -> ->. split; [reflexivity | now exists post].
Qed.

Lemma str_contains_spec needle hay :
  str_contains needle hay = true <-> occurs_in needle hay.
Proof.
  unfold occurs_in. induction hay as [| c hay IH].
  - simpl. rewrite orb_false_r, starts_with_spec. split.
    + intros [post H]. now exists ""%string, post.
    + intros (pre & post & H). destruct pre; [now exists post | discriminate].
  - simpl. rewrite orb_true_iff, (starts_with_spec needle (String c hay)), IH. split.
    + intros [[post H] | (pre & post & H)].
      * now exists ""%string, post.
      * exists (String c pre), post. simpl. now rewrite H.
    + intros (pre & post & H). destruct pre as [| c' pre]; simpl in H.
      * left. now exists post.
      * right. injection H as -> ->. now exists pre, post.
Qed.

Lemma list_contains_spec x (l : list string) : list_contains x l = true <-> x ∈ l.
Proof.
  unfold list_contains. rewrite existsb_exists, list_elem_of_In. split.
  - intros (y & Hy & E). apply String.eqb_eq in E. now subst.
  - intros H. exists x. split; [exact H | apply String.eqb_refl].
Qed.

Lemma lower_char_idem c : lower_char (lower_char c) = lower_char c.
Proof. destruct c as [[] [] [] [] [] [] [] []]; reflexivity. Qed.

Lemma lower_idem s : lower (lower s) = lower s.
Proof. induction s as [| c s IH]; simpl; [| rewrite lower_char_idem, IH]; reflexivity. Qed.

(** The answers of an item are in lower case. *)
Lemma answers_lower cfg item answer a :
  get_quiz_item_data cfg item = Ok answer -> a ∈ answer -> lower a = a.
Proof.
  unfold get_quiz_item_data. intros H Ha.
  destruct (chinese_to_english cfg);
    [destruct (pinyin item) as [[s | l] |]; [| destruct (l !! 1%nat) |] |];
    inversion H; subst; clear H;
    repeat (apply elem_of_cons in Ha as [-> | Ha]); try apply lower_idem;
    try reflexivity; try (now apply elem_of_nil in Ha).
Qed.

(** C6: the two directions check differently.  From Chinese to English
    the normalized line is correct exactly when it equals one of the
    accepted answers, which are lower-cased; from English to Chinese there
    is one accepted answer, the lower-cased concise translation, and the
    line is correct exactly when it occurs in it.  For a line that is not
    a command this check decides the status of the turn. *)
Theorem answer_check_by_direction cfg item answer inpt :
  get_quiz_item_data cfg item = Ok answer ->
  exists b,
    check_answer cfg inpt answer = Ok b /\
    (chinese_to_english cfg = true ->
       (b = true <-> inpt ∈ answer) /\ (forall a, a ∈ answer -> lower a = a)) /\
    (chinese_to_english cfg = false ->
       answer = [lower (default "N/A"%string (english_concise item))] /\
       (b = true <-> occurs_in inpt (lower (default "N/A"%string (english_concise item))))) /\
    (forall io p,
       normalize (first_input io) = inpt -> is_command inpt = false ->
       attempts p <> (-1)%Z ->
       fst (run_quiz_for_item cfg item io p) = Ok (if b then Correct else Incorrect)).
Proof.
  intros Hd. destruct (check_answer_total _ _ _ inpt Hd) as [b Hb].
  exists b. split; [exact Hb |]. split; [| split].
  - intros Hdir. split; [| intros a; now apply (answers_lower cfg item)].
    unfold check_answer in Hb. rewrite Hdir in Hb. injection Hb as <-.
    apply list_contains_spec.
  - intros Hdir.
    assert (Ha : answer = [lower (default "N/A"%string (english_concise item))]).
    { unfold get_quiz_item_data in Hd. rewrite Hdir in Hd. now injection Hd as <-. }
    split; [exact Ha |]. subst answer.
    unfold check_answer in Hb. rewrite Hdir in Hb. injection Hb as <-.
    apply str_contains_spec.
  - intros io p <- Hcmd Ha.
    rewrite (run_quiz_answer _ _ _ _ _ Hd Hcmd).
    destruct b.
    + now rewrite (grade_answer_true _ _ _ _ _ Hb Ha).
    + now rewrite (grade_answer_false _ _ _ _ _ Hb Ha).
Qed.

Lemma answer_check_by_direction_witness :
  let recognize := {| chinese_to_english := true; random_mode := true |} in
  let produce := {| chinese_to_english := false; random_mode := true |} in
  let item := {| simplified := Some "ma"%string;
                 pinyin := Some (PinyinList ["ma"; "Ma 3"]%string);
                 english_concise := Some "Horse"%string |} in
  (get_quiz_item_data recognize item = Ok ["ma"; "ma3"]%string /\
   get_quiz_item_data produce item = Ok ["horse"]%string) /\
  (check_answer recognize "a3" ["ma"; "ma3"]%string = Ok false /\
   "a3"%string ∉ ["ma"; "ma3"]%string) /\
  (check_answer produce "ors" ["horse"]%string = Ok true /\
   occurs_in "ors" "horse").
Proof.
  cbv zeta. split; [split; reflexivity |]. split.
  - destruct (answer_check_by_direction
                {| chinese_to_english := true; random_mode := true |}
                {| simplified := Some "ma"%string;
                   pinyin := Some (PinyinList ["ma"; "Ma 3"]%string);
                   english_concise := Some "Horse"%string |}
                ["ma"; "ma3"]%string "a3"%string eq_refl) as (b & Hb & Hrec & _).
    split; [reflexivity |].
    vm_compute in Hb. injection Hb as <-.
    destruct (Hrec eq_refl) as [Hiff _].
    intros Hin. apply Hiff in Hin. discriminate.
  - destruct (answer_check_by_direction
                {| chinese_to_english := false; random_mode := true |}
                {| simplified := Some "ma"%string;
                   pinyin := Some (PinyinList ["ma"; "Ma 3"]%string);
                   english_concise := Some "Horse"%string |}
                ["horse"]%string "ors"%string eq_refl) as (b & Hb & _ & Hprod & _).
    split; [reflexivity |].
    vm_compute in Hb. injection Hb as <-.
    destruct (Hprod eq_refl) as [_ Hiff].
    now apply Hiff.
Defined.

(** ** The merge *)

Lemma foldl_add_entry_raise (e : exn) (old_prog : list stored_entry) :
  foldl add_entry (Raise e) old_prog = Raise e.
Proof. induction old_prog as [| item rest IH]; [reflexivity | exact IH]. Qed.

(** The comprehension either meets an element that is no container and
    raises, or returns the dict in which every word resolves to the last
    entry that carries it. *)
Lemma foldl_add_entry (old_prog : list stored_entry) (m : gmap string ProgressRecord) :
  (Scalar ∈ old_prog /\ foldl add_entry (Ok m) old_prog = Raise TypeError) \/
  ((Scalar ∉ old_prog) /\
   exists m', foldl add_entry (Ok m) old_prog = Ok m' /\
              forall k, m' !! k = match last_with_word k old_prog with
                                  | Some r => Some r
                                  | None => m !! k
                                  end).
Proof.
  revert m. induction old_prog as [| item rest IH]; intros m.
  - right. split; [apply not_elem_of_nil |]. now exists m.
  - destruct item as [r | |]; cbn [foldl add_entry].
    + destruct (IH (<[word r := r]> m)) as [[Hin Hr] | (Hn & m' & Hm' & Hk)].
      * left. split; [now apply list_elem_of_further | exact Hr].
      * right. split.
        { intros Hin. apply elem_of_cons in Hin as [Hin | Hin];
            [discriminate | contradiction]. }
        exists m'. split; [exact Hm' |]. intros k. rewrite Hk. cbn [last_with_word].
        destruct (last_with_word k rest); [reflexivity |].
        rewrite lookup_insert. destruct (decide (word r = k)); reflexivity.
    + destruct (IH m) as [[Hin Hr] | (Hn & m' & Hm' & Hk)].
      * left. split; [now apply list_elem_of_further | exact Hr].
      * right. split.
        { intros Hin. apply elem_of_cons in Hin as [Hin | Hin];
            [discriminate | contradiction]. }
        exists m'. split; [exact Hm' |]. intros k. rewrite Hk. cbn [last_with_word].
        now destruct (last_with_word k rest).
    + left. split; [apply list_elem_of_here | apply foldl_add_entry_raise].
Qed.

Lemma old_prog_map_cases old_prog :
  (Scalar ∈ old_prog /\ old_prog_map old_prog = Raise TypeError) \/
  ((Scalar ∉ old_prog) /\
   exists m, old_prog_map old_prog = Ok m /\
             forall k, m !! k = last_with_word k old_prog).
Proof.
  unfold old_prog_map.
  destruct (foldl_add_entry old_prog ∅) as [H | (Hn & m & Hm & Hk)]; [now left |].
  right. split; [exact Hn |]. exists m. split; [exact Hm |].
  intros k. rewrite Hk, lookup_empty. now destruct (last_with_word k old_prog).
Qed.

Lemma old_prog_map_lookup old_prog m k :
  old_prog_map old_prog = Ok m -> m !! k = last_with_word k old_prog.
Proof.
  intros Hm. destruct (old_prog_map_cases old_prog) as [[_ Hr] | (_ & m' & Hm' & Hk)];
    [congruence |].
  rewrite Hm in Hm'. injection Hm' as <-. apply Hk.
Qed.

Lemma last_with_word_Some k old_prog r :
  last_with_word k old_prog = Some r -> WithWord r ∈ old_prog /\ word r = k.
Proof.
  induction old_prog as [| item rest IH]; simpl; [discriminate |].
  destruct (last_with_word k rest) as [r' |].
  - intros [= ->]. destruct (IH eq_refl) as [Hin Hw].
    split; [now apply list_elem_of_further | exact Hw].
  - destruct item as [r' | |]; [| discriminate | discriminate].
    destruct (decide (word r' = k)) as [E | E]; [| discriminate].
    intros [= ->]. split; [apply list_elem_of_here | exact E].
Qed.

Lemma last_with_word_None k old_prog :
  last_with_word k old_prog = None <-> k ∉ stored_words old_prog.
Proof.
  unfold stored_words. induction old_prog as [| item rest IH]; simpl.
  - split; [intros _; apply not_elem_of_nil | reflexivity].
  - destruct (last_with_word k rest) as [r |].
    + split; [discriminate |]. intros Hn. exfalso.
      assert (Hrest : k ∉ omap (fun e => match e with
                                         | WithWord r => Some (word r)
                                         | _ => None
                                         end) rest).
      { destruct item as [r' | |]; simpl in Hn; [| exact Hn | exact Hn].
        intros Hin. apply Hn. now apply list_elem_of_further. }
      apply IH in Hrest. discriminate.
    + destruct IH as [IH _]. specialize (IH eq_refl).
      destruct item as [r' | |]; simpl; [| split; auto | split; auto].
      destruct (decide (word r' = k)) as [E | E].
      * split; [discriminate |]. intros Hn. exfalso. apply Hn.
        rewrite E. apply list_elem_of_here.
      * split; [| reflexivity]. intros _ Hin.
        apply elem_of_cons in Hin as [-> | Hin]; [now apply E | now apply IH].
Qed.

Lemma stored_words_saved (progress : list ProgressRecord) :
  stored_words (map WithWord progress) = map word progress.
Proof.
  unfold stored_words. induction progress as [| r rest IH]; simpl; [reflexivity |].
  f_equal. exact IH.
Qed.

(** Without duplicate words every saved entry is the one its word resolves to. *)
Lemma last_with_word_saved (progress : list ProgressRecord) (r : ProgressRecord) :
  NoDup (map word progress) -> r ∈ progress ->
  last_with_word (word r) (map WithWord progress) = Some r.
Proof.
  induction progress as [| a rest IH]; simpl; intros Hnd Hin.
  - now apply elem_of_nil in Hin.
  - apply NoDup_cons in Hnd as [Ha Hnd].
    apply elem_of_cons in Hin as [-> | Hin].
    + assert (E : last_with_word (word a) (map WithWord rest) = None).
      { apply last_with_word_None. now rewrite stored_words_saved. }
      rewrite E. destruct (decide (word a = word a)); [reflexivity | contradiction].
    + now rewrite (IH Hnd Hin).
Qed.

Lemma merge_item_word m w :
  (forall k r, m !! k = Some r -> word r = k) -> word (merge_item m w) = item_word w.
Proof.
  intros Hm. unfold merge_item.
  destruct (m !! item_word w) as [r |] eqn:E; [now apply Hm | reflexivity].
Qed.

(** What [load_progress] returns, when it returns. *)
Lemma load_progress_Ok fs data progress :
  load_progress fs data = Ok progress ->
  (progress = get_default_progress data /\
   (progress_file fs = None \/ progress_file fs = Some Corrupt)) \/
  (exists old_prog m,
     progress_file fs = Some (Parsed old_prog) /\ (Scalar ∉ old_prog) /\
     old_prog_map old_prog = Ok m /\ progress = map (merge_item m) data).
Proof.
  unfold load_progress.
  destruct (progress_file fs) as [[| | old_prog |] |]; try discriminate.
  - intros [= <-]. left. split; [reflexivity | now right].
  - destruct (old_prog_map_cases old_prog) as [[_ Hr] | (Hn & m & Hm & _)];
      [rewrite Hr; discriminate |].
    rewrite Hm. intros [= <-]. right. now exists old_prog, m.
  - intros [= <-]. left. split; [reflexivity | now left].
Qed.

Lemma load_progress_words fs data progress :
  load_progress fs data = Ok progress -> map word progress = map item_word data.
Proof.
  intros Hload.
  destruct (load_progress_Ok _ _ _ Hload) as [[-> _] | (old_prog & m & _ & _ & Hm & ->)].
  - unfold get_default_progress. now rewrite map_map.
  - rewrite map_map. apply map_ext. intros w. apply merge_item_word.
    intros k r Hk. rewrite (old_prog_map_lookup _ _ _ Hm) in Hk.
    now apply last_with_word_Some in Hk.
Qed.

Lemma map_lookup {A B} (f : A -> B) (l : list A) (i : nat) :
  map f l !! i = f <$> l !! i.
Proof. exact (list_lookup_fmap f l i). Qed.

(** The exceptions that leave [load_progress], and the stores that raise
    them, whatever the vocabulary list. *)
Lemma load_progress_raises fs data e :
  load_progress fs data = Raise e <->
  (progress_file fs = Some Undecodable /\ e = UnicodeDecodeError) \/
  (progress_file fs = Some ParsedScalar /\ e = TypeError) \/
  (exists old_prog,
     progress_file fs = Some (Parsed old_prog) /\ Scalar ∈ old_prog /\ e = TypeError).
Proof.
  unfold load_progress.
  destruct (progress_file fs) as [[| | old_prog |] |].
  - split; [discriminate |].
    intros [[H _] | [[H _] | (l & H & _)]]; discriminate.
  - split; [intros [= <-]; now left |]. intros [[_ ->] | [[H _] | (l & H & _)]];
      [reflexivity | discriminate | discriminate].
  - destruct (old_prog_map_cases old_prog) as [[Hin Hr] | (Hn & m & Hm & _)].
    + rewrite Hr. split.
      * intros [= <-]. right. right. now exists old_prog.
      * intros [[H _] | [[H _] | (l & H & _ & ->)]];
          [discriminate | discriminate | reflexivity].
    + rewrite Hm. split; [discriminate |].
      intros [[H _] | [[H _] | (l & [= <-] & Hin & _)]];
        [discriminate | discriminate | contradiction].
  - split; [intros [= <-]; right; now left |].
    intros [[H _] | [[_ ->] | (l & H & _)]]; [discriminate | reflexivity | discriminate].
  - split; [discriminate |].
    intros [[H _] | [[H _] | (l & H & _)]]; discriminate.
Qed.

(** The merge, for a store that can be loaded: one entry per vocabulary
    item, in the order of the list, keyed by the item's word.  When the
    prior store has an entry for the word, that stored entry is the result,
    unchanged (the last one, if the store has several); otherwise the
    result is the default entry (weight 10.0, all counters and times 0).
    No entry of a word outside the list is in the result, and a missing
    store, or one that raises an exception the [except] clause names, gives
    the default entry for every item. *)
Lemma merge_policy fs data progress :
  load_progress fs data = Ok progress ->
  length progress = length data /\
  (forall i w,
     data !! i = Some w ->
     exists r,
       progress !! i = Some r /\ word r = item_word w /\
       match progress_file fs with
       | Some (Parsed old_prog) =>
           (item_word w ∈ stored_words old_prog ->
            WithWord r ∈ old_prog /\ last_with_word (item_word w) old_prog = Some r) /\
           (item_word w ∉ stored_words old_prog ->
            r = {| word := item_word w; weight := 10; streak := 0%Z; avg_time := 0;
                   total_time := 0; attempts := 0%Z; correct := 0%Z |})
       | _ =>
           r = {| word := item_word w; weight := 10; streak := 0%Z; avg_time := 0;
                  total_time := 0; attempts := 0%Z; correct := 0%Z |}
       end) /\
  (forall r, r ∈ progress -> word r ∈ map item_word data).
Proof.
  intros Hload. split; [| split].
  - rewrite <- (length_map word), (load_progress_words _ _ _ Hload). apply length_map.
  - intros i w Hi.
    destruct (load_progress_Ok _ _ _ Hload)
      as [[-> Hfile] | (old_prog & m & Hfile & _ & Hm & ->)].
    + exists (default_record (item_word w)). unfold get_default_progress.
      rewrite map_lookup, Hi. split; [reflexivity |]. split; [reflexivity |].
      destruct Hfile as [-> | ->]; reflexivity.
    + exists (merge_item m w). rewrite Hfile, map_lookup, Hi. split; [reflexivity |].
      unfold merge_item. rewrite (old_prog_map_lookup _ _ _ Hm).
      destruct (last_with_word (item_word w) old_prog) as [r |] eqn:E.
      * destruct (last_with_word_Some _ _ _ E) as [Hin Hw].
        split; [exact Hw |]. split; [auto |].
        intros Hn. apply last_with_word_None in Hn. congruence.
      * split; [reflexivity |]. split; [| reflexivity].
        intros Hin. apply last_with_word_None in E. contradiction.
  - intros r Hr. rewrite <- (load_progress_words _ _ _ Hload).
    apply list_elem_of_In, in_map, list_elem_of_In, Hr.
Qed.

Example merge_policy_example :
  let kept := {| word := "ma"; weight := 5 # 2; streak := 2%Z; avg_time := 3;
                 total_time := 12; attempts := 4%Z; correct := 3%Z |} in
  let gone := {| word := "niu"; weight := 7; streak := 0%Z; avg_time := 1;
                 total_time := 1; attempts := 1%Z; correct := 0%Z |} in
  let fs := {| progress_file := Some (Parsed [WithWord gone; WithoutWord; WithWord kept]);
               writable := true |} in
  let item w := {| simplified := Some w; pinyin := None; english_concise := None |} in
  load_progress fs [item "yang"; item "ma"]%string = Ok [default_record "yang"; kept].
Proof. vm_compute. reflexivity. Qed.

(** C5: the recovery that [load_progress] attempts misses cases.  A store
    whose text is not JSON is caught and gives the default entries, with
    the message that the progress file could not be read; a store whose
    bytes are not UTF-8 raises [UnicodeDecodeError], and a store that holds
    JSON but no list of objects raises [TypeError]: the [except] clause
    names neither, no entry is returned, and [main] ends with the exception
    uncaught, leaving the file as it was. *)
Theorem undecodable_store_raises :
  let item := {| simplified := Some "ma"%string; pinyin := Some (PinyinStr "ma3");
                 english_concise := Some "horse"%string |} in
  let fs content := {| progress_file := Some content; writable := true |} in
  load_progress (fs Corrupt) [item] = Ok [default_record "ma"] /\
  load_progress (fs Undecodable) [item] = Raise UnicodeDecodeError /\
  load_progress (fs ParsedScalar) [item] = Raise TypeError /\
  load_progress (fs (Parsed [WithoutWord; Scalar])) [item] = Raise TypeError /\
  let r := main (fs Undecodable) (Some [item]) [""]%string [] 0 in
  ending_of r = Uncaught (QuizError UnicodeDecodeError) /\
  final_fs r = fs Undecodable /\ last_progress r = None /\ shown r = None.
Proof. cbv zeta. repeat split. Qed.

(** ** Saving and loading *)

Lemma merge_saved (m : gmap string ProgressRecord) data progress :
  map word progress = map item_word data ->
  (forall r, r ∈ progress -> m !! word r = Some r) ->
  map (merge_item m) data = progress.
Proof.
  revert progress. induction data as [| w data IH]; intros [| r progress] Hal Hm;
    simpl in *; try discriminate; [reflexivity |].
  injection Hal as Hw Hal. f_equal.
  - unfold merge_item. rewrite <- Hw, (Hm r); [reflexivity | apply list_elem_of_here].
  - apply IH; [exact Hal |]. intros r' Hr'. apply Hm. now apply list_elem_of_further.
Qed.

Lemma not_Scalar_saved (progress : list ProgressRecord) :
  Scalar ∉ map WithWord progress.
Proof.
  intros Hin. apply list_elem_of_In, in_map_iff in Hin as (r & Hr & _). discriminate.
Qed.

(** What was saved can be loaded: the dict is built from the saved
    entries. *)
Lemma load_progress_saved fs progress data :
  writable fs = true ->
  exists m,
    load_progress (save_progress progress fs) data = Ok (map (merge_item m) data) /\
    forall k, m !! k = last_with_word k (map WithWord progress).
Proof.
  intros Hw. unfold save_progress. rewrite Hw. unfold load_progress.
  cbn [progress_file].
  destruct (old_prog_map_cases (map WithWord progress)) as [[Hin _] | (_ & m & Hm & Hk)].
  - now apply not_Scalar_saved in Hin.
  - rewrite Hm. now exists m.
Qed.


(** C7: when the write succeeds, a progress set that is valid for the
    vocabulary list (aligned with it, no word twice) is read back from the
    store as it was saved, whatever bytes its words hold. *)
Theorem save_load_round_trip fs data progress :
  writable fs = true ->
  valid_progress_set data progress ->
  load_progress (save_progress progress fs) data = Ok progress.
Proof.
  intros Hw [Hal Hnd].
  destruct (load_progress_saved fs progress data Hw) as (m & -> & Hm). f_equal.
  apply merge_saved; [exact Hal |].
  intros r Hr. rewrite Hm. now apply last_with_word_saved.
Qed.

Lemma save_load_round_trip_witness :
  let fs := {| progress_file := Some Corrupt; writable := true |} in
  let item w := {| simplified := Some w; pinyin := None; english_concise := None |} in
  let data := [item "马"; item "你好"]%string in
  let progress :=
    [ {| word := "马"; weight := 5 # 2; streak := 2%Z; avg_time := 3;
         total_time := 12; attempts := 4%Z; correct := 3%Z |};
      {| word := "你好"; weight := 10; streak := 0%Z; avg_time := 0;
         total_time := 0; attempts := 0%Z; correct := 0%Z |} ] in
  (writable fs = true /\ valid_progress_set data progress) /\
  load_progress (save_progress progress fs) data = Ok progress.
Proof.
  cbv zeta.
  assert (Hv : valid_progress_set
    [ {| simplified := Some "马"%string; pinyin := None; english_concise := None |};
      {| simplified := Some "你好"%string; pinyin := None; english_concise := None |} ]
    [ {| word := "马"; weight := 5 # 2; streak := 2%Z; avg_time := 3;
         total_time := 12; attempts := 4%Z; correct := 3%Z |};
      {| word := "你好"; weight := 10; streak := 0%Z; avg_time := 0;
         total_time := 0; attempts := 0%Z; correct := 0%Z |} ]).
  { split; [reflexivity |]. simpl.
    apply NoDup_cons. split.
    - intros Hin. apply elem_of_cons in Hin as [Hin | Hin]; [discriminate |].
      now apply elem_of_nil in Hin.
    - apply NoDup_cons. split; [apply not_elem_of_nil | apply NoDup_nil_2]. }
  split; [split; [reflexivity | exact Hv] |].
  apply save_load_round_trip; [reflexivity | exact Hv].
Defined.

(** Both conditions are needed: with a word twice in the set, both places
    read back the later entry; when the write fails, what is read back is
    what the old store gives. *)
Remark round_trip_needs_unique_words :
  let item := {| simplified := Some "ma"%string; pinyin := None; english_concise := None |} in
  let first := {| word := "ma"; weight := 5; streak := 0%Z; avg_time := 1;
                  total_time := 1; attempts := 1%Z; correct := 0%Z |} in
  let progress := [first; default_record "ma"] in
  let fs := {| progress_file := None; writable := true |} in
  load_progress (save_progress progress fs) [item; item]
  = Ok [default_record "ma"; default_record "ma"].
Proof. vm_compute. reflexivity. Qed.

Remark round_trip_needs_write :
  let item := {| simplified := Some "ma"%string; pinyin := None; english_concise := None |} in
  let progress := [ {| word := "ma"; weight := 5; streak := 0%Z; avg_time := 1;
                       total_time := 1; attempts := 1%Z; correct := 0%Z |} ] in
  let fs := {| progress_file := None; writable := false |} in
  load_progress (save_progress progress fs) [item] = Ok [default_record "ma"].
Proof. reflexivity. Qed.

(** ** Selection on an empty corpus *)

Lemma accumulate_length (l : list Q) : length (accumulate l) = length l.
Proof.
  destruct l as [| x l]; simpl; [reflexivity |]. f_equal.
  generalize x. induction l as [| y l IH]; intros acc; simpl; [reflexivity |].
  now rewrite IH.
Qed.


(** Two entries with weights 10.0 and 0.01: a draw below 10/10.01 selects
    the first, a draw above it the second. *)
Example choices_skewed :
  let weights := [10; 1 # 100] in
  choices (range 2) weights (1 # 2) = Ok 0%Z /\
  choices (range 2) weights (999 # 1000) = Ok 0%Z /\
  choices (range 2) weights (9995 # 10000) = Ok 1%Z.
Proof. repeat split; reflexivity. Qed.




(** In sequential mode the empty corpus raises as well, at the modulo. *)
Remark empty_corpus_sequential cfg progress u cursor :
  random_mode cfg = false ->
  get_next_index cfg 0 progress u cursor = (Raise ZeroDivisionError, cursor).
Proof. intros Hmode. unfold get_next_index. now rewrite Hmode. Qed.

(** ** Selection on a corpus with entries *)

Lemma bisect_loop_range fuel (a : list Q) x lo hi :
  (hi - lo <= fuel)%nat -> (lo <= hi)%nat -> (hi <= length a)%nat ->
  exists i, bisect_loop fuel a x lo hi = Ok i /\ (lo <= i <= hi)%nat.
Proof.
  revert lo hi. induction fuel as [| fuel IH]; intros lo hi Hf Hle Hlen;
    cbn [bisect_loop].
  - exists lo. split; [reflexivity | lia].
  - destruct (Nat.ltb_spec lo hi) as [Hlt | Hge]; [| exists lo; split; [reflexivity | lia]].
    pose proof (Nat.div_mod_eq (lo + hi) 2) as Hdiv.
    pose proof (Nat.mod_upper_bound (lo + hi) 2 ltac:(lia)) as Hmod.
    set (mid := Nat.div (lo + hi) 2) in *.
    assert (Hmid : (lo <= mid < hi)%nat) by lia.
    destruct (lookup_lt_is_Some_2 a mid ltac:(lia)) as [a_mid Ha]. rewrite Ha.
    destruct (Qltb x a_mid).
    + destruct (IH lo mid) as (i & Hi & Hr); [lia .. |]. exists i. split; [exact Hi | lia].
    + destruct (IH (mid + 1)%nat hi) as (i & Hi & Hr); [lia .. |].
      exists i. split; [exact Hi | lia].
Qed.

Lemma range_lookup (n : Z) (i : nat) :
  (i < Z.to_nat n)%nat -> range n !! i = Some (Z.of_nat i).
Proof.
  intros Hi. unfold range. rewrite map_lookup, lookup_seq_lt by exact Hi. reflexivity.
Qed.

(** With as many weights as entries and a positive total, the selection
    returns an index of the corpus. *)
Lemma choices_in_range (n : Z) (weights : list Q) (u total : Q) :
  length weights = Z.to_nat n ->
  last (accumulate weights) = Some total -> 0 < total ->
  exists i, choices (range n) weights u = Ok i /\ (0 <= i < n)%Z.
Proof.
  intros Hlen Hlast Hpos. unfold choices.
  assert (Hn : length (range n) = Z.to_nat n).
  { unfold range. now rewrite length_map, length_seq. }
  rewrite Hn, accumulate_length, Hlen, Nat.eqb_refl, Hlast. simpl.
  destruct (Qle_bool total 0) eqn:E; [apply Qle_bool_iff in E; lra |].
  assert (Hne : (0 < Z.to_nat n)%nat).
  { destruct weights; [discriminate |]. simpl in Hlen. lia. }
  destruct (bisect_loop_range (Z.to_nat n - 1 - 0) (accumulate weights) (u * total)
              0 (Z.to_nat n - 1)) as (i & Hi & Hr);
    [lia | lia | rewrite accumulate_length; lia |].
  unfold bisect. rewrite Hi, range_lookup by lia.
  exists (Z.of_nat i). split; [reflexivity | lia].
Qed.

(** * Further properties of the turn *)

(** Every way a turn can go, with the entry it leaves. *)
Lemma turn_cases cfg item io p :
  (exists ex, get_quiz_item_data cfg item = Raise ex /\
              run_quiz_for_item cfg item io p = (Raise ex, p)) \/
  (exists answer,
     get_quiz_item_data cfg item = Ok answer /\
     ((normalize (first_input io) = "-q"%string /\
       run_quiz_for_item cfg item io p = (Ok Quit, p)) \/
      (normalize (first_input io) = "-s"%string /\
       run_quiz_for_item cfg item io p = (Ok Skipped, after_skip p)) \/
      (normalize (first_input io) <> "-q"%string /\
       normalize (first_input io) <> "-s"%string /\
       exists b,
         check_answer cfg (graded_line io) answer = Ok b /\
         let q := graded_entry io p in
         let e := graded_time io in
         let q' := if b then after_correct e q else after_incorrect e q in
         run_quiz_for_item cfg item io p =
           if Z.eqb (attempts p) (-1)
           then (Raise ZeroDivisionError, q')
           else (Ok (if b then Correct else Incorrect), with_avg q')))).
Proof.
  destruct (get_quiz_item_data cfg item) as [answer | ex] eqn:Hd.
  2: { left. exists ex. split; [reflexivity |].
       unfold run_quiz_for_item. turn_unfold. now rewrite Hd. }
  right. exists answer. split; [reflexivity |].
  destruct (String.eqb_spec (normalize (first_input io)) "-q") as [Eq | Eq].
  { left. split; [exact Eq | now apply run_quiz_quit with answer]. }
  destruct (String.eqb_spec (normalize (first_input io)) "-s") as [Es | Es].
  { right; left. split; [exact Es | now apply run_quiz_skip with answer]. }
  right; right. split; [exact Eq |]. split; [exact Es |].
  destruct (check_answer_total _ _ _ (graded_line io) Hd) as [b Hb].
  exists b. split; [exact Hb |]. cbv zeta.
  unfold graded_line, graded_time, graded_entry in *.
  destruct (String.eqb_spec (normalize (first_input io)) "-h") as [Eh | Eh].
  - rewrite (run_quiz_hint _ _ _ _ _ Hd Eh).
    destruct (Z.eqb_spec (attempts p) (-1)) as [Ea | Ea].
    + now apply grade_answer_zero_division.
    + destruct b;
        [now apply grade_answer_true | now apply grade_answer_false].
  - rewrite (run_quiz_answer _ _ _ _ _ Hd).
    2: { unfold is_command. apply String.eqb_neq in Eq, Es, Eh.
         now rewrite Eq, Es, Eh. }
    destruct (Z.eqb_spec (attempts p) (-1)) as [Ea | Ea].
    + now apply grade_answer_zero_division.
    + destruct b;
        [now apply grade_answer_true | now apply grade_answer_false].
Qed.

Lemma run_quiz_for_item_counters cfg item io :
  preserves counters_ordered (run_quiz_for_item cfg item io).
Proof.
  intros p (Hs & Hc & Ha).
  destruct (turn_cases cfg item io p)
    as [(ex & _ & ->) | (answer & _ & [[_ ->] | [[_ ->] | (_ & _ & b & _ & Hrun)]])];
    simpl; try (repeat split; simpl; lia).
  cbv zeta in Hrun. rewrite Hrun. unfold graded_entry.
  destruct (Z.eqb (attempts p) (-1)), b,
    (String.eqb (normalize (first_input io)) "-h");
    repeat split; simpl; lia.
Qed.

(** X1: an entry whose counters are ordered, [0 <= streak <= correct <=
    attempts], keeps them ordered through any run of turns, whatever their
    outcomes; the default entry is such an entry. *)
Theorem counters_stay_ordered cfg turns p :
  counters_ordered p ->
  let p' := run_turns cfg turns p in
  (0 <= streak p')%Z /\ (streak p' <= correct p')%Z /\ (correct p' <= attempts p')%Z.
Proof.
  revert p. induction turns as [| [item io] rest IH]; intros p Hp; simpl.
  - exact Hp.
  - apply IH. now apply run_quiz_for_item_counters.
Qed.

Lemma counters_stay_ordered_witness :
  let cfg := {| chinese_to_english := false; random_mode := true |} in
  let item := {| simplified := Some "ma"%string; pinyin := None;
                 english_concise := Some "horse"%string |} in
  let turn line := (item, {| first_input := line; first_elapsed := 1;
                             hint_input := "cow"; hint_elapsed := 1 |}) in
  let turns := [turn "horse"; turn "-s"; turn "-h"; turn "hors"]%string in
  counters_ordered (default_record "ma") /\
  counters_ordered (run_turns cfg turns (default_record "ma")).
Proof.
  cbv zeta.
  assert (H : counters_ordered (default_record "ma")) by (repeat split; simpl; lia).
  split; [exact H |]. now apply counters_stay_ordered.
Defined.

Lemma reward_of_bounds (p : ProgressRecord) (e : Q) :
  1 + (1 # 4) * inject_Z (streak p) <= reward_of p e /\
  reward_of p e <= 1 + (1 # 4) * inject_Z (streak p) + (1 # 2).
Proof.
  unfold reward_of, REWARD_CORRECT, REWARD_STREAK, REWARD_TIME.
  destruct (Qltb 0 (avg_time p) && Qltb e (avg_time p))%bool; split; lra.
Qed.

Lemma inject_Z_nonneg (z : Z) : (0 <= z)%Z -> 0 <= inject_Z z.
Proof. intros H. change 0 with (inject_Z 0). now rewrite <- Zle_Qle. Qed.

Lemma inject_Z_succ (z : Z) : inject_Z (z + 1) == inject_Z z + 1.
Proof. rewrite inject_Z_plus. reflexivity. Qed.

Lemma turn_step_facts cfg item io p :
  let p' := snd (run_quiz_for_item cfg item io p) in
  word p' = word p /\
  (attempts p <= attempts p')%Z /\ (attempts p' <= attempts p + 1)%Z /\
  (0 <= first_elapsed io -> 0 <= hint_elapsed io -> total_time p <= total_time p').
Proof.
  cbv zeta.
  destruct (turn_cases cfg item io p)
    as [(ex & _ & ->) | (answer & _ & [[_ ->] | [[_ ->] | (_ & _ & b & _ & Hrun)]])];
    simpl; try (repeat split; try lia; intros; lra).
  cbv zeta in Hrun. rewrite Hrun. unfold graded_entry, graded_time.
  destruct (Z.eqb (attempts p) (-1)), b,
    (String.eqb (normalize (first_input io)) "-h");
    simpl; repeat split; try lia; intros; lra.
Qed.

(** X2: a run of turns never changes the word of an entry, never lowers
    [attempts] and raises it by at most one per turn; when no waiting
    period is negative it never lowers [total_time]. *)
Theorem turns_keep_word_and_count cfg turns p :
  let p' := run_turns cfg turns p in
  word p' = word p /\
  (attempts p <= attempts p')%Z /\
  (attempts p' <= attempts p + Z.of_nat (length turns))%Z /\
  (Forall waits_nonneg turns -> total_time p <= total_time p').
Proof.
  cbv zeta. revert p. induction turns as [| [item io] rest IH]; intros p.
  - simpl. repeat split; try lia. intros _. lra.
  - cbn [run_turns length].
    destruct (IH (snd (run_quiz_for_item cfg item io p))) as (Hw & Hlo & Hhi & Ht).
    destruct (turn_step_facts cfg item io p) as (Hw1 & Hlo1 & Hhi1 & Ht1).
    repeat split; try congruence; try lia.
    intros Hall. apply Forall_cons in Hall as [[H1 H2] Hall].
    specialize (Ht Hall). specialize (Ht1 H1 H2). lra.
Qed.

Lemma turns_keep_word_and_count_witness :
  let cfg := {| chinese_to_english := false; random_mode := true |} in
  let item := {| simplified := Some "ma"%string; pinyin := None;
                 english_concise := Some "horse"%string |} in
  let turn line := (item, {| first_input := line; first_elapsed := 3 # 2;
                             hint_input := "cow"; hint_elapsed := 1 |}) in
  let turns := [turn "horse"; turn "-q"; turn "-h"]%string in
  let p' := run_turns cfg turns (default_record "ma") in
  Forall waits_nonneg turns /\
  word p' = "ma"%string /\ (attempts p' <= 3)%Z /\ 0 <= total_time p'.
Proof.
  cbv beta zeta.
  match goal with
  | |- Forall _ ?ts /\ _ =>
      assert (Hall : Forall waits_nonneg ts) by (repeat constructor; simpl; lra);
      destruct (turns_keep_word_and_count
                  {| chinese_to_english := false; random_mode := true |} ts
                  (default_record "ma")) as (Hw & _ & Hhi & Ht)
  end.
  split; [exact Hall |].
  split; [exact Hw |]. split; [exact Hhi |]. exact (Ht Hall).
Defined.

(** X3: a line that is graded and not accepted gives the status
    ["incorrect"]: the streak is reset, attempts is incremented, correct is
    kept, the counted time is added to [total_time], [avg_time] becomes
    [total_time / attempts], and the weight rises by 4.0, or by 5.5 when a
    hint was taken, but not above [MAX_WEIGHT]; from weight 0.01 without a
    hint the weight becomes 4.01. *)
Theorem incorrect_outcome cfg item io answer p :
  get_quiz_item_data cfg item = Ok answer ->
  normalize (first_input io) <> "-q"%string ->
  normalize (first_input io) <> "-s"%string ->
  check_answer cfg (graded_line io) answer = Ok false ->
  attempts p <> (-1)%Z ->
  let hinted := String.eqb (normalize (first_input io)) "-h" in
  exists p',
    run_quiz_for_item cfg item io p = (Ok Incorrect, p') /\
    streak p' = 0%Z /\
    attempts p' = (attempts p + 1)%Z /\
    correct p' = correct p /\
    total_time p' == total_time p + graded_time io /\
    weight p' == Qmin MAX_WEIGHT (weight p + (if hinted then 11 # 2 else 4)) /\
    avg_time p' == total_time p' / inject_Z (attempts p') /\
    (hinted = false -> weight p == 1 # 100 -> weight p' == 401 # 100).
Proof.
  intros Hd Hq Hs Hchk Ha hinted.
  destruct (turn_cases cfg item io p)
    as [(ex & Hex & _) | (answer' & Hd' & [[E _] | [[E _] | (_ & _ & b & Hb & Hrun)]])];
    try congruence.
  assert (answer' = answer) by congruence. subst answer'.
  assert (b = false) by congruence. subst b.
  cbv zeta in Hrun. apply Z.eqb_neq in Ha. rewrite Ha in Hrun.
  assert (Hclamp : forall w,
            py_min MAX_WEIGHT (w + PENALTY_INCORRECT) == Qmin MAX_WEIGHT (w + 4) /\
            py_min MAX_WEIGHT (py_min MAX_WEIGHT (w + PENALTY_HINT) + PENALTY_INCORRECT)
            == Qmin MAX_WEIGHT (w + (11 # 2))).
  { intros w. unfold MAX_WEIGHT, PENALTY_HINT, PENALTY_INCORRECT.
    split;
      repeat match goal with
      | |- context [py_min ?a ?b] =>
          let H := fresh in let E := fresh in
          destruct (py_min_cases a b) as [[H E] | [H E]]; rewrite E in *; clear E
      | _ : context [py_min ?a ?b] |- _ =>
          let H := fresh in let E := fresh in
          destruct (py_min_cases a b) as [[H E] | [H E]]; rewrite E in *; clear E
      end;
      match goal with
      | |- _ == Qmin ?a ?b => destruct (Q.min_spec a b) as [[? ->] | [? ->]]
      end; lra. }
  unfold graded_entry, graded_time in Hrun. subst hinted.
  unfold graded_time.
  destruct (String.eqb (normalize (first_input io)) "-h");
    (eexists; split; [exact Hrun |]); simpl;
    repeat (split; [reflexivity |]).
  - split; [apply Hclamp |]. split; [reflexivity | discriminate].
  - split; [apply Hclamp |]. split; [reflexivity |].
    intros _ Hw0. rewrite (proj1 (Hclamp (weight p))), Hw0. reflexivity.
Qed.

Lemma incorrect_outcome_witness :
  let cfg := {| chinese_to_english := true; random_mode := true |} in
  let item := {| simplified := Some "ma"%string; pinyin := Some (PinyinStr "ma3");
                 english_concise := Some "horse"%string |} in
  let io := {| first_input := "niu2"; first_elapsed := 2;
               hint_input := ""; hint_elapsed := 0 |} in
  let p := {| word := "ma"; weight := 1 # 100; streak := 4%Z; avg_time := 1;
              total_time := 4; attempts := 4%Z; correct := 4%Z |} in
  exists p',
    run_quiz_for_item cfg item io p = (Ok Incorrect, p') /\
    streak p' = 0%Z /\ weight p' == 401 # 100.
Proof.
  cbv zeta.
  destruct (incorrect_outcome
              {| chinese_to_english := true; random_mode := true |}
              {| simplified := Some "ma"%string; pinyin := Some (PinyinStr "ma3");
                 english_concise := Some "horse"%string |}
              {| first_input := "niu2"; first_elapsed := 2;
                 hint_input := ""; hint_elapsed := 0 |}
              ["ma"; "ma3"]%string
              {| word := "ma"; weight := 1 # 100; streak := 4%Z; avg_time := 1;
                 total_time := 4; attempts := 4%Z; correct := 4%Z |}
              eq_refl)
    as (p' & Hrun & Hs & _ & _ & _ & _ & _ & Hscen);
    [discriminate | discriminate | reflexivity | simpl; lia |].
  exists p'. split; [exact Hrun |]. split; [exact Hs |].
  apply Hscen; reflexivity.
Defined.

(** X4: a correct answer after a hint does not always lower the weight.
    On the first correct answer of a streak, without the time bonus, the
    hint penalty 1.5 outweighs the reward 1.25: the weight ends 0.25 above
    where it was before the turn (as long as the penalty stays under
    [MAX_WEIGHT]). *)
Theorem hinted_correct_raises_weight cfg item io answer p :
  get_quiz_item_data cfg item = Ok answer ->
  normalize (first_input io) = "-h"%string ->
  check_answer cfg (normalize (hint_input io)) answer = Ok true ->
  attempts p <> (-1)%Z ->
  streak p = 0%Z ->
  avg_time p <= 0 \/ avg_time p <= first_elapsed io + hint_elapsed io ->
  MIN_WEIGHT <= weight p -> weight p + (3 # 2) <= MAX_WEIGHT ->
  exists p',
    run_quiz_for_item cfg item io p = (Ok Correct, p') /\
    streak p' = 1%Z /\
    weight p' == weight p + (1 # 4).
Proof.
  intros Hd Hh Hchk Ha Hs Hbonus Hlo Hhi.
  destruct (correct_after_hint cfg item io answer p Hd Hh Hchk Ha)
    as (p' & Hrun & Hs' & _ & _ & _ & Hw & _).
  exists p'. split; [exact Hrun |]. split; [lia |].
  rewrite Hw. unfold spec_reward, REWARD_CORRECT, REWARD_STREAK, REWARD_TIME,
    PENALTY_HINT, MIN_WEIGHT, MAX_WEIGHT in *.
  rewrite Hs. change (inject_Z (0 + 1)) with 1.
  rewrite Q.min_r by lra.
  destruct (Qlt_le_dec 0 (avg_time p));
    [destruct (Qlt_le_dec (first_elapsed io + hint_elapsed io) (avg_time p)) |];
    try (exfalso; lra); rewrite Q.max_r; lra.
Qed.

Lemma hinted_correct_raises_weight_witness :
  let cfg := {| chinese_to_english := true; random_mode := true |} in
  let item := {| simplified := Some "ma"%string; pinyin := Some (PinyinStr "ma3");
                 english_concise := Some "horse"%string |} in
  let io := {| first_input := "-h"; first_elapsed := 1;
               hint_input := "ma3"; hint_elapsed := 1 |} in
  let p := {| word := "ma"; weight := 5; streak := 0%Z; avg_time := 0;
              total_time := 0; attempts := 0%Z; correct := 0%Z |} in
  exists p',
    run_quiz_for_item cfg item io p = (Ok Correct, p') /\ weight p' == 21 # 4.
Proof.
  cbv zeta.
  destruct (hinted_correct_raises_weight
              {| chinese_to_english := true; random_mode := true |}
              {| simplified := Some "ma"%string; pinyin := Some (PinyinStr "ma3");
                 english_concise := Some "horse"%string |}
              {| first_input := "-h"; first_elapsed := 1;
                 hint_input := "ma3"; hint_elapsed := 1 |}
              ["ma"; "ma3"]%string
              {| word := "ma"; weight := 5; streak := 0%Z; avg_time := 0;
                 total_time := 0; attempts := 0%Z; correct := 0%Z |}
              eq_refl eq_refl eq_refl)
    as (p' & Hrun & _ & Hw); simpl;
    [lia | reflexivity | left; lra | unfold MIN_WEIGHT; lra
    | unfold MAX_WEIGHT; lra |].
  exists p'. split; [exact Hrun |]. rewrite Hw. reflexivity.
Defined.

(** X5: without a hint the weight moves with the outcome.  For an entry
    within the bounds and with a streak that is not negative, a correct
    answer never raises the weight and lowers it unless it is at
    [MIN_WEIGHT]; an incorrect or skipped turn never lowers it and raises
    it unless it is at [MAX_WEIGHT]; quitting leaves the whole entry as it
    was. *)
Theorem weight_moves_with_outcome cfg item io p st p' :
  MIN_WEIGHT <= weight p -> weight p <= MAX_WEIGHT -> (0 <= streak p)%Z ->
  normalize (first_input io) <> "-h"%string ->
  run_quiz_for_item cfg item io p = (Ok st, p') ->
  match st with
  | Correct => weight p' <= weight p /\ (MIN_WEIGHT < weight p -> weight p' < weight p)
  | Incorrect | Skipped =>
      weight p <= weight p' /\ (weight p < MAX_WEIGHT -> weight p < weight p')
  | Quit => p' = p
  end.
Proof.
  intros Hlo Hhi Hs Hh Hrun.
  destruct (turn_cases cfg item io p)
    as [(ex & _ & E) | (answer & _ & [[_ E] | [[_ E] | (_ & _ & b & _ & E)]])];
    cbv zeta in E; rewrite E in Hrun; clear E.
  - discriminate.
  - injection Hrun as <- <-. reflexivity.
  - injection Hrun as <- <-. simpl.
    unfold MIN_WEIGHT, MAX_WEIGHT, PENALTY_SKIP in *.
    destruct (py_min_cases 10 (weight p + 3)) as [[H ->] | [H ->]]; split; intros; lra.
  - unfold graded_entry, graded_time in Hrun.
    apply String.eqb_neq in Hh. rewrite Hh in Hrun.
    destruct (Z.eqb (attempts p) (-1)); [discriminate |].
    injection Hrun as <- <-. destruct b; simpl.
    + match goal with
      | |- context [reward_of ?q ?e] =>
          pose proof (reward_of_bounds q e) as [Hr _]; simpl in Hr;
          pose proof (inject_Z_nonneg (streak p + 1) ltac:(lia)) as Hz;
          set (r := reward_of q e) in *
      end.
      unfold MIN_WEIGHT, MAX_WEIGHT in *.
      destruct (py_max_cases (1 # 100) (weight p - r)) as [[H ->] | [H ->]];
        split; intros; lra.
    + unfold MIN_WEIGHT, MAX_WEIGHT, PENALTY_INCORRECT in *.
      destruct (py_min_cases 10 (weight p + 4)) as [[H ->] | [H ->]];
        split; intros; lra.
Qed.

Lemma weight_moves_with_outcome_witness :
  let cfg := {| chinese_to_english := true; random_mode := true |} in
  let item := {| simplified := Some "ma"%string; pinyin := Some (PinyinStr "ma3");
                 english_concise := Some "horse"%string |} in
  let io := {| first_input := "ma3"; first_elapsed := 1;
               hint_input := ""; hint_elapsed := 0 |} in
  let p := {| word := "ma"; weight := 5; streak := 2%Z; avg_time := 2;
              total_time := 4; attempts := 2%Z; correct := 2%Z |} in
  fst (run_quiz_for_item cfg item io p) = Ok Correct /\
  weight (snd (run_quiz_for_item cfg item io p)) < 5.
Proof.
  cbv zeta. split; [reflexivity |].
  refine (proj2 (weight_moves_with_outcome
            {| chinese_to_english := true; random_mode := true |}
            {| simplified := Some "ma"%string; pinyin := Some (PinyinStr "ma3");
               english_concise := Some "horse"%string |}
            {| first_input := "ma3"; first_elapsed := 1;
               hint_input := ""; hint_elapsed := 0 |}
            {| word := "ma"; weight := 5; streak := 2%Z; avg_time := 2;
               total_time := 4; attempts := 2%Z; correct := 2%Z |}
            Correct _ _ _ _ _ _) _); simpl.
  - unfold MIN_WEIGHT. lra.
  - unfold MAX_WEIGHT. lra.
  - lia.
  - discriminate.
  - reflexivity.
  - unfold MIN_WEIGHT. lra.
Defined.

(** X6: the commands decide the statuses ["quit"] and ["skipped"]: a turn
    ends as ["quit"] exactly when the item gives its answers and the first
    line is [-q] (in any letter case, with white space around), and then
    the entry is untouched; it ends as ["skipped"] exactly when the first
    line is [-s]. *)
Theorem commands_decide_quit_and_skip cfg item io p :
  (fst (run_quiz_for_item cfg item io p) = Ok Quit <->
   (exists answer, get_quiz_item_data cfg item = Ok answer) /\
   normalize (first_input io) = "-q"%string) /\
  (fst (run_quiz_for_item cfg item io p) = Ok Quit ->
   snd (run_quiz_for_item cfg item io p) = p) /\
  (fst (run_quiz_for_item cfg item io p) = Ok Skipped <->
   (exists answer, get_quiz_item_data cfg item = Ok answer) /\
   normalize (first_input io) = "-s"%string).
Proof.
  destruct (turn_cases cfg item io p)
    as [(ex & Hd & E) | (answer & Hd & [[Hc E] | [[Hc E] | (Hq & Hs & b & _ & E)]])];
    cbv zeta in E; rewrite E; simpl.
  - repeat split; try discriminate; intros [[a Ha] _]; congruence.
  - repeat split; eauto; try discriminate.
    intros [_ H]. rewrite Hc in H. discriminate.
  - repeat split; eauto; try discriminate.
    intros [_ H]. rewrite Hc in H. discriminate.
  - destruct (Z.eqb (attempts p) (-1)), b; simpl;
      repeat split; try discriminate; intros [_ H]; contradiction.
Qed.

Lemma displayed_item_data cfg item d :
  Displayed.get_quiz_item_data cfg item d
  = if (chinese_to_english cfg && negb (Displayed.is_string (Displayed.english_descriptive d)))%bool
    then Raise TypeError
    else get_quiz_item_data cfg item.
Proof.
  unfold Displayed.get_quiz_item_data.
  destruct (chinese_to_english cfg), (Displayed.is_string _); reflexivity.
Qed.

(** The turn with the fields it shows, against the turn of the typed
    item: they differ when the prompt cannot be built, and when a rejected
    answer is to be revealed and cannot be. *)
Lemma displayed_turn cfg item d io p :
  Displayed.run_quiz_for_item cfg item d io p
  = match Displayed.get_quiz_item_data cfg item d with
    | Raise ex => (Raise ex, p)
    | Ok answer =>
        if (String.eqb (normalize (first_input io)) "-q"
            || String.eqb (normalize (first_input io)) "-s")%bool
        then run_quiz_for_item cfg item io p
        else
          match check_answer cfg (graded_line io) answer with
          | Ok false =>
              if Displayed.is_object (Displayed.measure_word d)
              then run_quiz_for_item cfg item io p
              else (Raise AttributeError, counted (graded_time io) (graded_entry io p))
          | _ => run_quiz_for_item cfg item io p
          end
    end.
Proof.
  rewrite displayed_item_data.
  unfold Displayed.run_quiz_for_item, run_quiz_for_item,
    Displayed.grade_answer, grade_answer, Displayed.reveal_answer,
    graded_line, graded_time, graded_entry.
  rewrite displayed_item_data. turn_unfold.
  destruct (chinese_to_english cfg && negb _)%bool; [reflexivity |].
  destruct (get_quiz_item_data cfg item) as [answer | ex]; [| reflexivity].
  destruct (String.eqb (normalize (first_input io)) "-q"); [reflexivity |].
  destruct (String.eqb (normalize (first_input io)) "-s"); [reflexivity |].
  cbn [orb].
  destruct (String.eqb (normalize (first_input io)) "-h");
    (destruct (check_answer cfg _ answer) as [[|] | ex]; [reflexivity | | reflexivity]);
    destruct (Displayed.is_object (Displayed.measure_word d)); reflexivity.
Qed.

Lemma pinyin_short_list (l : list string) :
  l !! 1%nat = None <-> (length l < 2)%nat.
Proof. rewrite lookup_ge_None. lia. Qed.

Lemma get_quiz_item_data_raises cfg item ex :
  get_quiz_item_data cfg item = Raise ex <->
  chinese_to_english cfg = true /\ ex = AttributeError /\
  exists l, pinyin item = Some (PinyinList l) /\ (length l < 2)%nat.
Proof.
  unfold get_quiz_item_data. destruct (chinese_to_english cfg).
  - destruct (pinyin item) as [[s | l] |].
    + split; [discriminate | intros (_ & _ & l & [=] & _)].
    + destruct (l !! 1%nat) as [s |] eqn:E.
      * split; [discriminate |]. intros (_ & _ & l' & [= <-] & Hl).
        apply pinyin_short_list in Hl. congruence.
      * split.
        -- intros [= <-]. repeat split. exists l. split; [reflexivity |].
           now apply pinyin_short_list.
        -- intros (_ & -> & _). reflexivity.
    + split; [discriminate | intros (_ & _ & l & [=] & _)].
  - split; [discriminate | intros ([=] & _)].
Qed.

(** X7: the situations in which a turn raises, for an item whose answer
    fields are typed and whose two other fields that matter are as the
    file has them.
    - When both are of their type, the turn is the turn of the typed item.
    - While the prompt and the answers are built the turn raises in the
      Chinese-to-English direction only: [TypeError] when
      ["english_descriptive"] is no string, else [AttributeError] when
      [pinyin] is a list of fewer than two variants; the entry is
      untouched.
    - A graded line that is rejected raises [AttributeError] when
      ["measure_word"] is no object: the attempt and its time are counted,
      the streak, the penalty and [avg_time] are not updated.
    - Otherwise a graded line raises [ZeroDivisionError] exactly when
      [attempts] is -1.
    In every other case the turn returns a status. *)
Theorem turn_raises_iff cfg item d io p ex :
  let r := Displayed.run_quiz_for_item cfg item d io p in
  (Displayed.is_string (Displayed.english_descriptive d) = true ->
   Displayed.is_object (Displayed.measure_word d) = true ->
   r = run_quiz_for_item cfg item io p) /\
  (Displayed.get_quiz_item_data cfg item d = Raise ex <->
   chinese_to_english cfg = true /\
   ((Displayed.is_string (Displayed.english_descriptive d) = false /\ ex = TypeError) \/
    (Displayed.is_string (Displayed.english_descriptive d) = true /\
     ex = AttributeError /\
     exists l, pinyin item = Some (PinyinList l) /\ (length l < 2)%nat))) /\
  (Displayed.get_quiz_item_data cfg item d = Raise ex -> r = (Raise ex, p)) /\
  (fst r = Raise ex <->
   Displayed.get_quiz_item_data cfg item d = Raise ex \/
   exists answer b,
     Displayed.get_quiz_item_data cfg item d = Ok answer /\
     normalize (first_input io) <> "-q"%string /\
     normalize (first_input io) <> "-s"%string /\
     check_answer cfg (graded_line io) answer = Ok b /\
     ((b = false /\ Displayed.is_object (Displayed.measure_word d) = false /\
       ex = AttributeError /\
       r = (Raise AttributeError, counted (graded_time io) (graded_entry io p))) \/
      ((b = true \/ Displayed.is_object (Displayed.measure_word d) = true) /\
       attempts p = (-1)%Z /\ ex = ZeroDivisionError))).
Proof.
  cbv zeta. split; [| split; [| split]].
  - intros Hs Ho. rewrite displayed_turn, displayed_item_data, Hs, Ho.
    rewrite andb_false_r.
    destruct (get_quiz_item_data cfg item) as [answer | ex'] eqn:Hd.
    + destruct (_ || _)%bool; [reflexivity |].
      now destruct (check_answer cfg (graded_line io) answer) as [[|] | ex'].
    + unfold run_quiz_for_item. turn_unfold. now rewrite Hd.
  - rewrite displayed_item_data.
    destruct (chinese_to_english cfg) eqn:Hc;
      destruct (Displayed.is_string (Displayed.english_descriptive d)) eqn:Hs;
      cbn [andb negb].
    + rewrite get_quiz_item_data_raises, Hc. split.
      * intros (_ & -> & Hl). split; [reflexivity |]. right. now repeat split.
      * intros (_ & [[[=] _] | (_ & -> & Hl)]). now repeat split.
    + split.
      * intros [= <-]. split; [reflexivity |]. now left.
      * intros (_ & [[_ ->] | ([=] & _)]). reflexivity.
    + rewrite get_quiz_item_data_raises, Hc. split; [intros ([=] & _) | intros ([=] & _)].
    + rewrite get_quiz_item_data_raises, Hc. split; [intros ([=] & _) | intros ([=] & _)].
  - intros Hd. rewrite displayed_turn. now rewrite Hd.
  - rewrite displayed_turn.
    destruct (Displayed.get_quiz_item_data cfg item d) as [answer | ex'] eqn:Hd.
    2: { cbn [fst]. split; [intros [= <-]; now left |].
         intros [[= ->] | (a & b & [=] & _)]. reflexivity. }
    assert (Hd' : get_quiz_item_data cfg item = Ok answer).
    { rewrite displayed_item_data in Hd.
      destruct (_ && _)%bool; [discriminate | exact Hd]. }
    destruct (turn_cases cfg item io p)
      as [(ex' & Hx & _) | (answer' & Ha & [[Hq E] | [[Hsk E] | (Hq & Hsk & b & Hb & E)]])];
      [congruence | | |]; rewrite Hd' in Ha; injection Ha as <-.
    + rewrite Hq. cbn [String.eqb Ascii.eqb Bool.eqb orb]. rewrite E. cbn [fst].
      split; [discriminate |].
      intros [[=] | (a & b & _ & H & _)]. now contradiction H.
    + rewrite Hsk. cbn [String.eqb Ascii.eqb Bool.eqb orb]. rewrite E. cbn [fst].
      split; [discriminate |].
      intros [[=] | (a & b & _ & _ & H & _)]. now contradiction H.
    + apply String.eqb_neq in Hq as Hq', Hsk as Hsk'. rewrite Hq', Hsk'. cbn [orb].
      rewrite Hb. cbv zeta in E.
      assert (Hinj : forall a' b', Ok answer = Ok a' ->
                check_answer cfg (graded_line io) a' = Ok b' -> b' = b).
      { intros a' b' [= <-] Hb'. congruence. }
      destruct b; [| destruct (Displayed.is_object (Displayed.measure_word d)) eqn:Ho].
      * rewrite E. destruct (Z.eqb_spec (attempts p) (-1)) as [Ea | Ea]; cbn [fst].
        -- split.
           ++ intros [= <-]. right. exists answer, true. repeat split; try assumption.
              right. repeat split; [now left | exact Ea].
           ++ intros [[=] | (a' & b' & Ha' & _ & _ & Hb' & Hcase)].
              pose proof (Hinj _ _ Ha' Hb') as ->.
              destruct Hcase as [([=] & _) | (_ & _ & ->)]. reflexivity.
        -- split; [discriminate |].
           intros [[=] | (a' & b' & Ha' & _ & _ & Hb' & Hcase)].
           pose proof (Hinj _ _ Ha' Hb') as ->.
           destruct Hcase as [([=] & _) | (_ & Ha & _)]. contradiction.
      * rewrite E. destruct (Z.eqb_spec (attempts p) (-1)) as [Ea | Ea]; cbn [fst].
        -- split.
           ++ intros [= <-]. right. exists answer, false. repeat split; try assumption.
              right. repeat split; [now right | exact Ea].
           ++ intros [[=] | (a' & b' & Ha' & _ & _ & Hb' & Hcase)].
              destruct Hcase as [(_ & [=] & _) | (_ & _ & ->)]. reflexivity.
        -- split; [discriminate |].
           intros [[=] | (a' & b' & Ha' & _ & _ & Hb' & Hcase)].
           destruct Hcase as [(_ & [=] & _) | (_ & Ha & _)]. contradiction.
      * cbn [fst]. split.
        -- intros [= <-]. right. exists answer, false. repeat split; try assumption.
           left. repeat split.
        -- intros [[=] | (a' & b' & Ha' & _ & _ & Hb' & Hcase)].
           pose proof (Hinj _ _ Ha' Hb') as ->.
           destruct Hcase as [(_ & _ & -> & _) | ([[=] | [=]] & _)]. reflexivity.
Qed.

Lemma answered_step cfg item io b p :
  answered cfg (item, io) b -> attempts p <> (-1)%Z ->
  let e := first_elapsed io in
  snd (run_quiz_for_item cfg item io p)
  = with_avg (if b then after_correct e p else after_incorrect e p).
Proof.
  intros (answer & Hd & Hcmd & Hchk) Ha. simpl in *.
  rewrite (run_quiz_answer _ _ _ _ _ Hd Hcmd).
  destruct b;
    [now rewrite (grade_answer_true _ _ _ _ _ Hchk Ha)
    | now rewrite (grade_answer_false _ _ _ _ _ Hchk Ha)].
Qed.

(** The weight after a correct answer, between the smallest and the
    largest reward the streak allows. *)
Lemma after_correct_weight (e : Q) (p : ProgressRecord) :
  let s := inject_Z (streak p + 1) in
  weight (with_avg (after_correct e p)) <= Qmax MIN_WEIGHT (weight p - (1 + (1 # 4) * s)) /\
  weight p - ((3 # 2) + (1 # 4) * s) <= weight (with_avg (after_correct e p)).
Proof.
  cbv zeta. simpl.
  match goal with
  | |- context [reward_of ?q ?e] =>
      pose proof (reward_of_bounds q e) as [Hlo Hhi]; simpl in Hlo, Hhi;
      set (r := reward_of q e) in *
  end.
  unfold MIN_WEIGHT.
  destruct (py_max_cases (1 # 100) (weight p - r)) as [[H ->] | [H ->]];
    destruct (Q.max_spec (1 # 100) (weight p - (1 + (1 # 4) * inject_Z (streak p + 1))))
      as [[H' ->] | [H' ->]]; split; lra.
Qed.

(** X8: how the rewards and the penalty balance.  After an incorrect
    answer, three correct answers in a row bring the weight of an entry
    back to its earlier value or below, whatever the waiting periods; two
    do not when the entry started at 6.0 or less. *)
Theorem three_correct_undo_incorrect cfg wrong c1 c2 c3 p :
  MIN_WEIGHT <= weight p -> weight p <= MAX_WEIGHT -> (0 <= attempts p)%Z ->
  answered cfg wrong false ->
  answered cfg c1 true -> answered cfg c2 true -> answered cfg c3 true ->
  weight (run_turns cfg [wrong; c1; c2; c3] p) <= weight p /\
  (weight p <= 6 -> weight p < weight (run_turns cfg [wrong; c1; c2] p)).
Proof.
  intros Hlo Hhi Ha Hw0 H1 H2 H3.
  destruct wrong as [i0 io0], c1 as [i1 io1], c2 as [i2 io2], c3 as [i3 io3].
  cbn [run_turns].
  rewrite (answered_step _ _ _ _ p Hw0) by lia.
  set (p1 := with_avg (after_incorrect (first_elapsed io0) p)).
  assert (Hp1 : streak p1 = 0%Z /\ attempts p1 = (attempts p + 1)%Z /\
                weight p1 = py_min MAX_WEIGHT (weight p + PENALTY_INCORRECT))
    by (repeat split).
  destruct Hp1 as (Hs1 & Ha1 & Hw1).
  rewrite (answered_step _ _ _ _ p1 H1) by lia.
  set (p2 := with_avg (after_correct (first_elapsed io1) p1)).
  assert (Hp2 : streak p2 = (streak p1 + 1)%Z /\ attempts p2 = (attempts p1 + 1)%Z)
    by (repeat split).
  destruct Hp2 as (Hs2 & Ha2).
  pose proof (after_correct_weight (first_elapsed io1) p1) as [Hu2 Hl2].
  fold p2 in Hu2, Hl2.
  rewrite (answered_step _ _ _ _ p2 H2) by lia.
  set (p3 := with_avg (after_correct (first_elapsed io2) p2)).
  assert (Hp3 : streak p3 = (streak p2 + 1)%Z /\ attempts p3 = (attempts p2 + 1)%Z)
    by (repeat split).
  destruct Hp3 as (Hs3 & Ha3).
  pose proof (after_correct_weight (first_elapsed io2) p2) as [Hu3 Hl3].
  fold p3 in Hu3, Hl3.
  pose proof (after_correct_weight (first_elapsed io2) p2) as _.
  rewrite Hs1 in Hu2, Hl2. rewrite Hs2, Hs1 in Hu3, Hl3.
  change (inject_Z (0 + 1)) with 1 in *. change (inject_Z (0 + 1 + 1)) with 2 in *.
  unfold MIN_WEIGHT, MAX_WEIGHT, PENALTY_INCORRECT in *.
  assert (Hw1' : weight p1 <= weight p + 4 /\ weight p1 <= 10 /\
                 (weight p <= 6 -> weight p1 == weight p + 4)).
  { rewrite Hw1.
    destruct (py_min_cases 10 (weight p + 4)) as [[H ->] | [H ->]];
      repeat split; intros; lra. }
  destruct Hw1' as (Hw1a & Hw1b & Hw1c).
  split.
  - rewrite (answered_step _ _ _ _ p3 H3) by lia.
    pose proof (after_correct_weight (first_elapsed io3) p3) as [Hu4 _].
    rewrite Hs3, Hs2, Hs1 in Hu4.
    change (inject_Z (0 + 1 + 1 + 1)) with 3 in Hu4.
    unfold MIN_WEIGHT in Hu4.
    set (w4 := weight (with_avg (after_correct (first_elapsed io3) p3))) in *.
    destruct (Q.max_spec (1 # 100) (weight p1 - (1 + (1 # 4) * 1))) as [[? E2] | [? E2]];
      rewrite E2 in Hu2; clear E2;
      destruct (Q.max_spec (1 # 100) (weight p2 - (1 + (1 # 4) * 2))) as [[? E3] | [? E3]];
      rewrite E3 in Hu3; clear E3;
      destruct (Q.max_spec (1 # 100) (weight p3 - (1 + (1 # 4) * 3))) as [[? E4] | [? E4]];
      rewrite E4 in Hu4; clear E4; lra.
  - intros H6. specialize (Hw1c H6). lra.
Qed.

Lemma three_correct_undo_incorrect_witness :
  let cfg := {| chinese_to_english := true; random_mode := true |} in
  let item := {| simplified := Some "ma"%string; pinyin := Some (PinyinStr "ma3");
                 english_concise := Some "horse"%string |} in
  let turn line := (item, {| first_input := line; first_elapsed := 1;
                             hint_input := ""; hint_elapsed := 0 |}) in
  let p := {| word := "ma"; weight := 5; streak := 7%Z; avg_time := 1 # 2;
              total_time := 4; attempts := 8%Z; correct := 7%Z |} in
  weight (run_turns cfg [turn "niu2"; turn "ma3"; turn "ma"; turn "MA3"]%string p) <= 5 /\
  5 < weight (run_turns cfg [turn "niu2"; turn "ma3"; turn "ma"]%string p).
Proof.
  cbv beta zeta.
  match goal with
  | |- weight (run_turns ?cfg [?w; ?a; ?b; ?c] ?p) <= _ /\ _ =>
      destruct (three_correct_undo_incorrect cfg w a b c p) as [H4 H3];
        [ unfold MIN_WEIGHT; simpl; lra | unfold MAX_WEIGHT; simpl; lra | simpl; lia
        | eexists; repeat split; reflexivity
        | eexists; repeat split; reflexivity
        | eexists; repeat split; reflexivity
        | eexists; repeat split; reflexivity | ]
  end.
  split; [exact H4 |]. apply H3. simpl. lra.
Defined.

(** * Lines as typed *)

Lemma is_space_lower_char c : is_space (lower_char c) = is_space c.
Proof. destruct c as [[] [] [] [] [] [] [] []]; reflexivity. Qed.

Lemma lstrip_lower s : lstrip (lower s) = lower (lstrip s).
Proof.
  induction s as [| c s IH]; simpl; [reflexivity |].
  rewrite is_space_lower_char. destruct (is_space c); [exact IH | reflexivity].
Qed.

Lemma rstrip_lower s : rstrip (lower s) = lower (rstrip s).
Proof.
  induction s as [| c s IH]; simpl; [reflexivity |].
  rewrite IH, is_space_lower_char.
  destruct (rstrip s); simpl; [destruct (is_space c) |]; reflexivity.
Qed.

Lemma strip_lower s : strip (lower s) = lower (strip s).
Proof. unfold strip. now rewrite lstrip_lower, rstrip_lower. Qed.

Lemma rstrip_all_space s : all_space s = true -> rstrip s = EmptyString.
Proof.
  induction s as [| c s IH]; simpl; [reflexivity |].
  intros H. apply andb_true_iff in H as [Hc Hs]. now rewrite (IH Hs), Hc.
Qed.

Lemma rstrip_app_space s post :
  all_space post = true -> rstrip (s +:+ post) = rstrip s.
Proof.
  intros Hp. induction s as [| c s IH]; simpl.
  - now apply rstrip_all_space.
  - now rewrite IH.
Qed.

Lemma lstrip_app_space pre s :
  all_space pre = true -> lstrip (pre +:+ s) = lstrip s.
Proof.
  induction pre as [| c pre IH]; simpl; [reflexivity |].
  intros H. apply andb_true_iff in H as [Hc Hp]. rewrite Hc. auto.
Qed.

Lemma strip_app_space s post :
  all_space post = true -> strip (s +:+ post) = strip s.
Proof.
  intros Hp. unfold strip. induction s as [| c s IH].
  - change (rstrip (lstrip post) = rstrip (lstrip "")).
    now rewrite (lstrip_all_space post Hp).
  - change (rstrip (lstrip (String c (s +:+ post))) = rstrip (lstrip (String c s))).
    cbn [lstrip]. destruct (is_space c); [exact IH |].
    exact (rstrip_app_space (String c s) post Hp).
Qed.

Lemma normalize_padded pre s post :
  all_space pre = true -> all_space post = true ->
  normalize (pre +:+ s +:+ post) = normalize s.
Proof.
  intros Hpre Hpost. unfold normalize. f_equal.
  unfold strip at 1. rewrite lstrip_app_space by exact Hpre.
  exact (strip_app_space s post Hpost).
Qed.

Lemma normalize_same_letters a b : lower a = lower b -> normalize a = normalize b.
Proof.
  intros H. unfold normalize. now rewrite <- !strip_lower, H.
Qed.

(** X9: what is typed counts up to letter case and up to white space
    around it, for answers and for commands alike, at both prompts: two
    turns whose lines differ only in these ways return the same status and
    leave the same entry. *)
Theorem turn_ignores_case_and_padding cfg item io p
    (l1 l1' l2 l2' pre1 post1 pre2 post2 : string) :
  lower l1 = lower l1' -> lower l2 = lower l2' ->
  all_space pre1 = true -> all_space post1 = true ->
  all_space pre2 = true -> all_space post2 = true ->
  run_quiz_for_item cfg item
    (with_lines io (pre1 +:+ l1 +:+ post1) (pre2 +:+ l2 +:+ post2)) p
  = run_quiz_for_item cfg item (with_lines io l1' l2') p.
Proof.
  intros H1 H2 Hpre1 Hpost1 Hpre2 Hpost2.
  unfold run_quiz_for_item, with_lines. cbn [first_input hint_input first_elapsed hint_elapsed].
  rewrite !normalize_padded by assumption.
  now rewrite (normalize_same_letters l1 l1' H1), (normalize_same_letters l2 l2' H2).
Qed.

Lemma turn_ignores_case_and_padding_witness :
  let cfg := {| chinese_to_english := false; random_mode := true |} in
  let item := {| simplified := Some "ma"%string; pinyin := None;
                 english_concise := Some "Horse"%string |} in
  let io := {| first_input := ""; first_elapsed := 1;
               hint_input := ""; hint_elapsed := 1 |} in
  run_quiz_for_item cfg item (with_lines io "  -H " " HORSE") (default_record "ma")
  = run_quiz_for_item cfg item (with_lines io "-h" "horse") (default_record "ma").
Proof.
  cbv zeta.
  exact (turn_ignores_case_and_padding
           {| chinese_to_english := false; random_mode := true |}
           {| simplified := Some "ma"%string; pinyin := None;
              english_concise := Some "Horse"%string |}
           {| first_input := ""; first_elapsed := 1;
              hint_input := ""; hint_elapsed := 1 |}
           (default_record "ma")
           "-H" "-h" "HORSE" "horse" "  " " " " " ""
           eq_refl eq_refl eq_refl eq_refl eq_refl eq_refl).
Defined.

(** X10: from Chinese to English a blank line is an accepted answer
    exactly when one of the two accepted forms is empty, and a missing
    [simplified] or [pinyin] key makes one: on such an item pressing Enter
    is graded ["correct"]; on an item with both forms not empty it is
    graded ["incorrect"]. *)
Theorem blank_line_from_chinese cfg item io answer p :
  chinese_to_english cfg = true ->
  get_quiz_item_data cfg item = Ok answer ->
  all_space (first_input io) = true ->
  attempts p <> (-1)%Z ->
  (""%string ∈ answer ->
   fst (run_quiz_for_item cfg item io p) = Ok Correct) /\
  (""%string ∉ answer ->
   fst (run_quiz_for_item cfg item io p) = Ok Incorrect) /\
  (simplified item = None \/ pinyin item = None -> ""%string ∈ answer).
Proof.
  intros Hdir Hd Hblank Ha.
  pose proof (normalize_all_space _ Hblank) as Hn.
  assert (Hcmd : is_command (normalize (first_input io)) = false) by now rewrite Hn.
  assert (Hchk : check_answer cfg (normalize (first_input io)) answer
                 = Ok (list_contains "" answer)).
  { unfold check_answer. now rewrite Hdir, Hn. }
  rewrite (run_quiz_answer _ _ _ _ _ Hd Hcmd).
  split; [| split].
  - intros Hin. apply list_contains_spec in Hin. rewrite Hin in Hchk.
    now rewrite (grade_answer_true _ _ _ _ _ Hchk Ha).
  - intros Hnin.
    destruct (list_contains "" answer) eqn:E;
      [apply list_contains_spec in E; contradiction |].
    now rewrite (grade_answer_false _ _ _ _ _ Hchk Ha).
  - unfold get_quiz_item_data in Hd. rewrite Hdir in Hd.
    intros [Hs | Hp].
    + rewrite Hs in Hd.
      destruct (pinyin item) as [[s | l] |]; [| destruct (l !! 1%nat) |];
        inversion Hd; subst; apply list_elem_of_here.
    + rewrite Hp in Hd. inversion Hd; subst.
      apply list_elem_of_further, list_elem_of_here.
Qed.

Lemma blank_line_from_chinese_witness :
  let cfg := {| chinese_to_english := true; random_mode := true |} in
  let item := {| simplified := Some "ma"%string; pinyin := None;
                 english_concise := Some "horse"%string |} in
  let io := {| first_input := " "; first_elapsed := 1;
               hint_input := ""; hint_elapsed := 0 |} in
  fst (run_quiz_for_item cfg item io (default_record "ma")) = Ok Correct.
Proof.
  cbv zeta.
  destruct (blank_line_from_chinese
              {| chinese_to_english := true; random_mode := true |}
              {| simplified := Some "ma"%string; pinyin := None;
                 english_concise := Some "horse"%string |}
              {| first_input := " "; first_elapsed := 1;
                 hint_input := ""; hint_elapsed := 0 |}
              ["ma"; ""]%string (default_record "ma")
              eq_refl eq_refl eq_refl) as (Hyes & _ & Hmiss).
  { simpl. lia. }
  apply Hyes, Hmiss. now right.
Defined.

(** * Further properties of the selection *)

Lemma map_seq_shift {A} (f : nat -> A) (n : nat) :
  map f (seq 1 n) = map (fun k => f (S k)) (seq 0 n).
Proof. rewrite <- seq_shift, map_map. reflexivity. Qed.

Lemma next_indices_sequential cfg (n : Z) progress draws (c : Z) :
  random_mode cfg = false -> (0 <= c < n)%Z ->
  next_indices cfg n progress draws c
  = (map (fun k => Ok ((c + Z.of_nat k) mod n)%Z) (seq 0 (length draws)),
     ((c + Z.of_nat (length draws)) mod n)%Z).
Proof.
  intros Hmode. revert c. induction draws as [| u rest IH]; intros c Hc.
  - simpl. now rewrite Z.add_0_r, Z.mod_small.
  - cbn [next_indices length seq map].
    unfold get_next_index at 1. rewrite Hmode.
    destruct (Z.eqb_spec n 0) as [E | E]; [lia |].
    rewrite (IH ((c + 1) mod n)%Z) by (apply Z.mod_pos_bound; lia).
    f_equal.
    + f_equal.
      * now rewrite Z.add_0_r, Z.mod_small.
      * rewrite map_seq_shift. apply map_ext. intros k.
        rewrite Zplus_mod_idemp_l. do 2 f_equal. lia.
    + rewrite Zplus_mod_idemp_l. f_equal. lia.
Qed.

(** X11: in sequential mode the items come in order and wrap around.
    With a cursor inside the corpus, the k-th call returns index
    [(cursor + k) mod size] whatever the weights and the draws are, never
    raises, and after as many calls as there are items the cursor is back
    where it started. *)
Theorem sequential_mode_cycles cfg (n : Z) progress draws (c : Z) :
  random_mode cfg = false -> (0 <= c < n)%Z ->
  fst (next_indices cfg n progress draws c)
  = map (fun k => Ok ((c + Z.of_nat k) mod n)%Z) (seq 0 (length draws)) /\
  (Z.of_nat (length draws) = n -> snd (next_indices cfg n progress draws c) = c).
Proof.
  intros Hmode Hc. rewrite (next_indices_sequential _ _ _ _ _ Hmode Hc). simpl.
  split; [reflexivity |]. intros ->.
  rewrite <- (Z.mul_1_l n) at 1. rewrite Z.mod_add by lia. now apply Z.mod_small.
Qed.

Lemma sequential_mode_cycles_witness :
  let cfg := {| chinese_to_english := true; random_mode := false |} in
  fst (next_indices cfg 3 [] [0; 0; 0; 0] 1%Z) = [Ok 1; Ok 2; Ok 0; Ok 1]%Z /\
  snd (next_indices cfg 3 [] [0; 0; 0] 1%Z) = 1%Z.
Proof.
  cbv zeta. split.
  - exact (proj1 (sequential_mode_cycles
                    {| chinese_to_english := true; random_mode := false |}
                    3 [] [0; 0; 0; 0] 1%Z eq_refl ltac:(lia))).
  - exact (proj2 (sequential_mode_cycles
                    {| chinese_to_english := true; random_mode := false |}
                    3 [] [0; 0; 0] 1%Z eq_refl ltac:(lia)) eq_refl).
Defined.

Lemma accumulate_from_lookup (l : list Q) (acc : Q) (k : nat) (c : Q) :
  accumulate_from acc l !! k = Some c -> c == acc + sum_list (take (S k) l).
Proof.
  revert acc k. induction l as [| x l IH]; intros acc k; [discriminate |].
  destruct k as [| k]; cbn [accumulate_from lookup list_lookup].
  - intros [= <-]. simpl. lra.
  - intros H. apply IH in H. rewrite H.
    change (take (S (S k)) (x :: l)) with (x :: take (S k) l). simpl. lra.
Qed.

Lemma accumulate_lookup (l : list Q) (k : nat) (c : Q) :
  accumulate l !! k = Some c -> c == sum_list (take (S k) l).
Proof.
  destruct l as [| x l]; [discriminate |].
  destruct k as [| k]; cbn [accumulate lookup list_lookup].
  - intros [= <-]. simpl. destruct l; simpl; lra.
  - intros H. apply accumulate_from_lookup in H. rewrite H.
    change (take (S (S k)) (x :: l)) with (x :: take (S k) l). simpl. lra.
Qed.

Lemma sum_list_nonneg (l : list Q) : Forall (fun x => 0 <= x) l -> 0 <= sum_list l.
Proof.
  induction 1 as [| x l Hx _ IH]; simpl; lra.
Qed.

Lemma sum_take_mono (l : list Q) (i j : nat) :
  Forall (fun x => 0 <= x) l -> (i <= j)%nat ->
  sum_list (take i l) <= sum_list (take j l).
Proof.
  intros Hl. revert i j. induction Hl as [| x l Hx Hl IH]; intros i j Hij.
  - rewrite !take_nil. lra.
  - destruct i as [| i].
    + simpl. apply sum_list_nonneg. apply Forall_take. now constructor.
    + destruct j as [| j]; [lia |]. simpl.
      specialize (IH i j ltac:(lia)). lra.
Qed.

Lemma bisect_loop_spec fuel (a : list Q) (x : Q) (lo hi : nat) :
  (hi - lo <= fuel)%nat -> (lo <= hi)%nat -> (hi <= length a)%nat ->
  (forall i j ai aj, (i <= j)%nat -> a !! i = Some ai -> a !! j = Some aj -> ai <= aj) ->
  (forall j aj, (j < lo)%nat -> a !! j = Some aj -> aj <= x) ->
  (forall j aj, (hi <= j)%nat -> a !! j = Some aj -> x < aj) ->
  exists i,
    bisect_loop fuel a x lo hi = Ok i /\ (lo <= i <= hi)%nat /\
    (forall j aj, (j < i)%nat -> a !! j = Some aj -> aj <= x) /\
    (forall j aj, (i <= j)%nat -> a !! j = Some aj -> x < aj).
Proof.
  intros Hf Hle Hlen Hsorted. revert lo hi Hf Hle Hlen.
  induction fuel as [| fuel IH]; intros lo hi Hf Hle Hlen Hlow Hhigh;
    cbn [bisect_loop].
  - exists lo. split; [reflexivity |]. split; [lia |]. split; [exact Hlow |].
    intros j aj Hj. apply Hhigh. lia.
  - destruct (Nat.ltb_spec lo hi) as [Hlt | Hge].
    2: { exists lo. split; [reflexivity |]. split; [lia |]. split; [exact Hlow |].
         intros j aj Hj. apply Hhigh. lia. }
    pose proof (Nat.div_mod_eq (lo + hi) 2) as Hdiv.
    pose proof (Nat.mod_upper_bound (lo + hi) 2 ltac:(lia)) as Hmod.
    set (mid := Nat.div (lo + hi) 2) in *.
    assert (Hmid : (lo <= mid < hi)%nat) by lia.
    destruct (lookup_lt_is_Some_2 a mid ltac:(lia)) as [a_mid Ha]. rewrite Ha.
    destruct (Qltb x a_mid) eqn:E.
    + apply Qltb_lt in E.
      destruct (IH lo mid) as (i & Hi & Hr & H1 & H2); [lia | lia | lia | exact Hlow | |].
      { intros j aj Hj Haj. pose proof (Hsorted mid j a_mid aj Hj Ha Haj). lra. }
      exists i. split; [exact Hi |]. split; [lia |]. split; assumption.
    + apply Qltb_ge in E.
      destruct (IH (mid + 1)%nat hi) as (i & Hi & Hr & H1 & H2);
        [lia | lia | lia | | exact Hhigh |].
      { intros j aj Hj Haj.
        pose proof (Hsorted j mid aj a_mid ltac:(lia) Haj Ha). lra. }
      exists i. split; [exact Hi |]. split; [lia |]. split; assumption.
Qed.

Lemma last_accumulate (l : list Q) (t : Q) :
  last (accumulate l) = Some t -> t == sum_list l.
Proof.
  rewrite last_lookup, accumulate_length. intros H.
  apply accumulate_lookup in H. rewrite H.
  rewrite take_ge by lia. reflexivity.
Qed.

(** The draw [u] selects the index whose share of the total weight holds
    [u]. *)
Lemma choices_interval (weights : list Q) (u : Q) :
  Forall (fun x => 0 <= x) weights -> 0 < sum_list weights -> 0 <= u -> u < 1 ->
  exists i : nat,
    choices (range (Z.of_nat (length weights))) weights u = Ok (Z.of_nat i) /\
    (i < length weights)%nat /\
    sum_list (take i weights) <= u * sum_list weights /\
    u * sum_list weights < sum_list (take (S i) weights).
Proof.
  intros Hnn Hpos Hu0 Hu1. unfold choices.
  assert (Hn : length (range (Z.of_nat (length weights))) = length weights).
  { unfold range. now rewrite length_map, length_seq, Nat2Z.id. }
  rewrite Hn, accumulate_length, Nat.eqb_refl. cbn [negb].
  assert (Hne : (0 < length weights)%nat).
  { destruct weights; [simpl in Hpos; lra | simpl; lia]. }
  destruct (last (accumulate weights)) as [t |] eqn:Hlast.
  2: { rewrite last_lookup, accumulate_length in Hlast.
       apply lookup_ge_None in Hlast. rewrite accumulate_length in Hlast. lia. }
  pose proof (last_accumulate _ _ Hlast) as Ht.
  destruct (Qle_bool t 0) eqn:E; [apply Qle_bool_iff in E; lra |].
  assert (Hsorted : forall i j ai aj, (i <= j)%nat ->
            accumulate weights !! i = Some ai -> accumulate weights !! j = Some aj ->
            ai <= aj).
  { intros i j ai aj Hij Hi Hj.
    apply accumulate_lookup in Hi, Hj. rewrite Hi, Hj.
    apply sum_take_mono; [exact Hnn | lia]. }
  destruct (bisect_loop_spec (length weights - 1 - 0) (accumulate weights) (u * t)
              0 (length weights - 1)) as (i & Hi & Hr & Hlow & Hhigh);
    [lia | lia | rewrite accumulate_length; lia | exact Hsorted | intros; lia | |].
  { intros j aj Hj Haj.
    assert (Hjlt : (j < length weights)%nat).
    { apply lookup_lt_Some in Haj. now rewrite accumulate_length in Haj. }
    apply accumulate_lookup in Haj. rewrite Haj.
    rewrite take_ge by lia. nra. }
  unfold bisect. rewrite Hi, range_lookup by lia.
  exists i. split; [reflexivity |]. split; [lia |].
  rewrite <- Ht. split.
  - destruct i as [| i]; [simpl; nra |].
    destruct (lookup_lt_is_Some_2 (accumulate weights) i) as [c Hc];
      [rewrite accumulate_length; lia |].
    pose proof (Hlow i c ltac:(lia) Hc) as Hle.
    apply accumulate_lookup in Hc. now rewrite <- Hc.
  - destruct (lookup_lt_is_Some_2 (accumulate weights) i) as [c Hc];
      [rewrite accumulate_length; lia |].
    pose proof (Hhigh i c ltac:(lia) Hc) as Hlt.
    apply accumulate_lookup in Hc. now rewrite <- Hc.
Qed.

Lemma sum_take_S (l : list Q) (i : nat) (x : Q) :
  l !! i = Some x -> sum_list (take (S i) l) == sum_list (take i l) + x.
Proof.
  revert i. induction l as [| y l IH]; intros i; [discriminate |].
  destruct i as [| i].
  - intros [= ->]. simpl. lra.
  - intros H. change (take (S (S i)) (y :: l)) with (y :: take (S i) l).
    change (take (S i) (y :: l)) with (y :: take i l).
    cbn [sum_list]. rewrite (IH i H). lra.
Qed.

(** X12: weighted-random selection picks each entry in proportion to its
    weight.  With weights that are not negative and a positive total, a
    draw [u] in [0, 1) returns the index [i] for which [u * total] lies
    between the weight of the entries before [i] and that weight plus the
    weight of entry [i]; the call never raises, the index is inside the
    corpus, the cursor is untouched, and an entry of weight 0 is never
    returned. *)
Theorem weighted_choice_is_proportional cfg progress u cursor :
  random_mode cfg = true ->
  Forall (fun p => 0 <= weight p) progress ->
  0 < weight_sum progress -> 0 <= u -> u < 1 ->
  exists (i : nat) (p : ProgressRecord),
    get_next_index cfg (Z.of_nat (length progress)) progress u cursor
    = (Ok (Z.of_nat i), cursor) /\
    progress !! i = Some p /\
    prefix_weight progress i <= u * weight_sum progress /\
    u * weight_sum progress < prefix_weight progress i + weight p /\
    0 < weight p.
Proof.
  intros Hmode Hnn Hpos Hu0 Hu1.
  assert (Hnn' : Forall (fun x => 0 <= x) (map weight progress)).
  { apply Forall_forall. intros x Hx. apply list_elem_of_In in Hx.
    apply in_map_iff in Hx as (p & <- & Hp).
    rewrite Forall_forall in Hnn. apply Hnn. now apply list_elem_of_In. }
  destruct (choices_interval (map weight progress) u Hnn' Hpos Hu0 Hu1)
    as (i & Hi & Hlt & Hlo & Hhi).
  rewrite length_map in Hi, Hlt.
  destruct (lookup_lt_is_Some_2 progress i Hlt) as [p Hp].
  exists i, p. unfold get_next_index. rewrite Hmode, Hi.
  split; [reflexivity |]. split; [exact Hp |].
  assert (Hw : map weight progress !! i = Some (weight p)).
  { rewrite map_lookup, Hp. reflexivity. }
  rewrite (sum_take_S _ _ _ Hw) in Hhi.
  unfold prefix_weight, weight_sum. rewrite <- firstn_map.
  repeat split; try assumption. lra.
Qed.

Lemma weighted_choice_is_proportional_witness :
  let cfg := {| chinese_to_english := true; random_mode := true |} in
  let entry w := {| word := "ma"; weight := w; streak := 0%Z; avg_time := 0;
                    total_time := 0; attempts := 0%Z; correct := 0%Z |} in
  let progress := [entry 10; entry (1 # 100)] in
  get_next_index cfg 2 progress (9995 # 10000) 0%Z = (Ok 1%Z, 0%Z) /\
  prefix_weight progress 1 <= (9995 # 10000) * weight_sum progress.
Proof.
  cbv beta zeta.
  match goal with
  | |- get_next_index ?cfg _ ?progress ?u ?c = _ /\ _ =>
      destruct (weighted_choice_is_proportional cfg progress u c)
        as (i & p & Hrun & Hp & Hlo & Hhi & _);
        [ reflexivity
        | repeat constructor; simpl; lra
        | vm_compute; reflexivity
        | lra | lra | ]
  end.
  split; [reflexivity |].
  assert (i = 1%nat) as ->.
  { destruct i as [| [| i]]; [| reflexivity |].
    - vm_compute in Hrun. discriminate.
    - vm_compute in Hp. discriminate. }
  exact Hlo.
Defined.

Lemma sum_list_const (l : list Q) (w : Q) :
  Forall (fun x => x == w) l -> sum_list l == inject_Z (Z.of_nat (length l)) * w.
Proof.
  induction 1 as [| x l Hx _ IH].
  - cbn [sum_list length]. change (inject_Z (Z.of_nat 0)) with 0. lra.
  - cbn [sum_list length]. rewrite IH, Hx, Nat2Z.inj_succ.
    unfold Z.succ. rewrite inject_Z_plus. change (inject_Z 1) with 1. lra.
Qed.

(** X13: when all entries have the same positive weight, as in a fresh
    progress set, the selection is uniform: a draw [u] in [0, 1) returns
    the index [i] with [i <= u * size < i + 1]. *)
Theorem equal_weights_choose_uniformly cfg progress (w u : Q) cursor :
  random_mode cfg = true ->
  progress <> [] -> 0 < w ->
  Forall (fun p => weight p == w) progress ->
  0 <= u -> u < 1 ->
  let n := inject_Z (Z.of_nat (length progress)) in
  exists i : nat,
    get_next_index cfg (Z.of_nat (length progress)) progress u cursor
    = (Ok (Z.of_nat i), cursor) /\
    (i < length progress)%nat /\
    inject_Z (Z.of_nat i) <= u * n /\ u * n < inject_Z (Z.of_nat i) + 1.
Proof.
  intros Hmode Hne Hw Hall Hu0 Hu1 n.
  assert (Hall' : Forall (fun x => x == w) (map weight progress)).
  { apply Forall_forall. intros x Hx. apply list_elem_of_In in Hx.
    apply in_map_iff in Hx as (p & <- & Hp).
    rewrite Forall_forall in Hall. apply Hall. now apply list_elem_of_In. }
  assert (Hnn : Forall (fun x => 0 <= x) (map weight progress)).
  { eapply Forall_impl; [exact Hall' |]. simpl. intros x Hx. rewrite Hx. lra. }
  pose proof (sum_list_const _ _ Hall') as Htotal. rewrite length_map in Htotal.
  assert (Hn : 1 <= n).
  { unfold n. destruct progress; [contradiction |].
    cbn [length]. rewrite Nat2Z.inj_succ. unfold Z.succ. rewrite inject_Z_plus.
    pose proof (inject_Z_nonneg (Z.of_nat (length progress)) ltac:(lia)).
    change (inject_Z 1) with 1. lra. }
  fold n in Htotal.
  destruct (choices_interval (map weight progress) u Hnn) as (i & Hi & Hlt & Hlo & Hhi);
    [rewrite Htotal; nra | exact Hu0 | exact Hu1 |].
  rewrite length_map in Hi, Hlt.
  exists i. unfold get_next_index. rewrite Hmode, Hi.
  split; [reflexivity |]. split; [exact Hlt |].
  assert (Hpre : forall k, (k <= length progress)%nat ->
            sum_list (take k (map weight progress)) == inject_Z (Z.of_nat k) * w).
  { intros k Hk. rewrite (sum_list_const _ w).
    - rewrite length_take, length_map. now rewrite Nat.min_l.
    - now apply Forall_take. }
  rewrite (Hpre i) in Hlo by lia. rewrite (Hpre (S i)) in Hhi by lia.
  rewrite Htotal in Hlo, Hhi.
  rewrite Nat2Z.inj_succ in Hhi. unfold Z.succ in Hhi.
  rewrite inject_Z_plus in Hhi. change (inject_Z 1) with 1 in Hhi.
  split; nra.
Qed.

Lemma equal_weights_choose_uniformly_witness :
  let cfg := {| chinese_to_english := true; random_mode := true |} in
  let item w := {| simplified := Some w; pinyin := None; english_concise := None |} in
  let progress := get_default_progress [item "ma"; item "niu"; item "yang"; item "gou"]%string in
  get_next_index cfg 4 progress (6 # 10) 0%Z = (Ok 2%Z, 0%Z).
Proof.
  cbv beta zeta.
  match goal with
  | |- get_next_index ?cfg _ ?progress ?u ?c = _ =>
      destruct (equal_weights_choose_uniformly cfg progress MAX_WEIGHT u c)
        as (i & Hrun & Hlt & Hlo & Hhi);
        [ reflexivity | discriminate | unfold MAX_WEIGHT; lra
        | repeat constructor; reflexivity | lra | lra | ]
  end.
  change (Z.of_nat (length _)) with 4%Z in Hrun.
  rewrite Hrun. repeat f_equal.
  cbv zeta in Hlo, Hhi.
  change (inject_Z (Z.of_nat (length _))) with 4 in Hlo, Hhi.
  assert (H1 : inject_Z (Z.of_nat i) < 3) by lra.
  assert (H2 : 1 < inject_Z (Z.of_nat i)) by lra.
  change 3 with (inject_Z 3) in H1. change 1 with (inject_Z 1) in H2.
  rewrite <- Zlt_Qlt in H1, H2. lia.
Defined.

(** * Statistics *)

Lemma foldl_Qplus (l : list Q) (acc : Q) : foldl Qplus acc l == acc + sum_list l.
Proof.
  revert acc. induction l as [| x l IH]; intros acc; simpl; [lra |].
  rewrite IH. lra.
Qed.

Lemma py_sum_sum_list (l : list Q) : py_sum l == sum_list l.
Proof. unfold py_sum. rewrite foldl_Qplus. lra. Qed.

Lemma foldl_Zadd (l : list Z) (acc : Z) :
  foldl Z.add acc l = (acc + foldr Z.add 0 l)%Z.
Proof.
  revert acc. induction l as [| x l IH]; intros acc; simpl; [lia |].
  rewrite IH. lia.
Qed.

Lemma length_as_Q_pos {A} (x : A) (l : list A) :
  1 <= inject_Z (Z.of_nat (length (x :: l))).
Proof.
  change 1 with (inject_Z 1). rewrite <- Zle_Qle. simpl. lia.
Qed.

(** The proficiency before it is clamped. *)
Lemma raw_proficiency (s n : Q) :
  0 < n ->
  (1 - (s / n - MIN_WEIGHT) / (MAX_WEIGHT - MIN_WEIGHT)) * 100
  == (n * MAX_WEIGHT - s) / n / (MAX_WEIGHT - MIN_WEIGHT) * 100.
Proof. intros Hn. unfold MIN_WEIGHT, MAX_WEIGHT. field. lra. Qed.

Lemma clamp_inside (x : Q) : 0 <= x -> x <= 100 -> py_max 0 (py_min 100 x) == x.
Proof.
  intros H0 H1.
  destruct (py_min_cases 100 x) as [[H ->] | [H ->]];
    destruct (py_max_cases 0 x) as [[H' E] | [H' E]];
    try destruct (py_max_cases 0 100) as [[H'' E'] | [H'' E']];
    try rewrite E; try rewrite E'; lra.
Qed.

Lemma clamp_bounds (x : Q) :
  0 <= py_max 0 (py_min 100 x) /\ py_max 0 (py_min 100 x) <= 100.
Proof.
  destruct (py_min_cases 100 x) as [[H ->] | [H ->]];
    [destruct (py_max_cases 0 x) as [[H' ->] | [H' ->]]
    | destruct (py_max_cases 0 100) as [[H' ->] | [H' ->]]]; split; lra.
Qed.

Lemma clamp_mono (x y : Q) :
  x <= y -> py_max 0 (py_min 100 x) <= py_max 0 (py_min 100 y).
Proof.
  intros Hxy.
  destruct (py_min_cases 100 x) as [[Hx ->] | [Hx ->]];
    destruct (py_min_cases 100 y) as [[Hy ->] | [Hy ->]];
    repeat match goal with
    | |- context [py_max ?a ?b] =>
        let H := fresh in let E := fresh in
        destruct (py_max_cases a b) as [[H E] | [H E]]; rewrite E; clear E
    end; lra.
Qed.

Lemma weights_sum_bounds (progress : list ProgressRecord) :
  Forall weight_in_range progress ->
  let n := inject_Z (Z.of_nat (length progress)) in
  n * MIN_WEIGHT <= sum_list (map weight progress) /\
  sum_list (map weight progress) <= n * MAX_WEIGHT.
Proof.
  induction 1 as [| p l [Hlo Hhi] _ IH]; cbv zeta in *.
  - simpl. change (inject_Z (Z.of_nat 0)) with 0. lra.
  - cbn [length map sum_list]. rewrite Nat2Z.inj_succ. unfold Z.succ.
    rewrite inject_Z_plus. change (inject_Z 1) with 1. lra.
Qed.

Lemma item_proficiency_sum (progress : list ProgressRecord) :
  sum_list (map (fun p => item_proficiency (weight p)) progress)
  == (inject_Z (Z.of_nat (length progress)) * MAX_WEIGHT - sum_list (map weight progress))
     / (MAX_WEIGHT - MIN_WEIGHT) * 100.
Proof.
  induction progress as [| p l IH].
  - simpl. change (inject_Z (Z.of_nat 0)) with 0. unfold MAX_WEIGHT, MIN_WEIGHT. field.
  - cbn [length map sum_list]. rewrite IH, Nat2Z.inj_succ. unfold Z.succ.
    rewrite inject_Z_plus. change (inject_Z 1) with 1.
    unfold item_proficiency, MAX_WEIGHT, MIN_WEIGHT. field.
Qed.

(** X14: the proficiency [get_session_metadata] returns always lies
    between 0 and 100, and for a progress set whose weights are within the
    bounds it is the mean of the proficiencies [display_item_metadata]
    shows for the entries, with nothing cut off by the clamp. *)
Theorem session_proficiency_is_item_mean (progress : list ProgressRecord) :
  (0 <= fst (get_session_metadata progress) /\
   fst (get_session_metadata progress) <= 100) /\
  (progress <> [] -> Forall weight_in_range progress ->
   fst (get_session_metadata progress)
   == sum_list (map (fun p => new_proficiency (display_item_metadata p (weight p))) progress)
      / inject_Z (Z.of_nat (length progress))).
Proof.
  split.
  - destruct progress as [| p l]; simpl; [lra | apply clamp_bounds].
  - intros Hne Hall. destruct progress as [| p l]; [contradiction |].
    pose proof (length_as_Q_pos p l) as Hn.
    pose proof (weights_sum_bounds _ Hall) as [Hlo Hhi]. cbv zeta in Hlo, Hhi.
    change (map (fun p0 => new_proficiency (display_item_metadata p0 (weight p0))) (p :: l))
      with (map (fun p0 => item_proficiency (weight p0)) (p :: l)).
    rewrite item_proficiency_sum.
    change (fst (get_session_metadata (p :: l)))
      with (py_max 0 (py_min 100
              ((1 - (py_sum (map weight (p :: l)) / inject_Z (Z.of_nat (length (p :: l)))
                     - MIN_WEIGHT) / (MAX_WEIGHT - MIN_WEIGHT)) * 100))).
    set (n := inject_Z (Z.of_nat (length (p :: l)))) in *.
    set (s := sum_list (map weight (p :: l))) in *.
    set (x := (n * MAX_WEIGHT - s) / (MAX_WEIGHT - MIN_WEIGHT) * 100 / n).
    assert (Hraw : (1 - (py_sum (map weight (p :: l)) / n - MIN_WEIGHT)
                        / (MAX_WEIGHT - MIN_WEIGHT)) * 100 == x).
    { rewrite py_sum_sum_list. fold s. rewrite raw_proficiency by lra.
      unfold x, MAX_WEIGHT, MIN_WEIGHT. field. lra. }
    assert (Hx : 0 <= x /\ x <= 100).
    { assert (Hxn : x * n == (n * 10 - s) * (10000 # 999)).
      { unfold x, MAX_WEIGHT, MIN_WEIGHT. field. lra. }
      unfold MIN_WEIGHT, MAX_WEIGHT in *. split; nra. }
    rewrite <- Hraw in Hx |- *.
    apply clamp_inside; tauto.
Qed.

Lemma session_proficiency_is_item_mean_witness :
  let entry w := {| word := "ma"; weight := w; streak := 0%Z; avg_time := 0;
                    total_time := 0; attempts := 0%Z; correct := 0%Z |} in
  let progress := [entry 10; entry (1 # 100)] in
  fst (get_session_metadata progress) == 50.
Proof.
  cbv beta zeta.
  match goal with
  | |- fst (get_session_metadata ?progress) == _ =>
      destruct (session_proficiency_is_item_mean progress) as [_ H];
      rewrite H;
        [ reflexivity | discriminate
        | repeat constructor; simpl; unfold MIN_WEIGHT, MAX_WEIGHT; lra ]
  end.
Defined.

Lemma sum_list_pointwise (before after : list ProgressRecord) :
  Forall2 (fun p q => weight q <= weight p) before after ->
  sum_list (map weight after) <= sum_list (map weight before).
Proof.
  induction 1 as [| p q l l' Hpq _ IH]; simpl; lra.
Qed.

(** X15: lower weights never give a lower proficiency.  When every entry
    of a progress set has a weight that is not above the weight it had
    before, [get_session_metadata] returns a proficiency that is not below
    the earlier one. *)
Theorem proficiency_follows_weights (before after : list ProgressRecord) :
  Forall2 (fun p q => weight q <= weight p) before after ->
  fst (get_session_metadata before) <= fst (get_session_metadata after).
Proof.
  intros Hall. pose proof (sum_list_pointwise _ _ Hall) as Hsum.
  pose proof (Forall2_length _ _ _ Hall) as Hlen.
  destruct Hall as [| p q l l' Hpq Hall]; [simpl; lra |].
  change (fst (get_session_metadata (p :: l)))
    with (py_max 0 (py_min 100
            ((1 - (py_sum (map weight (p :: l)) / inject_Z (Z.of_nat (length (p :: l)))
                   - MIN_WEIGHT) / (MAX_WEIGHT - MIN_WEIGHT)) * 100))).
  change (fst (get_session_metadata (q :: l')))
    with (py_max 0 (py_min 100
            ((1 - (py_sum (map weight (q :: l')) / inject_Z (Z.of_nat (length (q :: l')))
                   - MIN_WEIGHT) / (MAX_WEIGHT - MIN_WEIGHT)) * 100))).
  apply clamp_mono. rewrite <- Hlen.
  pose proof (length_as_Q_pos p l) as Hn.
  set (n := inject_Z (Z.of_nat (length (p :: l)))) in *.
  rewrite !py_sum_sum_list, !raw_proficiency by lra.
  set (s := sum_list (map weight (p :: l))) in *.
  set (s' := sum_list (map weight (q :: l'))) in *.
  assert (E : forall t, (n * MAX_WEIGHT - t) / n / (MAX_WEIGHT - MIN_WEIGHT) * 100
                        == (n * MAX_WEIGHT - t) * ((10000 # 999) / n)).
  { intros t. unfold MAX_WEIGHT, MIN_WEIGHT. field. lra. }
  rewrite !E.
  assert (Hk : 0 < (10000 # 999) / n).
  { apply Qlt_shift_div_l; lra. }
  nra.
Qed.

Lemma proficiency_follows_weights_witness :
  let entry w := {| word := "ma"; weight := w; streak := 0%Z; avg_time := 0;
                    total_time := 0; attempts := 0%Z; correct := 0%Z |} in
  fst (get_session_metadata [entry 10; entry 5])
  <= fst (get_session_metadata [entry (35 # 4); entry 5]).
Proof.
  cbv beta zeta.
  apply proficiency_follows_weights.
  repeat constructor; simpl; lra.
Defined.

(** X16: the summary counts an entry as mastered exactly when the
    proficiency [display_item_metadata] shows for it is 95 or more:
    [words_mastered] is the number of such entries, and the threshold on
    the weight is 0.5095. *)
Theorem mastered_is_95_percent (progress : list ProgressRecord)
    (session_correct session_attempts : Z) (time_change_minutes start_proficiency : Q) :
  let summary := display_session_summary progress session_correct session_attempts
                   time_change_minutes start_proficiency in
  mastery_threshold summary == 5095 # 10000 /\
  (forall p w0,
     weight p <= mastery_threshold summary <->
     95 <= new_proficiency (display_item_metadata p w0)) /\
  words_mastered summary
  = length (filter (fun p => Qle_bool 95 (new_proficiency (display_item_metadata p (weight p)))
                             = true) progress).
Proof.
  cbv zeta. unfold display_session_summary.
  destruct (get_session_metadata progress) as [end_prof end_total_time].
  cbn [mastery_threshold words_mastered].
  assert (Hiff : forall p w0,
            weight p <= MIN_WEIGHT + (MAX_WEIGHT - MIN_WEIGHT) * (5 # 100) <->
            95 <= new_proficiency (display_item_metadata p w0)).
  { intros p w0. cbn [new_proficiency display_item_metadata].
    assert (E : (MAX_WEIGHT - weight p) / (MAX_WEIGHT - MIN_WEIGHT) * 100
                == (10 - weight p) * (10000 # 999)).
    { unfold MAX_WEIGHT, MIN_WEIGHT. field. }
    rewrite E. unfold MAX_WEIGHT, MIN_WEIGHT. split; intros; lra. }
  split; [reflexivity |]. split; [exact Hiff |].
  f_equal. apply list_filter_iff. intros p.
  rewrite !Qle_bool_iff. apply Hiff.
Qed.

Lemma session_proficiency_bounds (progress : list ProgressRecord) :
  0 <= fst (get_session_metadata progress) /\
  fst (get_session_metadata progress) <= 100.
Proof.
  destruct progress as [| p l]; simpl; [lra | apply clamp_bounds].
Qed.

Lemma py_sum_int_bounds (progress : list ProgressRecord) :
  Forall counters_ordered progress ->
  (0 <= py_sum_int (map correct progress))%Z /\
  (py_sum_int (map correct progress) <= py_sum_int (map attempts progress))%Z.
Proof.
  unfold py_sum_int. rewrite !foldl_Zadd.
  induction 1 as [| p l (Hs & Hc & Ha) _ IH]; simpl; lia.
Qed.

Lemma percentage_bounds (c a : Z) :
  (0 <= c)%Z -> (c <= a)%Z ->
  let pct := if (0 <? a)%Z then inject_Z c / inject_Z a * 100 else 0 in
  0 <= pct /\ pct <= 100.
Proof.
  intros Hc Ha. cbv zeta. destruct (Z.ltb_spec 0 a) as [Hpos | Hpos]; [| lra].
  assert (H0 : 0 <= inject_Z c) by now apply inject_Z_nonneg.
  assert (H1 : inject_Z c <= inject_Z a) by now rewrite <- Zle_Qle.
  assert (H2 : 0 < inject_Z a).
  { change 0 with (inject_Z 0). now rewrite <- Zlt_Qlt. }
  assert (E : inject_Z c / inject_Z a * 100 == (inject_Z c * 100) / inject_Z a).
  { field. lra. }
  rewrite E. split.
  - apply Qle_shift_div_l; [exact H2 | lra].
  - apply Qle_shift_div_r; [exact H2 | lra].
Qed.

(** X17: the percentages of the summary are percentages.  When the
    counters of every entry are ordered and the session counted no more
    correct answers than attempts, the session accuracy, the overall
    accuracy and the proficiency lie between 0 and 100 (they are 0 when
    there was no attempt), and the words seen and the words mastered are
    not more than the words there are. *)
Theorem summary_numbers_in_range (progress : list ProgressRecord)
    (session_correct session_attempts : Z) (time_change_minutes start_proficiency : Q) :
  Forall counters_ordered progress ->
  (0 <= session_correct)%Z -> (session_correct <= session_attempts)%Z ->
  let summary := display_session_summary progress session_correct session_attempts
                   time_change_minutes start_proficiency in
  (0 <= session_accuracy summary /\ session_accuracy summary <= 100) /\
  (0 <= overall_accuracy summary /\ overall_accuracy summary <= 100) /\
  (0 <= end_proficiency summary /\ end_proficiency summary <= 100) /\
  (words_seen summary <= total_words summary)%nat /\
  (words_mastered summary <= total_words summary)%nat /\
  (session_attempts = 0%Z -> session_accuracy summary == 0) /\
  (overall_total_attempts summary = 0%Z -> overall_accuracy summary == 0).
Proof.
  intros Hall Hsc Hsa. cbv zeta.
  pose proof (session_proficiency_bounds progress) as Hprof.
  unfold display_session_summary.
  destruct (get_session_metadata progress) as [end_prof end_total_time].
  cbn [session_accuracy overall_accuracy end_proficiency words_seen total_words
       words_mastered overall_total_attempts].
  destruct (py_sum_int_bounds _ Hall) as [Hc Ha].
  split; [exact (percentage_bounds _ _ Hsc Hsa) |].
  split; [exact (percentage_bounds _ _ Hc Ha) |].
  split; [exact Hprof |].
  split; [apply length_filter |]. split; [apply length_filter |].
  split; [intros ->; reflexivity | intros ->; reflexivity].
Qed.

Lemma summary_numbers_in_range_witness :
  let entry a c := {| word := "ma"; weight := 5; streak := 0%Z; avg_time := 1;
                      total_time := 3; attempts := a; correct := c |} in
  let summary := display_session_summary [entry 3 2; entry 0 0]%Z 1 2 (1 # 10) 40 in
  Forall counters_ordered [entry 3 2; entry 0 0]%Z /\
  overall_accuracy summary <= 100 /\ session_accuracy summary <= 100 /\
  (words_seen summary <= 2)%nat.
Proof.
  cbv beta zeta.
  match goal with
  | |- Forall _ ?progress /\ _ =>
      assert (Hall : Forall counters_ordered progress)
        by (repeat constructor; simpl; lia);
      destruct (summary_numbers_in_range progress 1 2 (1 # 10) 40 Hall)
        as ([_ Hs] & [_ Ho] & _ & Hseen & _); [lia | lia |]
  end.
  split; [exact Hall |]. split; [exact Ho |]. split; [exact Hs | exact Hseen].
Defined.

(** * The store across sessions *)

Lemma merge_item_same_word m w w' :
  item_word w = item_word w' -> merge_item m w = merge_item m w'.
Proof. intros H. unfold merge_item. now rewrite H. Qed.

(** In a loaded set two entries with the same word are the same entry. *)
Lemma load_progress_functional fs data progress r1 r2 :
  load_progress fs data = Ok progress ->
  r1 ∈ progress -> r2 ∈ progress ->
  word r1 = word r2 -> r1 = r2.
Proof.
  intros Hload.
  destruct (load_progress_Ok _ _ _ Hload) as [[-> _] | (old_prog & m & _ & _ & Hm & ->)];
    unfold get_default_progress;
    rewrite !list_elem_of_In, !in_map_iff;
    intros (w1 & <- & _) (w2 & <- & _); simpl; try congruence.
  intros Hw.
  assert (Hkeys : forall k r, m !! k = Some r -> word r = k).
  { intros k r Hk. rewrite (old_prog_map_lookup _ _ _ Hm) in Hk.
    now apply last_with_word_Some in Hk. }
  rewrite !(merge_item_word _ _ Hkeys) in Hw.
  now apply merge_item_same_word.
Qed.

Lemma last_with_word_functional (progress : list ProgressRecord) (r : ProgressRecord) :
  (forall r1 r2, r1 ∈ progress -> r2 ∈ progress -> word r1 = word r2 -> r1 = r2) ->
  r ∈ progress ->
  last_with_word (word r) (map WithWord progress) = Some r.
Proof.
  intros Hfun Hr.
  destruct (last_with_word (word r) (map WithWord progress)) as [r' |] eqn:E.
  - apply last_with_word_Some in E as [Hin Hw].
    apply list_elem_of_In, in_map_iff in Hin as (r'' & [= ->] & Hin).
    f_equal. apply Hfun; [now apply list_elem_of_In | exact Hr | exact Hw].
  - apply last_with_word_None in E. rewrite stored_words_saved in E.
    exfalso. apply E. apply list_elem_of_In, in_map, list_elem_of_In, Hr.
Qed.

(** X18: saving what was loaded and loading it again changes nothing, for
    every vocabulary list, also one with a word twice or with items that
    have no [simplified] key, provided the write succeeds. *)
Theorem reload_is_stable fs fs' data loaded :
  writable fs' = true ->
  load_progress fs data = Ok loaded ->
  load_progress (save_progress loaded fs') data = Ok loaded.
Proof.
  intros Hw Hload.
  destruct (load_progress_saved fs' loaded data Hw) as (m & -> & Hm). f_equal.
  apply merge_saved; [now apply load_progress_words with fs |].
  intros r Hr. rewrite Hm.
  apply last_with_word_functional; [| exact Hr].
  intros r1 r2. now apply load_progress_functional with fs data.
Qed.

Lemma reload_is_stable_witness :
  let item w := {| simplified := w; pinyin := None; english_concise := None |} in
  let data := [item (Some "ma"%string); item None; item (Some "ma"%string); item None] in
  let kept := {| word := "ma"; weight := 5; streak := 1%Z; avg_time := 1;
                 total_time := 2; attempts := 2%Z; correct := 1%Z |} in
  let fs := {| progress_file := Some (Parsed [WithWord kept]); writable := true |} in
  let loaded := [kept; default_record "N/A"; kept; default_record "N/A"] in
  load_progress fs data = Ok loaded /\
  load_progress (save_progress loaded fs) data = Ok loaded.
Proof.
  cbv beta zeta.
  match goal with
  | |- load_progress ?fs ?data = Ok ?loaded /\ _ =>
      assert (Hload : load_progress fs data = Ok loaded) by (vm_compute; reflexivity);
        split; [exact Hload | exact (reload_is_stable fs fs data loaded eq_refl Hload)]
  end.
Defined.

(** X19: statistics follow the word when the vocabulary list changes.
    After a successful save of a set without a word twice, loading against
    any list, reordered, extended or shortened, returns, and gives each
    item whose word was saved the saved entry, and each other item the
    default entry. *)
Theorem saved_entries_follow_words fs progress data' :
  writable fs = true -> NoDup (map word progress) ->
  exists loaded,
    load_progress (save_progress progress fs) data' = Ok loaded /\
    forall i w,
      data' !! i = Some w ->
      (forall r, r ∈ progress -> word r = item_word w -> loaded !! i = Some r) /\
      (item_word w ∉ map word progress ->
       loaded !! i = Some (default_record (item_word w))).
Proof.
  intros Hw Hnd.
  destruct (load_progress_saved fs progress data' Hw) as (m & Hload & Hm).
  eexists. split; [exact Hload |]. intros i w Hi.
  rewrite map_lookup, Hi. cbn [fmap option_fmap option_map].
  unfold merge_item. rewrite Hm. split.
  - intros r Hr <-. now rewrite (last_with_word_saved _ _ Hnd Hr).
  - intros Hn. rewrite <- stored_words_saved in Hn.
    apply last_with_word_None in Hn. now rewrite Hn.
Qed.

Lemma saved_entries_follow_words_witness :
  let item w := {| simplified := Some w; pinyin := None; english_concise := None |} in
  let ma := {| word := "ma"; weight := 5; streak := 1%Z; avg_time := 1;
               total_time := 2; attempts := 2%Z; correct := 1%Z |} in
  let niu := {| word := "niu"; weight := 7; streak := 0%Z; avg_time := 2;
                total_time := 2; attempts := 1%Z; correct := 0%Z |} in
  let fs := {| progress_file := None; writable := true |} in
  exists loaded,
    load_progress (save_progress [ma; niu] fs)
      [item "yang"; item "niu"; item "ma"]%string = Ok loaded /\
    loaded !! 0%nat = Some (default_record "yang") /\ loaded !! 1%nat = Some niu.
Proof.
  cbv beta zeta.
  match goal with
  | |- exists loaded, load_progress (save_progress [?ma; ?niu] ?fs) ?data = _ /\ _ =>
      assert (Hnd : NoDup (map word [ma; niu]));
        [ simpl; apply NoDup_cons; split;
          [ intros Hin; apply elem_of_cons in Hin as [Hin | Hin];
            [discriminate | now apply elem_of_nil in Hin]
          | apply NoDup_cons; split; [apply not_elem_of_nil | apply NoDup_nil_2] ]
        | destruct (saved_entries_follow_words fs [ma; niu] data eq_refl Hnd)
            as (loaded & Hload & H);
          exists loaded; split; [exact Hload |]; split;
          [ apply (proj2 (H 0%nat _ eq_refl)); simpl; intros Hin;
            repeat (apply elem_of_cons in Hin as [Hin | Hin]; [discriminate |]);
            now apply elem_of_nil in Hin
          | apply (proj1 (H 1%nat _ eq_refl) niu);
            [apply list_elem_of_further, list_elem_of_here | reflexivity] ] ]
  end.
Defined.

(** X20: the history of a word that left the vocabulary list is lost at
    the next save.  When a set is saved, loaded against a list without the
    word and saved again, a later load gives the word the default entry,
    whatever the first set held for it; both loads return. *)
Theorem removed_word_starts_over fs fs' progress data' data'' :
  writable fs = true -> writable fs' = true ->
  exists merged loaded,
    load_progress (save_progress progress fs) data' = Ok merged /\
    load_progress (save_progress merged fs') data'' = Ok loaded /\
    forall i w,
      data'' !! i = Some w ->
      item_word w ∉ map item_word data' ->
      loaded !! i = Some (default_record (item_word w)).
Proof.
  intros Hw Hw'.
  destruct (load_progress_saved fs progress data' Hw) as (m & Hmerged & _).
  destruct (load_progress_saved fs' (map (merge_item m) data') data'' Hw')
    as (m' & Hloaded & Hm').
  eexists. eexists. split; [exact Hmerged |]. split; [exact Hloaded |].
  intros i w Hi Hgone.
  rewrite map_lookup, Hi. cbn [fmap option_fmap option_map].
  unfold merge_item. rewrite Hm'.
  assert (Hn : last_with_word (item_word w) (map WithWord (map (merge_item m) data'))
               = None).
  { apply last_with_word_None. rewrite stored_words_saved.
    now rewrite (load_progress_words _ _ _ Hmerged). }
  now rewrite Hn.
Qed.

Lemma removed_word_starts_over_witness :
  let item w := {| simplified := Some w; pinyin := None; english_concise := None |} in
  let ma := {| word := "ma"; weight := 1 # 100; streak := 9%Z; avg_time := 1;
               total_time := 9; attempts := 9%Z; correct := 9%Z |} in
  let fs := {| progress_file := None; writable := true |} in
  exists merged loaded,
    load_progress (save_progress [ma] fs) [item "niu"%string] = Ok merged /\
    load_progress (save_progress merged fs) [item "ma"%string] = Ok loaded /\
    loaded !! 0%nat = Some (default_record "ma").
Proof.
  cbv beta zeta.
  match goal with
  | |- exists merged loaded,
         load_progress (save_progress ?ps ?fs) ?d' = _ /\
         load_progress (save_progress _ ?fs') ?d'' = _ /\ _ =>
      destruct (removed_word_starts_over fs fs' ps d' d'' eq_refl eq_refl)
        as (merged & loaded & H1 & H2 & H)
  end.
  exists merged, loaded. split; [exact H1 |]. split; [exact H2 |].
  apply (H 0%nat _ eq_refl).
  simpl. intros Hin. apply elem_of_cons in Hin as [Hin | Hin];
    [discriminate | now apply elem_of_nil in Hin].
Defined.

(** * Session settings *)

Lemma toggle_known token f : is_Some (toggle token f) <-> known_token token = true.
Proof.
  unfold toggle, known_token.
  destruct (String.eqb token "EC"), (String.eqb token "R"), (String.eqb token "P"),
    (String.eqb token "S"), (String.eqb token "M"); simpl;
    split; intros H; try reflexivity; try (eexists; reflexivity);
    try discriminate; destruct H; discriminate.
Qed.

Lemma validate_loop_toggles tokens f errs :
  "Q"%string ∉ tokens ->
  validate_loop tokens f errs
  = (Some (errs ++ filter (fun t => known_token t = false) tokens), toggled tokens f).
Proof.
  revert f errs. induction tokens as [| token rest IH]; intros f errs Hq.
  - simpl. now rewrite app_nil_r.
  - apply not_elem_of_cons in Hq as [Hne Hq].
    cbn [validate_loop]. apply not_eq_sym, String.eqb_neq in Hne. rewrite Hne.
    unfold toggled. cbn [foldl]. fold (toggled rest).
    rewrite filter_cons.
    destruct (toggle token f) as [f' |] eqn:E.
    + assert (Hk : known_token token = true) by (apply (toggle_known token f); eauto).
      rewrite IH by exact Hq. cbn [default from_option].
      destruct (decide (known_token token = false)); [congruence | reflexivity].
    + assert (Hk : known_token token = false).
      { destruct (known_token token) eqn:K; [| reflexivity].
        apply (toggle_known token f) in K. rewrite E in K. destruct K; discriminate. }
      rewrite IH by exact Hq. cbn [default from_option].
      destruct (decide (known_token token = false)); [| congruence].
      now rewrite <- app_assoc.
Qed.

Lemma toggle_twice token f : default (default f (toggle token f))
                                     (toggle token (default f (toggle token f))) = f.
Proof.
  unfold toggle.
  destruct (String.eqb token "EC"), (String.eqb token "R"), (String.eqb token "P"),
    (String.eqb token "S"), (String.eqb token "M"); destruct f as [[] [] [] [] []];
    reflexivity.
Qed.

Lemma toggle_commute a b f :
  default (default f (toggle a f)) (toggle b (default f (toggle a f)))
  = default (default f (toggle b f)) (toggle a (default f (toggle b f))).
Proof.
  unfold toggle.
  destruct (String.eqb a "EC"), (String.eqb a "R"), (String.eqb a "P"),
    (String.eqb a "S"), (String.eqb a "M");
    destruct (String.eqb b "EC"), (String.eqb b "R"), (String.eqb b "P"),
      (String.eqb b "S"), (String.eqb b "M"); reflexivity.
Qed.

Lemma toggled_cons token tokens f :
  toggled (token :: tokens) f = toggled tokens (default f (toggle token f)).
Proof. reflexivity. Qed.

Lemma toggled_app l1 l2 f : toggled (l1 ++ l2) f = toggled l2 (toggled l1 f).
Proof. unfold toggled. apply foldl_app. Qed.

Lemma toggled_commute token tokens f :
  toggled tokens (default f (toggle token f))
  = default (toggled tokens f) (toggle token (toggled tokens f)).
Proof.
  revert f. induction tokens as [| t rest IH]; intros f; [reflexivity |].
  rewrite !toggled_cons, <- IH. f_equal. apply toggle_commute.
Qed.

Lemma toggled_twice tokens f : toggled tokens (toggled tokens f) = f.
Proof.
  revert f. induction tokens as [| t rest IH]; intros f; [reflexivity |].
  rewrite !toggled_cons, toggled_commute, IH. apply toggle_twice.
Qed.

Lemma validate_tokens_spec tokens f :
  "Q"%string ∉ tokens ->
  validate_tokens tokens f = (Validated (forallb known_token tokens), toggled tokens f).
Proof.
  intros Hq. unfold validate_tokens. rewrite validate_loop_toggles by exact Hq.
  cbn [app]. clear Hq.
  assert (E : filter (fun t => known_token t = false) tokens = []
              <-> forallb known_token tokens = true).
  { induction tokens as [| t rest IH]; [simpl; tauto |].
    rewrite filter_cons. cbn [forallb].
    destruct (known_token t); cbn [andb].
    - destruct (decide (true = false)); [discriminate | exact IH].
    - destruct (decide (false = false)); [| congruence]. split; discriminate. }
  destruct (filter (fun t => known_token t = false) tokens) as [| e errs].
  - now rewrite (proj1 E eq_refl).
  - destruct (forallb known_token tokens); [| reflexivity].
    destruct E as [_ E]. specialize (E eq_refl). discriminate.
Qed.

(** X21: [validate_tokens] toggles before it judges.  For tokens without
    [Q], it accepts exactly when every token is one of [EC], [R], [P],
    [S], [M], but the flags of the known tokens are toggled in any case,
    also when the line is rejected; validating the same tokens a second
    time puts the flags back. *)
Theorem validate_tokens_toggles_anyway tokens f :
  "Q"%string ∉ tokens ->
  validate_tokens tokens f = (Validated (forallb known_token tokens), toggled tokens f) /\
  snd (validate_tokens tokens (snd (validate_tokens tokens f))) = f.
Proof.
  intros Hq. split; [now apply validate_tokens_spec |].
  rewrite !validate_tokens_spec by exact Hq. cbn [snd]. apply toggled_twice.
Qed.

Lemma validate_tokens_toggles_anyway_witness :
  validate_tokens ["R"; "X"]%string initial_flags
  = (Validated false,
     {| g_chinese_to_english := true; g_random_mode := false; g_show_pinyin := true;
        g_show_simplified := true; g_show_meta_data := true |}).
Proof.
  refine (proj1 (validate_tokens_toggles_anyway ["R"; "X"]%string initial_flags _)).
  intros Hin. repeat (apply elem_of_cons in Hin as [Hin | Hin]; [discriminate |]).
  now apply elem_of_nil in Hin.
Defined.

Lemma set_session_settings_rejected rejected rest f :
  Forall (fun line => ("Q"%string ∉ tokenize_input (strip line)) /\
                      forallb known_token (tokenize_input (strip line)) = false)
         rejected ->
  set_session_settings (rejected ++ rest) f
  = set_session_settings rest
      (toggled (concat (map (fun line => tokenize_input (strip line)) rejected)) f).
Proof.
  intros Hall. revert f. induction Hall as [| line rejected [Hq Hk] _ IH]; intros f.
  - reflexivity.
  - cbn [app set_session_settings map concat].
    rewrite (validate_tokens_spec _ f Hq).
    rewrite Hk, IH, toggled_app. reflexivity.
Qed.

(** X22: the settings a session starts with are the toggles of everything
    typed at the settings prompt, the rejected lines included.  When the
    learner types lines that are rejected and then a line that is accepted
    (none with [Q]), the flags are those toggled by the tokens of all
    these lines; in particular a line that only holds white space or
    dashes is accepted and changes nothing. *)
Theorem settings_are_all_toggles rejected accepted rest f :
  Forall (fun line => ("Q"%string ∉ tokenize_input (strip line)) /\
                      forallb known_token (tokenize_input (strip line)) = false)
         rejected ->
  "Q"%string ∉ tokenize_input (strip accepted) ->
  forallb known_token (tokenize_input (strip accepted)) = true ->
  set_session_settings (rejected ++ accepted :: rest) f
  = (Configured,
     toggled (concat (map (fun line => tokenize_input (strip line))
                          (rejected ++ [accepted]))) f,
     rest) /\
  (tokenize_input (strip accepted) = [] ->
   set_session_settings (accepted :: rest) f = (Configured, f, rest)).
Proof.
  intros Hrej Hq Hk.
  assert (Hone : forall g, set_session_settings (accepted :: rest) g
                           = (Configured, toggled (tokenize_input (strip accepted)) g, rest)).
  { intros g. cbn [set_session_settings].
    rewrite (validate_tokens_spec _ g Hq). now rewrite Hk. }
  split.
  - rewrite (set_session_settings_rejected _ _ _ Hrej), Hone.
    rewrite map_app, concat_app, toggled_app. cbn [map concat].
    now rewrite app_nil_r.
  - intros Hnil. rewrite Hone, Hnil. reflexivity.
Qed.

Lemma settings_are_all_toggles_witness :
  set_session_settings ["-r -x"; "-r"; "ma3"]%string initial_flags
  = (Configured, initial_flags, ["ma3"]%string).
Proof.
  refine (proj1 (settings_are_all_toggles ["-r -x"]%string "-r"%string
                   ["ma3"]%string initial_flags _ _ _)).
  - repeat constructor.
    intros Hin. vm_compute in Hin.
    repeat (apply elem_of_cons in Hin as [Hin | Hin]; [discriminate |]).
    now apply elem_of_nil in Hin.
  - intros Hin. vm_compute in Hin.
    repeat (apply elem_of_cons in Hin as [Hin | Hin]; [discriminate |]).
    now apply elem_of_nil in Hin.
  - reflexivity.
Defined.

(** * The session *)

Lemma py_getitem_Ok {A} (l : list A) (i : Z) (x : A) :
  py_getitem l i = Ok x -> exists k, py_position l i = Some k /\ l !! k = Some x.
Proof.
  unfold py_getitem. destruct (py_position l i) as [k |]; [| discriminate].
  destruct (l !! k) as [y |] eqn:E; [| discriminate].
  intros [= <-]. now exists k.
Qed.

Lemma turn_counts cfg item io p :
  (0 <= attempts p)%Z ->
  let r := run_quiz_for_item cfg item io p in
  attempts (snd r)
  = (attempts p + match fst r with
                  | Ok Correct | Ok Incorrect | Ok Skipped => 1
                  | _ => 0
                  end)%Z /\
  correct (snd r)
  = (correct p + match fst r with Ok Correct => 1 | _ => 0 end)%Z.
Proof.
  intros Ha. cbv zeta.
  destruct (turn_cases cfg item io p)
    as [(ex & _ & ->) | (answer & _ & [[_ ->] | [[_ ->] | (_ & _ & b & _ & Hrun)]])];
    simpl; try lia.
  cbv zeta in Hrun. rewrite Hrun. unfold graded_entry.
  destruct (Z.eqb_spec (attempts p) (-1)) as [E | E]; [lia |].
  destruct b, (String.eqb (normalize (first_input io)) "-h"); simpl; lia.
Qed.

Lemma foldr_Zadd_insert {A} (f : A -> Z) (l : list A) (k : nat) (x y : A) :
  l !! k = Some y ->
  foldr Z.add 0%Z (map f (<[k := x]> l)) = (foldr Z.add 0 (map f l) - f y + f x)%Z.
Proof.
  revert k. induction l as [| z l IH]; intros k; [discriminate |].
  destruct k as [| k]; simpl.
  - intros [= ->]. lia.
  - intros H. rewrite (IH k H). lia.
Qed.

Lemma sum_int_insert {A} (f : A -> Z) (l : list A) (k : nat) (x y : A) :
  l !! k = Some y ->
  py_sum_int (map f (<[k := x]> l)) = (py_sum_int (map f l) - f y + f x)%Z.
Proof.
  intros H. unfold py_sum_int. rewrite !foldl_Zadd, (foldr_Zadd_insert f l k x y H). lia.
Qed.



Lemma quiz_step_counts cfg data u io s :
  Forall counters_ordered (s_progress s) ->
  let s' := snd (quiz_step cfg data u io s) in
  Forall counters_ordered (s_progress s') /\
  (py_sum_int (map attempts (s_progress s')) - py_sum_int (map attempts (s_progress s))
   = s_attempts s' - s_attempts s)%Z /\
  (py_sum_int (map correct (s_progress s')) - py_sum_int (map correct (s_progress s))
   = s_correct s' - s_correct s)%Z /\
  (0 <= s_correct s' - s_correct s)%Z /\
  (s_correct s' - s_correct s <= s_attempts s' - s_attempts s)%Z.
Proof.
  intros Hall. cbv zeta. unfold quiz_step.
  destruct (get_next_index _ _ _ _ _) as [[index | e] cursor];
    [| simpl; repeat split; (assumption || lia)].
  destruct (py_getitem data index) as [item_data | e];
    [| simpl; repeat split; (assumption || lia)].
  destruct (py_getitem (s_progress s) index) as [item_progress | e] eqn:Ep;
    [| simpl; repeat split; (assumption || lia)].
  apply py_getitem_Ok in Ep as (k & -> & Hk).
  pose proof (Forall_lookup_1 _ _ _ _ Hall Hk) as Hp.
  pose proof (run_quiz_for_item_counters cfg item_data io item_progress Hp) as Hp'.
  destruct Hp as (Hs & Hc & Ha).
  pose proof (turn_counts cfg item_data io item_progress ltac:(lia)) as [Hat Hco].
  cbv zeta in Hat, Hco.
  destruct (run_quiz_for_item cfg item_data io item_progress) as [[[| | |] | e] p'];
    cbn [fst snd] in *; cbn [snd s_progress s_attempts s_correct];
    rewrite !(sum_int_insert _ _ _ _ _ Hk);
    (split; [now apply Forall_insert |]); lia.
Qed.


Lemma quiz_loop_counts cfg data events u s :
  Forall counters_ordered (s_progress s) ->
  let s' := snd (quiz_loop cfg data events u s) in
  Forall counters_ordered (s_progress s') /\
  (py_sum_int (map attempts (s_progress s')) - py_sum_int (map attempts (s_progress s))
   = s_attempts s' - s_attempts s)%Z /\
  (py_sum_int (map correct (s_progress s')) - py_sum_int (map correct (s_progress s))
   = s_correct s' - s_correct s)%Z /\
  (0 <= s_correct s' - s_correct s)%Z /\
  (s_correct s' - s_correct s <= s_attempts s' - s_attempts s)%Z.
Proof.
  revert s. induction events as [| [u' io] rest IH]; intros s Hall; cbv zeta.
  - cbn [quiz_loop].
    destruct (get_next_index _ _ _ _ _) as [[index | e] cursor];
      [destruct (py_getitem data index), (py_getitem (s_progress s) index) |];
      simpl; repeat split; (assumption || lia).
  - cbn [quiz_loop].
    pose proof (quiz_step_counts cfg data u' io s Hall) as (H1 & H2 & H3 & H4 & H5).
    cbv zeta in H1, H2, H3, H4, H5.
    destruct (quiz_step cfg data u' io s) as [[e |] s1]; cbn [snd] in *.
    + repeat split; (assumption || lia).
    + destruct (IH s1 H1) as (K1 & K2 & K3 & K4 & K5). cbv zeta in K1, K2, K3, K4, K5.
      repeat split; (assumption || lia).
Qed.

Lemma validate_loop_exits tokens f errs :
  "Q"%string ∈ tokens -> fst (validate_loop tokens f errs) = None.
Proof.
  revert f errs. induction tokens as [| token rest IH]; intros f errs Hq.
  - now apply elem_of_nil in Hq.
  - cbn [validate_loop]. destruct (String.eqb_spec token "Q") as [E | E]; [reflexivity |].
    apply elem_of_cons in Hq as [Hq | Hq]; [congruence |].
    destruct (toggle token f); now apply IH.
Qed.





(** Every run of the settings prompt ends with an accepted line, or
    consists of rejected lines after which the learner interrupts or types
    a line that holds [Q]. *)
Lemma set_session_settings_cases lines f :
  (exists flags rest, set_session_settings lines f = (Configured, flags, rest)) \/
  (exists rejected rest,
     lines = rejected ++ rest /\
     Forall (fun line => ("Q"%string ∉ tokenize_input (strip line)) /\
                         forallb known_token (tokenize_input (strip line)) = false)
            rejected /\
     (rest = [] \/
      exists line rest', rest = line :: rest' /\
                         "Q"%string ∈ tokenize_input (strip line))).
Proof.
  revert f. induction lines as [| line lines IH]; intros f.
  - right. exists [], []. split; [reflexivity |]. split; [constructor | now left].
  - destruct (decide ("Q"%string ∈ tokenize_input (strip line))) as [Hq | Hq].
    + right. exists [], (line :: lines). split; [reflexivity |].
      split; [constructor |]. right. now exists line, lines.
    + cbn [set_session_settings]. rewrite (validate_tokens_spec _ f Hq).
      destruct (forallb known_token (tokenize_input (strip line))) eqn:Hk.
      * left. eauto.
      * destruct (IH (toggled (tokenize_input (strip line)) f))
          as [Hc | (rejected & rest & -> & Hrej & Hrest)]; [now left |].
        right. exists (line :: rejected), rest. split; [reflexivity |].
        split; [constructor; [now split | exact Hrej] | exact Hrest].
Qed.

Lemma set_session_settings_left rejected rest f :
  Forall (fun line => ("Q"%string ∉ tokenize_input (strip line)) /\
                      forallb known_token (tokenize_input (strip line)) = false)
         rejected ->
  rest = [] \/
  (exists line rest', rest = line :: rest' /\
                      "Q"%string ∈ tokenize_input (strip line)) ->
  fst (fst (set_session_settings (rejected ++ rest) f)) <> Configured.
Proof.
  intros Hrej Hrest. rewrite (set_session_settings_rejected _ _ _ Hrej).
  destruct Hrest as [-> | (line & rest' & -> & Hq)]; [discriminate |].
  cbn [set_session_settings]. unfold validate_tokens.
  pose proof (validate_loop_exits _
                (toggled (concat (map (fun line => tokenize_input (strip line)) rejected)) f)
                [] Hq) as Hx.
  destruct (validate_loop _ _ _) as [[errs |] f']; discriminate.
Qed.

(** X24: leaving at the settings prompt does not end [main] cleanly.
    When the learner, after any number of rejected lines, types a line
    that holds [Q] or interrupts, the progress list is saved as it was
    loaded and then the [finally] block reads [start_total_time], which was
    never assigned: [main] ends with an uncaught [UnboundLocalError] and
    shows no summary.  These are the only sessions that end so. *)
Theorem quitting_at_settings_is_uncaught fs data loaded events u :
  load_progress fs data = Ok loaded ->
  (forall rejected rest,
     Forall (fun line => ("Q"%string ∉ tokenize_input (strip line)) /\
                         forallb known_token (tokenize_input (strip line)) = false)
            rejected ->
     rest = [] \/
     (exists line rest', rest = line :: rest' /\
                         "Q"%string ∈ tokenize_input (strip line)) ->
     let r := main fs (Some data) (rejected ++ rest) events u in
     ending_of r = Uncaught UnboundLocalError /\
     shown r = None /\
     last_progress r = Some loaded /\
     final_fs r = save_progress loaded fs) /\
  (forall lines,
     ending_of (main fs (Some data) lines events u) = Uncaught UnboundLocalError ->
     exists rejected rest,
       lines = rejected ++ rest /\
       Forall (fun line => ("Q"%string ∉ tokenize_input (strip line)) /\
                           forallb known_token (tokenize_input (strip line)) = false)
              rejected /\
       (rest = [] \/
        exists line rest', rest = line :: rest' /\
                           "Q"%string ∈ tokenize_input (strip line))).
Proof.
  intros Hload. split.
  - intros rejected rest Hrej Hrest. cbv zeta.
    pose proof (set_session_settings_left rejected rest initial_flags Hrej Hrest) as Hend.
    unfold main. rewrite Hload.
    destruct (set_session_settings (rejected ++ rest) initial_flags)
      as [[[| |] flags] rest'];
      cbn [fst] in Hend; [contradiction | |]; repeat split.
  - intros lines Hend.
    destruct (set_session_settings_cases lines initial_flags)
      as [(flags & rest & Hc) | Hleft]; [| exact Hleft].
    exfalso. revert Hend. unfold main. rewrite Hload, Hc.
    destruct (get_session_metadata loaded) as [sp st].
    destruct (quiz_loop _ _ _ _ _) as [e s].
    destruct (get_session_metadata (s_progress s)) as [ep et].
    cbn [ending_of]. destruct e; discriminate.
Qed.

Lemma quitting_at_settings_is_uncaught_witness :
  let item := {| simplified := Some "ma"%string; pinyin := None;
                 english_concise := Some "horse"%string |} in
  let fs := {| progress_file := None; writable := true |} in
  ending_of (main fs (Some [item]) ["-x"; "-r -q"; "ma"]%string [] 0)
  = Uncaught UnboundLocalError.
Proof.
  cbv zeta.
  refine (proj1 (proj1 (quitting_at_settings_is_uncaught
                          {| progress_file := None; writable := true |}
                          [ {| simplified := Some "ma"%string; pinyin := None;
                               english_concise := Some "horse"%string |} ]
                          [default_record "ma"] [] 0 eq_refl)
                   ["-x"]%string ["-r -q"; "ma"]%string _ _)).
  - repeat constructor.
    intros Hin. vm_compute in Hin.
    repeat (apply elem_of_cons in Hin as [Hin | Hin]; [discriminate |]).
    now apply elem_of_nil in Hin.
  - right. exists "-r -q"%string, ["ma"%string]. split; [reflexivity |].
    vm_compute. apply list_elem_of_further, list_elem_of_here.
Defined.

Lemma main_counts fs data lines events u loaded summary :
  load_progress fs data = Ok loaded ->
  Forall counters_ordered loaded ->
  shown (main fs (Some data) lines events u) = Some summary ->
  overall_total_attempts summary
  = (py_sum_int (map attempts loaded) + shown_attempts summary)%Z /\
  overall_total_correct summary
  = (py_sum_int (map correct loaded) + shown_correct summary)%Z /\
  (0 <= shown_correct summary)%Z /\ (shown_correct summary <= shown_attempts summary)%Z.
Proof.
  intros Hload Hall. unfold main. rewrite Hload.
  destruct (set_session_settings lines initial_flags) as [[[| |] flags] rest];
    [| discriminate | discriminate].
  destruct (get_session_metadata loaded) as [sp st].
  pose proof (quiz_loop_counts (settings_of flags) data events u
                {| s_progress := loaded; s_cursor := 0%Z;
                   s_correct := 0%Z; s_attempts := 0%Z |} Hall)
    as (_ & H2 & H3 & H4 & H5).
  cbv zeta in H2, H3, H4, H5.
  destruct (quiz_loop _ _ _ _ _) as [e s]. cbn [snd s_progress s_correct s_attempts] in *.
  destruct (get_session_metadata (s_progress s)) as [ep et] eqn:Em.
  cbn [shown]. intros [= <-]. unfold display_session_summary. rewrite Em.
  cbn [overall_total_attempts overall_total_correct shown_attempts shown_correct].
  lia.
Qed.

(** X25: the counters of the session agree with the entries.  When no two
    items share a word and the loaded entries have ordered counters, the
    summary's total of attempts over all entries is the total at the start
    plus the attempts counted in the session, likewise for the correct
    answers, and the session never counts more correct answers than
    attempts. *)
Theorem session_counts_match_entries fs data lines events u loaded summary :
  NoDup (map item_word data) ->
  load_progress fs data = Ok loaded ->
  Forall counters_ordered loaded ->
  shown (main fs (Some data) lines events u) = Some summary ->
  overall_total_attempts summary
  = (py_sum_int (map attempts loaded) + shown_attempts summary)%Z /\
  overall_total_correct summary
  = (py_sum_int (map correct loaded) + shown_correct summary)%Z /\
  (0 <= shown_correct summary)%Z /\ (shown_correct summary <= shown_attempts summary)%Z.
Proof.
  intros _. apply main_counts.
Qed.

Lemma default_progress_counters data :
  Forall counters_ordered (get_default_progress data).
Proof.
  unfold get_default_progress. apply Forall_forall. intros r Hr.
  apply list_elem_of_In, in_map_iff in Hr as (w & <- & _).
  repeat split; simpl; lia.
Qed.

Lemma default_progress_sums data :
  py_sum_int (map attempts (get_default_progress data)) = 0%Z /\
  py_sum_int (map correct (get_default_progress data)) = 0%Z.
Proof.
  unfold py_sum_int. rewrite !foldl_Zadd. unfold get_default_progress.
  induction data as [| w data [IH1 IH2]]; simpl in *; lia.
Qed.

(** X26: in a first session the overall figures are the session's.  When
    there is no progress file and no two items share a word, the summary
    shows the same totals of correct answers and attempts, and the same
    accuracy, for the session and overall. *)
Theorem first_session_overall_is_session fs data lines events u summary :
  progress_file fs = None ->
  NoDup (map item_word data) ->
  shown (main fs (Some data) lines events u) = Some summary ->
  overall_total_attempts summary = shown_attempts summary /\
  overall_total_correct summary = shown_correct summary /\
  overall_accuracy summary == session_accuracy summary.
Proof.
  intros Hnone _ Hshown.
  assert (Hload : load_progress fs data = Ok (get_default_progress data)).
  { unfold load_progress. now rewrite Hnone. }
  destruct (main_counts fs data lines events u _ summary Hload) as (Ha & Hc & _);
    [apply default_progress_counters | exact Hshown |].
  destruct (default_progress_sums data) as [E1 E2]. rewrite E1 in Ha. rewrite E2 in Hc.
  split; [lia |]. split; [lia |].
  revert Hshown Ha Hc. unfold main. rewrite Hload.
  destruct (set_session_settings lines initial_flags) as [[[| |] flags] rest];
    [| discriminate | discriminate].
  destruct (get_session_metadata (get_default_progress data)) as [sp st].
  destruct (quiz_loop _ _ _ _ _) as [e s].
  destruct (get_session_metadata (s_progress s)) as [ep et] eqn:Em.
  cbn [shown]. intros [= <-]. unfold display_session_summary. rewrite Em.
  cbn [overall_total_attempts overall_total_correct shown_attempts shown_correct
       overall_accuracy session_accuracy].
  intros -> ->. reflexivity.
Qed.

Lemma session_counts_match_entries_witness :
  let item w := {| simplified := Some w; pinyin := Some (PinyinStr "ma3");
                   english_concise := Some "horse"%string |} in
  let stored := {| word := "ma"; weight := 5; streak := 1%Z; avg_time := 1;
                   total_time := 4; attempts := 4%Z; correct := 2%Z |} in
  let fs := {| progress_file := Some (Parsed [WithWord stored]); writable := true |} in
  let turn line := (1 # 4, {| first_input := line; first_elapsed := 2;
                              hint_input := ""; hint_elapsed := 0 |}) in
  exists summary,
    shown (main fs (Some [item "ma"; item "niu"]%string) [""]%string
             [turn "ma3"; turn "-s"; turn "niu2"]%string 0) = Some summary /\
    overall_total_attempts summary = 7%Z /\ shown_attempts summary = 3%Z.
Proof.
  cbv beta zeta. eexists. split; [vm_compute; reflexivity |].
  match goal with
  | |- overall_total_attempts ?s = _ /\ _ =>
      destruct (session_counts_match_entries
                  {| progress_file := Some (Parsed
                       [WithWord {| word := "ma"; weight := 5; streak := 1%Z;
                                    avg_time := 1; total_time := 4; attempts := 4%Z;
                                    correct := 2%Z |}]);
                     writable := true |}
                  [ {| simplified := Some "ma"%string; pinyin := Some (PinyinStr "ma3");
                       english_concise := Some "horse"%string |};
                    {| simplified := Some "niu"%string; pinyin := Some (PinyinStr "ma3");
                       english_concise := Some "horse"%string |} ]
                  [""]%string
                  (map (fun line => (1 # 4, {| first_input := line; first_elapsed := 2;
                                               hint_input := ""; hint_elapsed := 0 |}))
                       ["ma3"; "-s"; "niu2"]%string)
                  0
                  [ {| word := "ma"; weight := 5; streak := 1%Z; avg_time := 1;
                       total_time := 4; attempts := 4%Z; correct := 2%Z |};
                    default_record "niu" ]
                  s) as (Ha & _)
  end.
  - simpl. apply NoDup_cons. split.
    + intros Hin. apply elem_of_cons in Hin as [Hin | Hin];
        [discriminate | now apply elem_of_nil in Hin].
    + apply NoDup_cons. split; [apply not_elem_of_nil | apply NoDup_nil_2].
  - vm_compute. reflexivity.
  - repeat constructor; simpl; lia.
  - vm_compute. reflexivity.
  - split; [rewrite Ha |]; reflexivity.
Defined.

Lemma first_session_overall_is_session_witness :
  let item := {| simplified := Some "ma"%string; pinyin := Some (PinyinStr "ma3");
                 english_concise := Some "horse"%string |} in
  let fs := {| progress_file := None; writable := true |} in
  let turn line := (1 # 4, {| first_input := line; first_elapsed := 2;
                              hint_input := ""; hint_elapsed := 0 |}) in
  exists summary,
    shown (main fs (Some [item]) [""]%string [turn "ma3"; turn "niu2"]%string 0)
    = Some summary /\
    overall_accuracy summary == session_accuracy summary.
Proof.
  cbv beta zeta. eexists. split; [vm_compute; reflexivity |].
  match goal with
  | |- overall_accuracy ?s == _ =>
      refine (proj2 (proj2 (first_session_overall_is_session
                {| progress_file := None; writable := true |}
                [ {| simplified := Some "ma"%string; pinyin := Some (PinyinStr "ma3");
                     english_concise := Some "horse"%string |} ]
                [""]%string
                (map (fun line => (1 # 4, {| first_input := line; first_elapsed := 2;
                                             hint_input := ""; hint_elapsed := 0 |}))
                     ["ma3"; "niu2"]%string)
                0 s eq_refl _ _)))
  end.
  - simpl. apply NoDup_cons. split; [apply not_elem_of_nil | apply NoDup_nil_2].
  - vm_compute. reflexivity.
Defined.

Lemma quiz_step_keeps (I : ProgressRecord -> Prop) cfg data u io s :
  (forall item io', preserves I (run_quiz_for_item cfg item io')) ->
  Forall I (s_progress s) ->
  Forall I (s_progress (snd (quiz_step cfg data u io s))).
Proof.
  intros Hpres Hall. unfold quiz_step.
  destruct (get_next_index _ _ _ _ _) as [[index | e] cursor]; [| exact Hall].
  destruct (py_getitem data index) as [item_data | e]; [| exact Hall].
  destruct (py_getitem (s_progress s) index) as [item_progress | e] eqn:Ep; [| exact Hall].
  apply py_getitem_Ok in Ep as (k & -> & Hk).
  pose proof (Hpres item_data io item_progress (Forall_lookup_1 _ _ _ _ Hall Hk)) as Hp'.
  destruct (run_quiz_for_item cfg item_data io item_progress) as [[[| | |] | e] p'];
    cbn [snd s_progress] in *; now apply Forall_insert.
Qed.

Lemma quiz_loop_keeps (I : ProgressRecord -> Prop) cfg data events u s :
  (forall item io', preserves I (run_quiz_for_item cfg item io')) ->
  Forall I (s_progress s) ->
  Forall I (s_progress (snd (quiz_loop cfg data events u s))).
Proof.
  intros Hpres. revert s. induction events as [| [u' io] rest IH]; intros s Hall.
  - cbn [quiz_loop].
    destruct (get_next_index _ _ _ _ _) as [[index | e] cursor];
      [destruct (py_getitem data index), (py_getitem (s_progress s) index) |];
      exact Hall.
  - cbn [quiz_loop]. pose proof (quiz_step_keeps I cfg data u' io s Hpres Hall) as Hstep.
    destruct (quiz_step cfg data u' io s) as [[e |] s']; cbn [snd] in *.
    + exact Hstep.
    + now apply IH.
Qed.

(** X27: what [main] writes is well formed when what it loaded was.  In a
    first session, or when every loaded entry has its weight within the
    bounds and its counters ordered, so has every entry of the list [main]
    saves, whatever the settings, the draws and the turns, and however the
    session ends. *)
Theorem main_saves_well_formed_entries fs data lines events u progress :
  progress_file fs = None \/
  (exists loaded,
     load_progress fs data = Ok loaded /\
     Forall (fun p => weight_in_range p /\ counters_ordered p) loaded) ->
  last_progress (main fs (Some data) lines events u) = Some progress ->
  Forall (fun p => weight_in_range p /\ counters_ordered p) progress.
Proof.
  intros Hstart Hlast.
  assert (Hall : exists loaded,
            load_progress fs data = Ok loaded /\
            Forall (fun p => weight_in_range p /\ counters_ordered p) loaded).
  { destruct Hstart as [Hnone | Hall]; [| exact Hall].
    exists (get_default_progress data). split; [unfold load_progress; now rewrite Hnone |].
    unfold get_default_progress. apply Forall_forall. intros r Hr.
    apply list_elem_of_In, in_map_iff in Hr as (w & <- & _).
    split; [unfold weight_in_range; simpl; unfold MIN_WEIGHT, MAX_WEIGHT; lra |].
    repeat split; simpl; lia. }
  destruct Hall as (loaded & Hload & Hall).
  assert (Hpres : forall cfg item io,
            preserves (fun p => weight_in_range p /\ counters_ordered p)
                      (run_quiz_for_item cfg item io)).
  { intros cfg item io p [Hw Hc]. split.
    - apply (run_quiz_for_item_bounded cfg item io p). split; [exact Hw | apply Hc].
    - now apply run_quiz_for_item_counters. }
  revert Hlast. unfold main. rewrite Hload.
  destruct (set_session_settings lines initial_flags) as [[[| |] flags] rest];
    [| cbn; intros [= <-]; exact Hall | cbn; intros [= <-]; exact Hall].
  destruct (get_session_metadata loaded) as [sp st].
  pose proof (quiz_loop_keeps _ (settings_of flags) data events u
                {| s_progress := loaded; s_cursor := 0%Z;
                   s_correct := 0%Z; s_attempts := 0%Z |}
                (Hpres (settings_of flags)) Hall) as Hkeep.
  destruct (quiz_loop _ _ _ _ _) as [e s]. cbn [snd] in Hkeep.
  destruct (get_session_metadata (s_progress s)) as [ep et].
  cbn. intros [= <-]. exact Hkeep.
Qed.

Lemma main_saves_well_formed_entries_witness :
  let item := {| simplified := Some "ma"%string; pinyin := Some (PinyinStr "ma3");
                 english_concise := Some "horse"%string |} in
  let fs := {| progress_file := None; writable := true |} in
  let turn line := (1 # 4, {| first_input := line; first_elapsed := 2;
                              hint_input := "ma"; hint_elapsed := 1 |}) in
  exists progress,
    last_progress (main fs (Some [item]) ["-r"]%string
                     [turn "-h"; turn "-s"; turn "niu2"]%string 0) = Some progress /\
    Forall (fun p => weight_in_range p /\ counters_ordered p) progress.
Proof.
  cbv beta zeta. eexists. split; [vm_compute; reflexivity |].
  match goal with
  | |- Forall _ ?progress =>
      apply (main_saves_well_formed_entries
               {| progress_file := None; writable := true |}
               [ {| simplified := Some "ma"%string; pinyin := Some (PinyinStr "ma3");
                    english_concise := Some "horse"%string |} ]
               ["-r"]%string
               (map (fun line => (1 # 4, {| first_input := line; first_elapsed := 2;
                                            hint_input := "ma"; hint_elapsed := 1 |}))
                    ["-h"; "-s"; "niu2"]%string)
               0 progress)
  end.
  - left. reflexivity.
  - vm_compute. reflexivity.
Defined.

Lemma quiz_loop_empty cfg events u :
  quiz_loop cfg [] events u
    {| s_progress := []; s_cursor := 0%Z; s_correct := 0%Z; s_attempts := 0%Z |}
  = (Crashed (if random_mode cfg then IndexError else ZeroDivisionError),
     {| s_progress := []; s_cursor := 0%Z; s_correct := 0%Z; s_attempts := 0%Z |}).
Proof.
  destruct events as [| [u' io] events']; cbn [quiz_loop]; unfold quiz_step;
    unfold get_next_index; cbn [length Z.of_nat];
    destruct (random_mode cfg); reflexivity.
Qed.

Lemma load_progress_empty fs loaded :
  load_progress fs [] = Ok loaded -> loaded = [].
Proof.
  intros Hload. apply load_progress_words in Hload. now destruct loaded.
Qed.

(** X28: an empty vocabulary ends the session at the first selection.
    When the vocabulary list is empty, the store can be loaded and the
    settings are accepted, no turn is played: the selection raises
    ([IndexError] in random mode, [ZeroDivisionError] in sequential mode),
    the empty progress list is saved, the summary shows proficiency 0 and
    no attempts, and the exception leaves [main] uncaught. *)
Theorem empty_vocabulary_ends_session fs lines events u flags rest loaded :
  load_progress fs [] = Ok loaded ->
  set_session_settings lines initial_flags = (Configured, flags, rest) ->
  let r := main fs (Some []) lines events u in
  ending_of r = Uncaught (QuizError (if g_random_mode flags
                                     then IndexError else ZeroDivisionError)) /\
  last_progress r = Some [] /\
  final_fs r = save_progress [] fs /\
  exists summary,
    shown r = Some summary /\
    end_proficiency summary = 0 /\ shown_attempts summary = 0%Z /\
    total_words summary = 0%nat.
Proof.
  intros Hload Hset. cbv zeta. unfold main.
  rewrite (load_progress_empty _ _ Hload) in Hload. rewrite Hload, Hset.
  cbn [get_session_metadata]. rewrite quiz_loop_empty.
  cbn. repeat split. eexists. repeat split.
Qed.

Lemma empty_vocabulary_ends_session_witness :
  let fs := {| progress_file := None; writable := true |} in
  ending_of (main fs (Some []) ["-r"]%string [] 0) = Uncaught (QuizError ZeroDivisionError).
Proof.
  cbv zeta.
  exact (proj1 (empty_vocabulary_ends_session
                  {| progress_file := None; writable := true |}
                  ["-r"]%string [] 0 _ [] [] eq_refl eq_refl)).
Defined.

Lemma turn_counted cfg item io p st :
  fst (run_quiz_for_item cfg item io p) = Ok st ->
  attempts (snd (run_quiz_for_item cfg item io p))
  = (attempts p + match st with Quit => 0 | _ => 1 end)%Z.
Proof.
  destruct (turn_cases cfg item io p)
    as [(ex & _ & ->) | (answer & _ & [[_ ->] | [[_ ->] | (_ & _ & b & _ & Hrun)]])];
    simpl; try discriminate; try (intros [= <-]; simpl; lia).
  cbv zeta in Hrun. rewrite Hrun. unfold graded_entry.
  destruct (Z.eqb (attempts p) (-1)); [discriminate |].
  destruct b, (String.eqb (normalize (first_input io)) "-h"); simpl;
    intros [= <-]; lia.
Qed.

Lemma py_position_in_range {A} (l : list A) (c : nat) :
  (c < length l)%nat -> py_position l (Z.of_nat c) = Some c.
Proof.
  intros Hc. unfold py_position.
  destruct (Z.leb_spec 0 (Z.of_nat c)); [| lia].
  destruct (Z.ltb_spec (Z.of_nat c) (Z.of_nat (length l))); [| lia].
  cbn [andb]. now rewrite Nat2Z.id.
Qed.

(** In sequential mode, turns played from cursor [c] without reaching the
    end of the list count one attempt for each place they pass. *)
Lemma sequential_stretch cfg data events u s (c : nat) :
  random_mode cfg = false ->
  s_cursor s = Z.of_nat c ->
  length (s_progress s) = length data ->
  (c + length events <= length data)%nat ->
  fst (quiz_loop cfg data events u s) = Interrupted ->
  forall j p,
    s_progress s !! j = Some p ->
    exists p',
      s_progress (snd (quiz_loop cfg data events u s)) !! j = Some p' /\
      attempts p'
      = (attempts p + if decide (c <= j < c + length events)%nat then 1 else 0)%Z.
Proof.
  intros Hmode. revert s c.
  induction events as [| [u' io] rest IH]; intros s c Hcur Hlen Hfit Hend j p Hj.
  - exists p. cbn [quiz_loop] in *.
    destruct (get_next_index _ _ _ _ _) as [[index | e] cursor]; [| discriminate].
    split.
    + destruct (py_getitem data index), (py_getitem (s_progress s) index); exact Hj.
    + destruct (decide (c <= j < c + length (@nil (Q * TurnIO)))%nat) as [H | H];
        [simpl in H; lia | lia].
  - cbn [length] in Hfit. cbn [quiz_loop] in Hend |- *.
    assert (Hc : (c < length data)%nat) by lia.
    unfold quiz_step in Hend |- *. unfold get_next_index in Hend |- *.
    rewrite Hmode, Hcur in Hend |- *.
    destruct (Z.eqb_spec (Z.of_nat (length data)) 0) as [E | E]; [lia |].
    unfold py_getitem in Hend |- *.
    rewrite (py_position_in_range data c Hc) in Hend |- *.
    rewrite (py_position_in_range (s_progress s) c) in Hend |- * by lia.
    destruct (lookup_lt_is_Some_2 data c Hc) as [item Hitem].
    destruct (lookup_lt_is_Some_2 (s_progress s) c ltac:(lia)) as [q Hq].
    rewrite Hitem, Hq in Hend |- *.
    pose proof (turn_counted cfg item io q) as Hcount.
    destruct (run_quiz_for_item cfg item io q) as [[st | e] q'] eqn:Erun;
      [| discriminate].
    specialize (Hcount st eq_refl). cbn [snd] in Hcount.
    set (c' := Z.to_nat ((Z.of_nat c + 1) mod Z.of_nat (length data))).
    assert (Hc' : ((Z.of_nat c + 1) mod Z.of_nat (length data))%Z = Z.of_nat c').
    { unfold c'. rewrite Z2Nat.id; [reflexivity |].
      apply Z.mod_pos_bound. lia. }
    assert (Hfit' : (c' + length rest <= length data)%nat /\
                    (rest <> [] -> c' = S c)).
    { destruct (Nat.eq_dec (S c) (length data)) as [Efull | Enot].
      - assert (length rest = 0)%nat by lia.
        assert (c' = 0)%nat.
        { unfold c'. replace (Z.of_nat c + 1)%Z with (Z.of_nat (length data)) by lia.
          now rewrite Z.mod_same by lia. }
        split; [lia |]. destruct rest; [congruence | simpl in *; lia].
      - assert (c' = S c).
        { unfold c'. rewrite Z.mod_small by lia. lia. }
        split; [lia | auto]. }
    destruct Hfit' as [Hfit' Hnext].
    assert (Hstep : forall s1,
              s_progress s1 = <[c := q']> (s_progress s) ->
              s_cursor s1 = Z.of_nat c' ->
              fst (quiz_loop cfg data rest u s1) = Interrupted ->
              exists p',
                s_progress (snd (quiz_loop cfg data rest u s1)) !! j = Some p' /\
                attempts p'
                = (attempts p + if decide (c <= j < c + S (length rest))%nat
                                then 1 else 0)%Z).
    { intros s1 Hp1 Hc1 Hend1.
      destruct (decide (j = c)) as [-> | Hjc].
      - assert (Hj1 : s_progress s1 !! c = Some q').
        { rewrite Hp1. apply list_lookup_insert_eq. now apply lookup_lt_Some in Hq. }
        destruct (IH s1 c' Hc1 ltac:(rewrite Hp1, length_insert; lia) Hfit' Hend1
                    c q' Hj1) as (p' & Hp' & Hat).
        exists p'. split; [exact Hp' |]. rewrite Hat.
        assert (q = p) by congruence. subst q.
        destruct st; try discriminate;
          destruct (decide (c' <= c < c' + length rest)%nat) as [H | H];
          destruct (decide (c <= c < c + S (length rest))%nat) as [H' | H'];
          try lia;
          (destruct rest; [simpl in H; lia | specialize (Hnext ltac:(discriminate)); lia]).
      - assert (Hj1 : s_progress s1 !! j = Some p).
        { rewrite Hp1, list_lookup_insert_ne by congruence. exact Hj. }
        destruct (IH s1 c' Hc1 ltac:(rewrite Hp1, length_insert; lia) Hfit' Hend1
                    j p Hj1) as (p' & Hp' & Hat).
        exists p'. split; [exact Hp' |]. rewrite Hat.
        destruct (decide (c' <= j < c' + length rest)%nat) as [H | H];
          destruct (decide (c <= j < c + S (length rest))%nat) as [H' | H'];
          try lia;
          destruct rest; simpl in *; try lia;
          specialize (Hnext ltac:(discriminate)); lia. }
    destruct st; try discriminate; cbn [fst snd] in *;
      (apply Hstep; [reflexivity | cbn [s_cursor]; exact Hc' | exact Hend]).
Qed.

(** X29: in sequential mode one pass is one attempt for every entry.  If,
    starting from the first item, the learner plays exactly as many turns
    as there are items and none of them quits or raises, then every entry
    of the progress list (no word twice, so that the entries are separate
    objects) has exactly one more attempt than before. *)
Theorem sequential_pass_attempts_each_once cfg data events u s :
  random_mode cfg = false ->
  NoDup (map word (s_progress s)) ->
  s_cursor s = 0%Z ->
  length (s_progress s) = length data ->
  length events = length data ->
  fst (quiz_loop cfg data events u s) = Interrupted ->
  forall j p,
    s_progress s !! j = Some p ->
    exists p',
      s_progress (snd (quiz_loop cfg data events u s)) !! j = Some p' /\
      attempts p' = (attempts p + 1)%Z.
Proof.
  intros Hmode _ Hcur Hlen Hev Hend j p Hj.
  destruct (sequential_stretch cfg data events u s 0 Hmode Hcur Hlen ltac:(lia) Hend j p Hj)
    as (p' & Hp' & Hat).
  exists p'. split; [exact Hp' |]. rewrite Hat.
  apply lookup_lt_Some in Hj.
  destruct (decide (0 <= j < 0 + length events)%nat); lia.
Qed.

Lemma sequential_pass_attempts_each_once_witness :
  let cfg := {| chinese_to_english := true; random_mode := false |} in
  let item w := {| simplified := Some w; pinyin := Some (PinyinStr "ma3");
                   english_concise := None |} in
  let data := [item "ma"; item "niu"]%string in
  let turn line := (0, {| first_input := line; first_elapsed := 1;
                          hint_input := ""; hint_elapsed := 0 |}) in
  let s := {| s_progress := get_default_progress data; s_cursor := 0%Z;
              s_correct := 0%Z; s_attempts := 0%Z |} in
  exists p',
    s_progress (snd (quiz_loop cfg data [turn "ma3"; turn "-s"]%string 0 s)) !! 1%nat
    = Some p' /\
    attempts p' = 1%Z.
Proof.
  cbv beta zeta.
  match goal with
  | |- exists p', s_progress (snd (quiz_loop ?cfg ?data ?events ?u ?s)) !! _ = _ /\ _ =>
      assert (Hnd : NoDup (map word (s_progress s)));
        [ simpl; apply NoDup_cons; split;
          [ intros Hin; apply elem_of_cons in Hin as [Hin | Hin];
            [discriminate | now apply elem_of_nil in Hin]
          | apply NoDup_cons; split; [apply not_elem_of_nil | apply NoDup_nil_2] ]
        | destruct (sequential_pass_attempts_each_once cfg data events u s
                      eq_refl Hnd eq_refl eq_refl eq_refl eq_refl 1%nat
                      (default_record "niu") eq_refl) as (p' & Hp' & Hat) ]
  end.
  exists p'. split; [exact Hp' | exact Hat].
Defined.

(** * Tokens *)

Lemma split_forall (test : ascii -> bool) (s : string) :
  string_forall (fun c => is_space c || test c)%bool s = true ->
  Forall (fun t => t <> EmptyString /\
                   string_forall (fun c => negb (is_space c) && test c)%bool t = true)
         (split s).
Proof.
  induction s as [| c s IH]; intros H; [constructor |].
  cbn [string_forall] in H. apply andb_true_iff in H as [Hc Hs].
  specialize (IH Hs). cbn [split].
  destruct (is_space c) eqn:Ec; [exact IH |]. cbn [orb] in Hc.
  assert (Hone : String c EmptyString <> EmptyString /\
                 string_forall (fun c0 => negb (is_space c0) && test c0)%bool
                   (String c EmptyString) = true).
  { split; [discriminate |]. cbn [string_forall]. now rewrite Ec, Hc. }
  destruct s as [| c' s']; [now repeat constructor |].
  destruct (is_space c') eqn:Ec'; [now constructor |].
  destruct (split (String c' s')) as [| t ts]; [now repeat constructor |].
  apply Forall_cons in IH as [[Hne Ht] Hts].
  constructor; [| exact Hts]. split; [discriminate |].
  cbn [string_forall]. now rewrite Ec, Hc, Ht.
Qed.

Lemma replace_dashes_forall (s : string) :
  string_forall (fun c => is_space c || negb (Ascii.eqb c "-"))%bool (replace_dashes s)
  = true.
Proof.
  induction s as [| c s IH]; [reflexivity |].
  cbn [replace_dashes string_forall]. rewrite IH, andb_true_r.
  destruct (Ascii.eqb c "-") eqn:E; [reflexivity |]. rewrite E. apply orb_true_r.
Qed.

Lemma upper_char_token c :
  (negb (is_space c) && negb (Ascii.eqb c "-"))%bool = true ->
  token_char (upper_char c) = true.
Proof. destruct c as [[] [] [] [] [] [] [] []]; intros H; (reflexivity || discriminate H). Qed.

Lemma upper_forall t :
  string_forall (fun c => negb (is_space c) && negb (Ascii.eqb c "-"))%bool t = true ->
  string_forall token_char (upper t) = true.
Proof.
  induction t as [| c t IH]; [reflexivity |]. cbn [string_forall upper].
  intros H. apply andb_true_iff in H as [Hc Ht].
  now rewrite (upper_char_token c Hc), (IH Ht).
Qed.

Lemma upper_char_lower c : upper_char (lower_char c) = upper_char c.
Proof. destruct c as [[] [] [] [] [] [] [] []]; reflexivity. Qed.

Lemma upper_lower s : upper (lower s) = upper s.
Proof.
  induction s as [| c s IH]; [reflexivity |]. cbn [lower upper].
  now rewrite upper_char_lower, IH.
Qed.

Lemma replace_dashes_lower s : replace_dashes (lower s) = lower (replace_dashes s).
Proof.
  induction s as [| c s IH]; [reflexivity |]. cbn [lower replace_dashes].
  rewrite IH. f_equal. destruct c as [[] [] [] [] [] [] [] []]; reflexivity.
Qed.

Lemma split_lower s : split (lower s) = map lower (split s).
Proof.
  induction s as [| c s IH]; [reflexivity |].
  cbn [lower split]. rewrite is_space_lower_char.
  destruct (is_space c); [exact IH |].
  destruct s as [| c' s']; [reflexivity |].
  cbn [lower] in *. rewrite is_space_lower_char.
  destruct (is_space c'); [cbn [map]; now rewrite IH |].
  rewrite IH. destruct (split (String c' s')); reflexivity.
Qed.

Lemma lower_empty t : lower t = EmptyString <-> t = EmptyString.
Proof. destruct t; simpl; split; intros H; (reflexivity || discriminate). Qed.

Lemma tokenize_input_lower s : tokenize_input (lower s) = tokenize_input s.
Proof.
  unfold tokenize_input. rewrite replace_dashes_lower, split_lower.
  induction (split (replace_dashes s)) as [| t ts IH]; [reflexivity |].
  cbn [map]. rewrite !filter_cons, strip_lower.
  destruct (decide (lower (strip t) <> EmptyString)) as [H | H];
    destruct (decide (strip t <> EmptyString)) as [H' | H'].
  - cbn [map]. now rewrite upper_lower, IH.
  - exfalso. apply H. destruct (strip t); [reflexivity | exfalso; apply H'; discriminate].
  - exfalso. apply H. intros E. apply H'. now apply (proj1 (lower_empty (strip t))).
  - exact IH.
Qed.

(** X30: what [tokenize_input] hands to [validate_tokens].  Every token is
    not empty and holds no white space, no dash and no small letter, so a
    flag is recognized however it is typed: with or without dashes, in any
    letter case (two lines that differ only in letter case give the same
    tokens); a line of white space and dashes gives no token. *)
Theorem tokens_are_clean (s : string) :
  Forall (fun t => t <> EmptyString /\ string_forall token_char t = true)
         (tokenize_input s) /\
  (forall s', lower s = lower s' -> tokenize_input s = tokenize_input s') /\
  (string_forall (fun c => is_space c || Ascii.eqb c "-")%bool s = true ->
   tokenize_input s = []).
Proof.
  split; [| split].
  - unfold tokenize_input.
    pose proof (split_forall _ _ (replace_dashes_forall s)) as Hsplit.
    induction Hsplit as [| t ts [Hne Ht] _ IH]; [constructor |].
    rewrite filter_cons. destruct (decide (strip t <> EmptyString)); [| exact IH].
    cbn [map]. constructor; [| exact IH]. split.
    + destruct t; [contradiction | discriminate].
    + now apply upper_forall.
  - intros s' H. now rewrite <- (tokenize_input_lower s), H, tokenize_input_lower.
  - intros H. unfold tokenize_input.
    assert (Hsp : split (replace_dashes s) = []).
    { induction s as [| c s IH]; [reflexivity |].
      cbn [string_forall] in H. apply andb_true_iff in H as [Hc Hs].
      cbn [replace_dashes split].
      destruct (Ascii.eqb c "-") eqn:E.
      - cbn. auto.
      - rewrite orb_false_r in Hc. rewrite Hc. auto. }
    now rewrite Hsp.
Qed.

Lemma tokens_are_clean_witness :
  tokenize_input "-EC -r"%string = tokenize_input "-ec -R"%string /\
  tokenize_input " - -- "%string = [].
Proof.
  split.
  - exact (proj1 (proj2 (tokens_are_clean "-EC -r"%string)) "-ec -R"%string eq_refl).
  - exact (proj2 (proj2 (tokens_are_clean " - -- "%string)) eq_refl).
Defined.

Lemma commands_decide_quit_and_skip_witness :
  let cfg := {| chinese_to_english := true; random_mode := true |} in
  let item := {| simplified := Some "ma"%string; pinyin := Some (PinyinStr "ma3");
                 english_concise := Some "horse"%string |} in
  let io := {| first_input := " -Q "; first_elapsed := 1;
               hint_input := ""; hint_elapsed := 0 |} in
  let p := {| word := "ma"; weight := 5; streak := 2%Z; avg_time := 2;
              total_time := 4; attempts := 2%Z; correct := 2%Z |} in
  snd (run_quiz_for_item cfg item io p) = p.
Proof.
  cbv zeta.
  apply (proj1 (proj2 (commands_decide_quit_and_skip _ _ _ _))).
  reflexivity.
Defined.

Lemma turn_raises_iff_witness :
  let cfg := {| chinese_to_english := true; random_mode := true |} in
  let item := {| simplified := Some "ma"%string; pinyin := Some (PinyinStr "ma3");
                 english_concise := Some "horse"%string |} in
  let d := {| Displayed.english_descriptive := Some Displayed.JsonString;
              Displayed.measure_word := Some Displayed.JsonString |} in
  let io := {| first_input := "niu2"; first_elapsed := 2;
               hint_input := ""; hint_elapsed := 0 |} in
  Displayed.run_quiz_for_item cfg item d io (default_record "ma")
  = (Raise AttributeError,
     {| word := "ma"; weight := 10; streak := 0%Z; avg_time := 0;
        total_time := 0 + 2; attempts := 1%Z; correct := 0%Z |}).
Proof.
  cbv zeta.
  match goal with
  | |- Displayed.run_quiz_for_item ?cfg ?item ?d ?io ?p = _ =>
      destruct (proj1 (proj2 (proj2 (proj2
                  (turn_raises_iff cfg item d io p AttributeError)))))
        as [Hd | (answer & b & _ & _ & _ & _ & [(_ & _ & _ & Hr) | (_ & [=] & _)])];
        [reflexivity | discriminate | exact Hr]
  end.
Defined.
